(** * camouflage: the document lifecycle of [lib/base-document.js]

    A shallow embedding of [BaseDocument] (schema generation, the property
    proxy, [validate], [canonicalize], [fill], [populate], [toJSON]) and of
    the part of [MongoClient] it calls, with the properties the
    specification states about them.

    Conventions of the embedding.
    - A JavaScript object used as a map is an association list in property
      insertion order, with pairwise distinct keys.  This is the order of
      JavaScript for the names that are not integer-like
      ([Object.integer_like]), which it lists first.
    - Numbers are the integral doubles, as [Z]; fractions, infinities and NaN
      as stored values are not represented (NaN as the result of a coercion
      is [None]).  A number prints in plain decimal, as JavaScript prints it
      below 1e21, and the strings that denote a number are the decimal
      integers.
    - Objects are values: the only object whose identity is tracked is the
      backend's ObjectId, because it is used as a [Map] key.
    - An instance is handled through its proxy, as [create] returns it; its
      two internal maps are the record fields [_schema] and [_values], and
      no field is named after them.
    - The methods of [BaseDocument] are the functions of this file, applied
      to the instance they are called on.  The code reads a method through
      the proxy, which answers a field or a property of the same name in
      its place: [shadows] says when, and what is stated about a call on a
      document held in a field, or on a fresh instance, is stated for
      documents that do not shadow the method.
    - An accessor of a model is represented by the value its getter
      answers.  A getter that computes from the fields and a setter are
      not represented: [reads_stored] and [plain_key] name the reads and
      the writes that involve neither. *)

From Stdlib Require Import ZArith String Ascii List Bool Lia.
From stdpp Require Import base list option strings pretty.

Set Warnings "-register-all".

Open Scope Z_scope.
Open Scope string_scope.
Open Scope list_scope.

(** ** Values *)

(** What [documentClass()] answers: ['document'] or ['embedded']. *)
Inductive DocClass := Document | Embedded.

(** The constructors a schema can name as a type. *)
Inductive Ctor :=
| CString | CNumber | CBoolean | CDate | CBuffer | CObjectId
| CModel (k : DocClass) (name : string).

(** An instance: the target object behind the proxy. *)
Record InstanceOf (V : Type) : Type := mkInstance {
  documentClass : DocClass;
  _schema : list (string * V);
  _values : list (string * V);
  own : list (string * V);     (* the other own properties of the target *)
  proto : list (string * V);   (* the own properties of its prototype *)
  inherited : list (string * V) (* what the rest of the prototype chain adds *)
}.
Arguments mkInstance {V}.
Arguments documentClass {V}.
Arguments _schema {V}.
Arguments _values {V}.
Arguments own {V}.
Arguments proto {V}.
Arguments inherited {V}.

Inductive Value : Type :=
| VUndefined
| VNull
| VBool (b : bool)
| VNum (n : Z)
| VStr (s : string)
| VDate (t : option Z)                    (* [None]: an invalid date *)
| VObjectId (ref : nat) (hex : string)    (* [ref]: the identity of the object *)
| VRegExp (source : string)
| VFun (name : string)
| VCtor (c : Ctor)
| VArr (elems : list Value) (idList : option Value)
| VObj (fields : list (string * Value))
| VDoc (d : InstanceOf Value).

Abbreviation Instance := (InstanceOf Value).
Abbreviation Obj := (list (string * Value)).

(** ** The language primitives the code relies on *)

Module JS.

(** Thrown values. *)
Inductive Exn :=
| Error (msg : string)
| TypeError (msg : string).

Inductive Result (A : Type) : Type :=
| Return (a : A)
| Throw (e : Exn).
Arguments Return {A}.
Arguments Throw {A}.

Definition bind {A B} (m : Result A) (f : A -> Result B) : Result B :=
  match m with
  | Return a => f a
  | Throw e => Throw e
  end.

(** [typeof v] *)
Definition typeof (v : Value) : string :=
  match v with
  | VUndefined => "undefined"
  | VBool _ => "boolean"
  | VNum _ => "number"
  | VStr _ => "string"
  | VFun _ | VCtor _ => "function"
  | _ => "object"
  end.

(** The truthiness test of [if], [&&], [||] and [!]. *)
Definition truthy (v : Value) : bool :=
  match v with
  | VUndefined | VNull => false
  | VBool b => b
  | VNum n => negb (n =? 0)%Z
  | VStr s => negb (String.eqb s "")
  | _ => true
  end.

(** [c.name] of a constructor. *)
Definition ctor_name (c : Ctor) : string :=
  match c with
  | CString => "String"
  | CNumber => "Number"
  | CBoolean => "Boolean"
  | CDate => "Date"
  | CBuffer => "Buffer"
  | CObjectId => "ObjectID"
  | CModel _ n => n
  end.

Fixpoint join (sep : string) (l : list string) : string :=
  match l with
  | [] => ""
  | [x] => x
  | x :: l' => x +:+ sep +:+ join sep l'
  end.

(** [String(v)], which is also what [+] appends.  Arrays join their
    elements with a comma, null and undefined elements as the empty string.
    The text of a date and of a function depends on the engine; the model
    prints the time value and the name.  A number is printed in plain
    decimal, which is what JavaScript prints below 1e21, and an object
    has the [toString] of [Object.prototype]. *)
Fixpoint to_string (v : Value) : string :=
  match v with
  | VUndefined => "undefined"
  | VNull => "null"
  | VBool true => "true"
  | VBool false => "false"
  | VNum n => pretty n
  | VStr s => s
  | VDate (Some t) => "Date(" +:+ pretty t +:+ ")"
  | VDate None => "Invalid Date"
  | VObjectId _ hex => hex
  | VRegExp src => "/" +:+ src +:+ "/"
  | VFun name => "function " +:+ name
  | VCtor c => "function " +:+ ctor_name c
  | VArr l _ =>
      join "," (map (fun x => match x with
                              | VUndefined | VNull => ""
                              | _ => to_string x
                              end) l)
  | VObj _ | VDoc _ => "[object Object]"
  end.

Definition is_digit (a : ascii) : bool :=
  let n := nat_of_ascii a in (48 <=? n)%nat && (n <=? 57)%nat.

Fixpoint digits_value (acc : Z) (s : string) : option Z :=
  match s with
  | EmptyString => Some acc
  | String a s' =>
      if is_digit a
      then digits_value (10 * acc + Z.of_nat (nat_of_ascii a - 48)) s'
      else None
  end.

(** The number a string denotes: the empty string is 0, a decimal integer
    with an optional sign is itself, everything else reads as NaN.
    Fractions, exponents, hexadecimal digits and surrounding white space,
    which JavaScript reads as well, are not among the strings modelled. *)
Definition string_to_number (s : string) : option Z :=
  match s with
  | EmptyString => Some 0
  | String "-" (String a r) => option_map Z.opp (digits_value 0 (String a r))
  | String "+" (String a r) => digits_value 0 (String a r)
  | _ => digits_value 0 s
  end.

(** [ToPrimitive] with hint number: dates answer their time value, the
    other objects their string. *)
Definition to_primitive (v : Value) : Value :=
  match v with
  | VUndefined | VNull | VBool _ | VNum _ | VStr _ => v
  | VDate (Some t) => VNum t
  | VDate None => VUndefined            (* NaN *)
  | _ => VStr (to_string v)
  end.

(** [ToNumber] of a primitive; [None] is NaN. *)
Definition to_number (v : Value) : option Z :=
  match v with
  | VNull => Some 0
  | VBool true => Some 1
  | VBool false => Some 0
  | VNum n => Some n
  | VStr s => string_to_number s
  | _ => None
  end.

Fixpoint string_ltb (a b : string) : bool :=
  match a, b with
  | _, EmptyString => false
  | EmptyString, String _ _ => true
  | String x a', String y b' =>
      let nx := nat_of_ascii x in
      let ny := nat_of_ascii y in
      if (nx <? ny)%nat then true
      else if (ny <? nx)%nat then false
      else string_ltb a' b'
  end.

(** [a < b] *)
Definition lt (a b : Value) : bool :=
  match to_primitive a, to_primitive b with
  | VStr x, VStr y => string_ltb x y
  | pa, pb =>
      match to_number pa, to_number pb with
      | Some x, Some y => (x <? y)%Z
      | _, _ => false
      end
  end.

(** [a > b] *)
Definition gt (a b : Value) : bool := lt b a.

Definition ctor_eqb (c c' : Ctor) : bool :=
  match c, c' with
  | CString, CString | CNumber, CNumber | CBoolean, CBoolean
  | CDate, CDate | CBuffer, CBuffer | CObjectId, CObjectId => true
  | CModel Document n, CModel Document n'
  | CModel Embedded n, CModel Embedded n' => String.eqb n n'
  | _, _ => false
  end.

(** [a === b], which on the values modelled is also the key equality of a
    [Map]: primitives by content, an ObjectId by identity, a class by its
    name.  The other objects carry no identity and two of them never
    compare equal. *)
Definition strict_eq (a b : Value) : bool :=
  match a, b with
  | VUndefined, VUndefined => true
  | VNull, VNull => true
  | VBool x, VBool y => Bool.eqb x y
  | VNum x, VNum y => (x =? y)%Z
  | VStr x, VStr y => String.eqb x y
  | VObjectId r _, VObjectId r' _ => (r =? r')%nat
  | VCtor c, VCtor c' => ctor_eqb c c'
  | _, _ => false
  end.

(** The values [strict_eq] compares: the primitives, the ids and the
    classes. *)
Definition keyable (v : Value) : bool := strict_eq v v.

Definition Array_isArray (v : Value) : bool :=
  match v with VArr _ _ => true | _ => false end.

End JS.

Import JS.

Notation "'let*' x := m 'in' k" := (JS.bind m (fun x => k))
  (at level 10, x name, m at level 100, k at level 200).


(** ** Plain objects *)

Module Object.

(** The names every plain object inherits from [Object.prototype]. *)
Definition prototype : list string :=
  ["constructor"; "toString"; "toLocaleString"; "valueOf"; "hasOwnProperty";
   "isPrototypeOf"; "propertyIsEnumerable"].

Definition inherits (k : string) : bool := existsb (String.eqb k) prototype.

(** The names of [Object.prototype] left out above: the accessor
    [__proto__] and the four legacy methods.  A plain object answers [in]
    for them as well; what is stated about the keys of a data object is
    stated for the other names. *)
Definition legacy (k : string) : bool :=
  existsb (String.eqb k)
    ["__proto__"; "__defineGetter__"; "__defineSetter__"; "__lookupGetter__";
     "__lookupSetter__"].


Fixpoint lookup (k : string) (o : Obj) : option Value :=
  match o with
  | [] => None
  | (k', v) :: o' => if String.eqb k k' then Some v else lookup k o'
  end.

(** [Object.keys(o)], [_.keys(o)] *)
Definition keys (o : Obj) : list string := map fst o.

(** [o.hasOwnProperty(k)] *)
Definition hasOwnProperty (k : string) (o : Obj) : bool :=
  match lookup k o with Some _ => true | None => false end.

(** [k in o] *)
Definition has (k : string) (o : Obj) : bool :=
  hasOwnProperty k o || inherits k.

(** [o[k]] *)
Definition get (k : string) (o : Obj) : Value :=
  match lookup k o with
  | Some v => v
  | None => if inherits k then VFun ("Object.prototype." +:+ k) else VUndefined
  end.

(** [o[k] = v]: an existing property keeps its place, a new one goes last,
    which is where JavaScript lists a name that is not [integer_like]. *)
Fixpoint set (k : string) (v : Value) (o : Obj) : Obj :=
  match o with
  | [] => [(k, v)]
  | (k', v') :: o' =>
      if String.eqb k k' then (k', v) :: o' else (k', v') :: set k v o'
  end.

(** [delete o[k]] *)
Fixpoint delete (k : string) (o : Obj) : Obj :=
  match o with
  | [] => []
  | (k', v') :: o' =>
      if String.eqb k k' then delete k o' else (k', v') :: delete k o'
  end.

End Object.

(** [v[k]] for a value [v]: reading a property of null or undefined throws. *)
Definition prop (v : Value) (k : string) : Result Value :=
  match v with
  | VUndefined | VNull =>
      Throw (TypeError ("Cannot read property '" +:+ k +:+ "' of " +:+ to_string v))
  | VObj o => Return (Object.get k o)
  | VCtor c => Return (if String.eqb k "name" then VStr (ctor_name c) else VUndefined)
  | VFun n => Return (if String.eqb k "name" then VStr n else VUndefined)
  | VArr l _ =>
      Return (if String.eqb k "length" then VNum (Z.of_nat (length l)) else VUndefined)
  | _ => Return VUndefined
  end.

(** ** What the code takes from outside *)

(** User code reachable from a schema: default factories, custom validators
    and regular expressions. *)
Class Runtime := {
  call_fn : string -> list Value -> Result Value;
  regexp_test : string -> string -> bool
}.

(** [f(args)] *)
Definition call {RT : Runtime} (f : Value) (args : list Value) : Result Value :=
  match f with
  | VFun n => call_fn n args
  | VCtor (CModel _ n) =>
      Throw (TypeError ("Class constructor " +:+ n +:+ " cannot be invoked without 'new'"))
  | VCtor c => call_fn (ctor_name c) args
  | _ => Throw (TypeError (to_string f +:+ " is not a function"))
  end.

(** The database client [DB()] answers, as far as [BaseDocument] uses it. *)
Class Backend := {
  nativeIdType : Ctor;
  isNativeId : Value -> bool;
  (* null and undefined are not ids *)
  isNativeId_null : isNativeId VNull = false;
  isNativeId_undefined : isNativeId VUndefined = false
}.

Module MongoClient.

Definition is_hex (a : ascii) : bool :=
  let n := nat_of_ascii a in
  ((48 <=? n) && (n <=? 57) || (65 <=? n) && (n <=? 70) || (97 <=? n) && (n <=? 102))%nat.

Fixpoint all_hex (s : string) : bool :=
  match s with
  | EmptyString => true
  | String a s' => is_hex a && all_hex s'
  end.

(** [/^[a-fA-F0-9]{24}$/] *)
Definition hex24 (s : string) : bool :=
  (String.length s =? 24)%nat && all_hex s.

(** [value instanceof ObjectId || String(value).match(/^[a-fA-F0-9]{24}$/)] *)
Definition isNativeId (value : Value) : bool :=
  match value with
  | VObjectId _ _ => true
  | _ => hex24 (to_string value)
  end.

Definition nativeIdType : Ctor := CObjectId.

End MongoClient.

Definition mongo : Backend :=
  {| nativeIdType := MongoClient.nativeIdType;
     isNativeId := MongoClient.isNativeId;
     isNativeId_null := eq_refl;
     isNativeId_undefined := eq_refl |}.

(** ** [lib/validate.js] *)

Module Validate.

(** [lib/validate.js] is not among the sources: its predicates follow
    section 4.1 of the specification and the names the callers use them
    under. *)

(** Modelled from the spec: a string. *)
Definition isString (v : Value) : bool :=
  match v with VStr _ => true | _ => false end.

(** Modelled from the spec: a number. *)
Definition isNumber (v : Value) : bool :=
  match v with VNum _ => true | _ => false end.

(** Modelled from the spec: an array. *)
Definition isArray (v : Value) : bool :=
  match v with VArr _ _ => true | _ => false end.

(** Modelled from the spec: a [Document] class, or an instance of one. *)
Definition isDocument (v : Value) : bool :=
  match v with
  | VCtor (CModel Document _) => true
  | VDoc d => match documentClass d with Document => true | Embedded => false end
  | _ => false
  end.

(** Modelled from the spec: an [EmbeddedDocument] class, or an instance of
    one. *)
Definition isEmbeddedDocument (v : Value) : bool :=
  match v with
  | VCtor (CModel Embedded _) => true
  | VDoc d => match documentClass d with Embedded => true | Document => false end
  | _ => false
  end.

(** Modelled from the spec: the constructors a schema may name; the
    backend's id type is not one of them. *)
Definition isSupportedCtor (c : Ctor) : bool :=
  match c with CObjectId => false | _ => true end.

(** Modelled from the spec: the primitive kinds, the model classes and the
    arrays of these. *)
Definition isSupportedType (t : Value) : bool :=
  match t with
  | VCtor c => isSupportedCtor c
  | VArr l _ =>
      forallb (fun x => match x with VCtor c => isSupportedCtor c | _ => false end) l
  | _ => false
  end.

(** Modelled from the spec: a value against a type that is not an array; a
    date field also takes a number, the timestamp [canonicalize] turns into
    a date, and a reference takes the id it is stored as. *)
Definition isType {DB : Backend} (value : Value) (type : Value) : bool :=
  match type with
  | VCtor CString => isString value
  | VCtor CNumber => isNumber value
  | VCtor CBoolean => match value with VBool _ => true | _ => false end
  | VCtor CDate => match value with VDate _ | VNum _ => true | _ => false end
  | VCtor CBuffer => false
  | VCtor CObjectId => isNativeId value
  | VCtor (CModel Document _) => isDocument value || isNativeId value
  | VCtor (CModel Embedded _) => isEmbeddedDocument value
  | _ => false
  end.

(** Modelled from the spec: null and undefined are always valid; an array
    type asks for an array whose every element has the element type. *)
Definition isValidType {DB : Backend} (value : Value) (type : Value) : bool :=
  match value with
  | VUndefined | VNull => true
  | _ =>
      match type with
      | VArr [] _ => isArray value
      | VArr (elemType :: _) _ =>
          match value with
          | VArr l _ => forallb (fun v => isType v elemType) l
          | _ => false
          end
      | _ => isType value type
      end
  end.

(** Modelled from the spec: no choices declared, every value is in;
    otherwise membership. *)
Definition isInChoices (choices : Value) (choice : Value) : bool :=
  match choices with
  | VArr l _ => existsb (strict_eq choice) l
  | _ => negb (truthy choices)
  end.

End Validate.

Import Validate.

(** ** The property proxy *)

Definition with_schema (o : Obj) (t : Instance) : Instance :=
  mkInstance (documentClass t) o (_values t) (own t) (proto t) (inherited t).

Definition with_values (o : Obj) (t : Instance) : Instance :=
  mkInstance (documentClass t) (_schema t) o (own t) (proto t) (inherited t).

Definition with_own (o : Obj) (t : Instance) : Instance :=
  mkInstance (documentClass t) (_schema t) (_values t) o (proto t) (inherited t).

Definition with_proto (o : Obj) (t : Instance) : Instance :=
  mkInstance (documentClass t) (_schema t) (_values t) (own t) o (inherited t).

Definition with_inherited (o : Obj) (t : Instance) : Instance :=
  mkInstance (documentClass t) (_schema t) (_values t) (own t) (proto t) o.

Module Reflect.

(** [Reflect.get(target, propKey, receiver)]: the target's own properties,
    then its prototype chain.  An accessor is represented by the value its
    getter answers: a getter that computes from the fields of the instance
    is not followed through a write to them. *)
Definition get (target : Instance) (propKey : string) : Value :=
  if String.eqb propKey "_schema" then VObj (_schema target)
  else if String.eqb propKey "_values" then VObj (_values target)
  else
    match Object.lookup propKey (own target) with
    | Some v => v
    | None =>
        match Object.lookup propKey (proto target) with
        | Some v => v
        | None => Object.get propKey (inherited target)
        end
    end.

(** [Reflect.has(target, propKey)] *)
Definition has (target : Instance) (propKey : string) : bool :=
  String.eqb propKey "_schema" || String.eqb propKey "_values"
  || Object.hasOwnProperty propKey (own target)
  || Object.hasOwnProperty propKey (proto target)
  || Object.has propKey (inherited target).

(** [Reflect.set(target, propKey, value, receiver)]: the write lands in an
    own property of the target, as it does for a name the prototype chain
    does not define or defines as a data property; a setter of the chain
    is not run.  The two internal maps are never assigned. *)
Definition set (target : Instance) (propKey : string) (value : Value) : Instance :=
  if String.eqb propKey "_schema" || String.eqb propKey "_values" then target
  else with_own (Object.set propKey value (own target)) target.

End Reflect.

Module schemaProxyHandler.

Definition get (target : Instance) (propKey : string) : Value :=
  if Object.has propKey (_values target) then Object.get propKey (_values target)
  else if String.eqb propKey "id" then Object.get "_id" (_values target)
  else Reflect.get target propKey.

Definition set (target : Instance) (propKey : string) (value : Value) : Instance :=
  if Object.has propKey (_schema target)
  then with_values (Object.set propKey value (_values target)) target
  else if String.eqb propKey "id"
  then with_values (Object.set "_id" value (_values target)) target
  else Reflect.set target propKey value.

(** The trap answers [true] whatever the key. *)
Definition deleteProperty (target : Instance) (propKey : string) : Instance * bool :=
  let target := with_schema (Object.delete propKey (_schema target)) target in
  let target := with_values (Object.delete propKey (_values target)) target in
  (target, true).

Definition has (target : Instance) (propKey : string) : bool :=
  Object.has propKey (_schema target) || Reflect.has target propKey.

End schemaProxyHandler.

(** ** Building an instance *)

(** [normalizeType(property)].  The [Error] constructor ignores its second
    argument, so the message ends at [Got:]. *)
Definition normalizeType (property : Value) : Result Value :=
  let* t := prop property "type" in
  if truthy t then Return property
  else if isSupportedType property then Return (VObj [("type", property)])
  else Throw (Error ("Unsupported type or bad variable. " +:+
         "Remember, non-persisted objects must start with an underscore (_). Got:")).

(** [k in v] for the value a schema holds under a field. *)
Definition has_prop (k : string) (v : Value) : Result bool :=
  match v with
  | VObj o => Return (Object.has k o)
  | VArr _ _ | VDoc _ | VDate _ | VObjectId _ _ | VRegExp _ | VFun _ | VCtor _ =>
      Return false
  | _ => Throw (TypeError ("Cannot use 'in' operator to search for '" +:+ k
                           +:+ "' in " +:+ to_string v))
  end.

Section Instantiate.

Context {RT : Runtime} {DB : Backend}.

(** [this.getDefault(schemaProp)] *)
Definition getDefault (this : Instance) (schemaProp : string) : Result Value :=
  let* declared :=
    (if Object.has schemaProp (_schema this)
     then has_prop "default" (Object.get schemaProp (_schema this))
     else Return false) in
  if (declared : bool) then
    let* def := prop (Object.get schemaProp (_schema this)) "default" in
    if String.eqb (typeof def) "function" then call def [] else Return def
  else if String.eqb schemaProp "_id" then Return VNull
  else Return VUndefined.

Definition startsWith_underscore (k : string) : bool :=
  match k with
  | String "_" _ => true
  | _ => false
  end.

(** The body [generateSchema] runs for one own key [k]. *)
Definition generateSchema_key (that : Instance) (k : string) : Result Instance :=
  if startsWith_underscore k then Return that
  else
    let* decl := normalizeType (Reflect.get that k) in
    let that := with_schema (Object.set k decl (_schema that)) that in
    let* type := prop (Object.get k (_schema that)) "type" in
    let* def := getDefault that k in
    if isArray type
    then Return (with_values
                   (Object.set k (if truthy def then def else VArr [] None) (_values that))
                   that)
    else Return (with_values (Object.set k def (_values that)) that).

Fixpoint forEach {A} (f : A -> string -> Result A) (keys : list string) (a : A)
  : Result A :=
  match keys with
  | [] => Return a
  | k :: keys' => let* a' := f a k in forEach f keys' a'
  end.

(** [this.generateSchema()]; [_.keys(this)] lists [_schema] and [_values]
    first, which the underscore test skips like every key of that form. *)
Definition generateSchema (this : Instance) : Result Instance :=
  forEach generateSchema_key ("_schema" :: "_values" :: Object.keys (own this)) this.

(** A model class: the assignments [this.k = v] its constructors make after
    [BaseDocument]'s, and its prototype. *)
Record ModelClass := mkClass {
  class_documentClass : DocClass;
  class_fields : list (string * Value);
  class_prototype : Obj;
  class_inherited : Obj
}.

(** [constructor()] of [BaseDocument] *)
Definition BaseDocument_constructor (c : ModelClass) : Instance :=
  mkInstance (class_documentClass c)
    [("_id", VObj [("type", VCtor nativeIdType)])]
    [] [] (class_prototype c) (class_inherited c).

(** [this.k = v] on the bare target: [id] has a setter on the prototype
    of [BaseDocument]. *)
Definition assign (this : Instance) (kv : string * Value) : Instance :=
  if String.eqb (fst kv) "id"
  then with_values (Object.set "_id" (snd kv) (_values this)) this
  else Reflect.set this (fst kv) (snd kv).

(** [new this()] *)
Definition new (c : ModelClass) : Instance :=
  fold_left assign (class_fields c) (BaseDocument_constructor c).

(** [_instantiate()]; the proxy it wraps the instance in is the handler
    above. *)
Definition _instantiate (c : ModelClass) : Result Instance :=
  generateSchema (new c).

End Instantiate.

(** ** [validate] *)

(** The six tests [validate] makes on a field, named after what they guard. *)
Inductive Check :=
| CheckType | CheckMatch | CheckChoices | CheckMin | CheckMax | CheckCustom.

(** Reaching the [if] of a check on a field is an event. *)
Definition Event : Type := string * Check.

(** A computation that logs the checks it reaches and may throw. *)
Definition Checked (A : Type) : Type := list Event * Result A.

Definition pass {A} (a : A) : Checked A := ([], Return a).

Definition raise {A} (e : Exn) : Checked A := ([], Throw e).

Definition reach (key : string) (c : Check) : Checked unit := ([(key, c)], Return tt).

Definition lift {A} (r : Result A) : Checked A := ([], r).

Definition andThen {A B} (m : Checked A) (f : A -> Checked B) : Checked B :=
  match m with
  | (log, Return a) => let (log', r) := f a in (log ++ log', r)
  | (log, Throw e) => (log, Throw e)
  end.

Notation "'let!' x := m 'in' k" := (andThen m (fun x => k))
  (at level 10, x name, m at level 100, k at level 200).
Notation "m ;;; k" := (andThen m (fun _ => k))
  (at level 100, right associativity).

(** [value !== null && value !== undefined && value.documentClass &&
    value.documentClass() === 'embedded'].  Documents are the only values
    with a [documentClass] method, and the method is the one of the
    document's class: the document does not shadow it. *)
Definition is_embedded (value : Value) : bool :=
  match value with
  | VDoc d => match documentClass d with Embedded => true | Document => false end
  | _ => false
  end.

Section Validate.

Context {RT : Runtime} {DB : Backend}.

(** [that._meta.collection] *)
Definition collection (that : Instance) : Result Value :=
  prop (schemaProxyHandler.get that "_meta") "collection".

(** ['Value assigned to ' + that._meta.collection + '.' + key + rest] *)
Definition message (that : Instance) (key : string) (rest : string) : Result string :=
  let* c := collection that in
  Return ("Value assigned to " +:+ to_string c +:+ "." +:+ key +:+ rest).

Definition fail {A} (that : Instance) (key : string) (rest : string) : Checked A :=
  match message that key rest with
  | Return msg => raise (Error msg)
  | Throw e => raise e
  end.

Definition typeName (type : Value) : Result string :=
  match type with
  | VArr l _ =>
      let* n := prop (nth 0 l VUndefined) "name" in
      Return ("[" +:+ to_string n +:+ "]")
  | _ => let* n := prop type "name" in Return (to_string n)
  end.

Definition valueName (value : Value) : string :=
  if Array_isArray value then "[" +:+ to_string value +:+ "]" else typeof value.

(** [match.test(value)] *)
Definition test (re : Value) (value : Value) : Result bool :=
  match re with
  | VRegExp src => Return (regexp_test src (to_string value))
  | _ => Throw (TypeError "that._schema[key].match.test is not a function")
  end.

(** [choices.join(', ')] *)
Definition join_choices (choices : Value) : Result string :=
  match choices with
  | VArr l _ =>
      Return (join ", " (map (fun x => match x with
                                       | VUndefined | VNull => ""
                                       | _ => to_string x
                                       end) l))
  | _ => Throw (TypeError "that._schema[key].choices.join is not a function")
  end.

(** The six [if] statements of lines 169 to 212, one definition each.
    Every one re-reads [that._schema[key]]. *)

Definition check_type (that : Instance) (key : string) (value : Value) : Checked unit :=
  reach key CheckType ;;;
  let! type := lift (prop (Object.get key (_schema that)) "type") in
  if negb (isValidType value type) then
    let! tn := lift (typeName type) in
    fail that key (" should be " +:+ tn +:+ ", got " +:+ valueName value)
  else pass tt.

Definition check_match (that : Instance) (key : string) (value : Value) : Checked unit :=
  reach key CheckMatch ;;;
  let! re := lift (prop (Object.get key (_schema that)) "match") in
  if truthy re && isString value then
    let! ok := lift (test re value) in
    if negb ok then
      fail that key (" does not match the regex/string " +:+ to_string re
                     +:+ ". Value was " +:+ to_string value)
    else pass tt
  else pass tt.

Definition check_choices (that : Instance) (key : string) (value : Value) : Checked unit :=
  reach key CheckChoices ;;;
  let! choices := lift (prop (Object.get key (_schema that)) "choices") in
  if negb (isInChoices choices value) then
    let! cs := lift (join_choices choices) in
    fail that key (" should be in [" +:+ cs +:+ "], got " +:+ to_string value)
  else pass tt.

Definition check_min (that : Instance) (key : string) (value : Value) : Checked unit :=
  reach key CheckMin ;;;
  let! min := lift (prop (Object.get key (_schema that)) "min") in
  if truthy min && JS.lt value min then
    fail that key (" is less than min, " +:+ to_string min
                   +:+ ", got " +:+ to_string value)
  else pass tt.

Definition check_max (that : Instance) (key : string) (value : Value) : Checked unit :=
  reach key CheckMax ;;;
  let! max := lift (prop (Object.get key (_schema that)) "max") in
  if truthy max && JS.gt value max then
    fail that key (" is less than max, " +:+ to_string max
                   +:+ ", got " +:+ to_string value)
  else pass tt.

Definition check_custom (that : Instance) (key : string) (value : Value) : Checked unit :=
  reach key CheckCustom ;;;
  let! f := lift (prop (Object.get key (_schema that)) "validate") in
  if String.eqb (typeof f) "function" then
    let! r := lift (call f [value]) in
    if negb (truthy r) then
      fail that key (" failed custom validator. Value was " +:+ to_string value)
    else pass tt
  else pass tt.

(** What [validate] does for a field whose value is not an embedded
    document. *)
Definition validate_checks (that : Instance) (key : string) (value : Value)
  : Checked unit :=
  check_type that key value ;;;
  check_match that key value ;;;
  check_choices that key value ;;;
  check_min that key value ;;;
  check_max that key value ;;;
  check_custom that key value.

(** The callback of [forEach] for one key: an embedded document validates
    itself and [return]s.  [value.validate()] is the method [validate], for
    a document that does not shadow it. *)
Definition validate_key (self : Value -> Checked unit)
    (that : Instance) (key : string) (value : Value) : Checked unit :=
  if is_embedded value then self value
  else validate_checks that key value.

(** [v.validate()] for a document [v] *)
Fixpoint validate_value (v : Value) : Checked unit :=
  match v with
  | VDoc that =>
      (fix each (l : Obj) : Checked unit :=
         match l with
         | [] => pass tt
         | (key, value) :: l' =>
             validate_key validate_value that key value ;;; each l'
         end) (_values that)
  | _ => raise (TypeError "validate is not a function")
  end.

(** [that.validate()] *)
Definition validate (that : Instance) : Checked unit := validate_value (VDoc that).

End Validate.

(** ** [canonicalize] *)

(** [new Date(value)] for a number, the one argument [canonicalize] gives
    it: beyond 8.64e15 ms the date is invalid. *)
Definition new_Date (value : Value) : Value :=
  match value with
  | VNum n => VDate (if (Z.abs n <=? 8640000000000000)%Z then Some n else None)
  | _ => VDate None
  end.

(** The callback of [forEach] for one key; it answers the value the key
    holds afterwards and whether it threw.  [value.canonicalize()] is the
    method [canonicalize], for a document that does not shadow it. *)
Definition canonicalize_key (self : Value -> Value * Result unit)
    (that : Instance) (key : string) (value : Value) : Value * Result unit :=
  match prop (Object.get key (_schema that)) "type" with
  | Throw e => (value, Throw e)
  | Return type =>
      if strict_eq type (VCtor CDate) && isNumber value
      then (new_Date value, Return tt)
      else if is_embedded value then self value
      else (value, Return tt)
  end.

(** [v.canonicalize()] for a document [v]: the document afterwards, and the
    outcome.  A throw leaves the keys already visited canonical. *)
Fixpoint canonicalize_value (v : Value) : Value * Result unit :=
  match v with
  | VDoc that =>
      let (vals, r) :=
        (fix each (l : Obj) : Obj * Result unit :=
           match l with
           | [] => ([], Return tt)
           | (key, value) :: l' =>
               match canonicalize_key canonicalize_value that key value with
               | (value', Return _) =>
                   let (l'', r) := each l' in ((key, value') :: l'', r)
               | (value', Throw e) => ((key, value') :: l', Throw e)
               end
           end) (_values that) in
      (VDoc (with_values vals that), r)
  | _ => (v, Throw (TypeError "canonicalize is not a function"))
  end.

(** [that.canonicalize()] *)
Definition canonicalize (that : Instance) : Instance * Result unit :=
  match canonicalize_value (VDoc that) with
  | (VDoc that', r) => (that', r)
  | (_, r) => (that, r)
  end.

(** ** [fill] and [create] *)

Section Fill.

Context {RT : Runtime} {DB : Backend}.

(** The loop over the keys of [newValues], lines 279 to 316: what is
    stated about [fill] below holds whatever this loop does. *)
Variable fill_keys : Instance -> Value -> Result Instance.

(** [this.fill(newValues)] *)
Definition fill (this : Instance) (newValues : Value) : Result Instance :=
  match newValues with
  | VNull | VUndefined => Return this
  | _ =>
      if isNativeId newValues
      then Return (with_values (Object.set "_id" newValues (_values this)) this)
      else fill_keys this newValues
  end.

(** [_fromDataSingle(d)]; [instance.fill] is the method [fill], for a
    model whose instances do not shadow it. *)
Definition _fromDataSingle (c : ModelClass) (d : Value) : Result Value :=
  let* instance := _instantiate c in
  let* instance := fill instance d in
  Return (VDoc instance).

Fixpoint mapM {A B} (f : A -> Result B) (l : list A) : Result (list B) :=
  match l with
  | [] => Return []
  | x :: l' => let* y := f x in let* ys := mapM f l' in Return (y :: ys)
  end.

Definition _fromData (c : ModelClass) (datas : Value) : Result Value :=
  match datas with
  | VArr l _ => let* ds := mapM (_fromDataSingle c) l in Return (VArr ds None)
  | _ => _fromDataSingle c datas
  end.

(** [create(data)]; a call without argument passes [undefined]. *)
Definition create (c : ModelClass) (data : Value) : Result Value :=
  if negb (String.eqb (typeof data) "undefined") then _fromData c data
  else let* instance := _instantiate c in Return (VDoc instance).

End Fill.

(** ** [toJSON] *)

Section Serialize.

Context {RT : Runtime}.

(** [schema.hasOwnProperty(key)].  The schema is a plain object keyed by
    the field names: the method is the one of [Object.prototype] unless a
    field is named [hasOwnProperty], whose declaration is then what the
    call applies. *)
Definition hasOwnProperty_call (schema : Obj) (key : string) : Result bool :=
  match Object.lookup "hasOwnProperty" schema with
  | None => Return (Object.hasOwnProperty key schema)
  | Some f =>
      if String.eqb (typeof f) "function"
      then let* r := call f [VStr key] in Return (truthy r)
      else Throw (TypeError "schema.hasOwnProperty is not a function")
  end.

(** The body of [for (var key in schema)] for one key. *)
Definition toJSON_key (schema : Obj) (values : Obj) (key : string) : Result Obj :=
  let* isOwn := hasOwnProperty_call schema key in
  if (isOwn : bool) then
    let entry := Object.get key schema in
    let* private := prop entry "private" in
    if truthy private then Return (Object.delete key values)
    else if String.eqb (typeof (Object.get key values)) "undefined" then
      let* type := prop entry "type" in
      if Array_isArray entry || Array_isArray type
      then Return (Object.set key (VArr [] None) values)
      else Return (Object.set key VNull values)
    else Return values
  else Return values.

(** The body of the loop over [protoProps] for one name. *)
Definition toJSON_proto (this : Instance) (values : Obj) (key : string) : Obj :=
  if negb (String.eqb key "constructor") && negb (String.eqb key "id")
  then Object.set key (schemaProxyHandler.get this key) values
  else values.

(** [this.toJSON()] *)
Definition toJSON (this : Instance) : Result Obj :=
  let values := _values this in
  let schema := _schema this in
  let* values := forEach (toJSON_key schema) (Object.keys schema) values in
  Return (fold_left (toJSON_proto this) (Object.keys (proto this)) values).

End Serialize.

(** ** [populate] *)

Module Populate.

(** What [populate] is called on: nothing, one document or an array of
    documents.  A document is named by its place in the store, so an array
    can hold one document twice; a place outside the store reads as
    [undefined]. *)
Inductive Docs :=
| Nothing
| One (d : nat)
| Many (ds : list nat).

Record KeyDef := mkKeyDef {
  key : string;
  type : Value;
  isArray : bool
}.

(** The two callbacks [populate] passes to [then]. *)
Inductive Reaction :=
| Push (d : nat) (key : string)      (* [d[keyDef.key].push(data)] *)
| Assign (d : nat) (key : string).   (* [d[keyDef.key] = data] *)

(** A promise [type.loadById(id, { populate: false })] returned, with the
    callbacks attached to it, oldest first. *)
Record Load := mkLoad {
  load_type : Value;
  load_id : Value;
  reactions : list Reaction
}.

(** A [Map]: keys are compared by [strict_eq]. *)
Fixpoint Map_get {V} (k : Value) (m : list (Value * V)) : option V :=
  match m with
  | [] => None
  | (k', v) :: m' => if strict_eq k' k then Some v else Map_get k m'
  end.

Fixpoint Map_set {V} (k : Value) (v : V) (m : list (Value * V)) : list (Value * V) :=
  match m with
  | [] => [(k, v)]
  | (k', v') :: m' =>
      if strict_eq k' k then (k', v) :: m' else (k', v') :: Map_set k v m'
  end.

Record State := mkState {
  store : list Instance;                       (* the documents *)
  cache : list (Value * list (Value * nat));   (* type, then id, to the load *)
  loads : list Load                            (* the calls of [loadById], in order *)
}.

Definition with_store (s : list Instance) (st : State) : State :=
  mkState s (cache st) (loads st).

(** [loadFromCache(type, id)]: the load it answers, and the state after. *)
Definition loadFromCache (type id : Value) (st : State) : nat * State :=
  let (typeCache, cache1) :=
    match Map_get type (cache st) with
    | Some typeCache => (typeCache, cache st)
    | None => ([], Map_set type [] (cache st))
    end in
  match Map_get id typeCache with
  | Some loadPromise => (loadPromise, mkState (store st) cache1 (loads st))
  | None =>
      let loadPromise := length (loads st) in
      (loadPromise,
       mkState (store st)
         (Map_set type (Map_set id loadPromise typeCache) cache1)
         (loads st ++ [mkLoad type id []]))
  end.

(** [promise.then(callback)] *)
Definition then_ (loadPromise : nat) (r : Reaction) (st : State) : State :=
  mkState (store st) (cache st)
    (alter (fun l => mkLoad (load_type l) (load_id l) (reactions l ++ [r]))
           loadPromise (loads st)).

(** [d[key]] *)
Definition doc_get (st : State) (d : nat) (key : string) : Result Value :=
  match store st !! d with
  | Some t => Return (schemaProxyHandler.get t key)
  | None => Throw (TypeError ("Cannot read property '" +:+ key +:+ "' of undefined"))
  end.

(** [d[key] = value] *)
Definition doc_set (d : nat) (key : string) (value : Value) (st : State) : State :=
  with_store (alter (fun t => schemaProxyHandler.set t key value) d (store st)) st.

Section Populate.

Context {DB : Backend}.

(** The entry of [keyDefs] for one key of the schema, if the filter
    keeps it. *)
Definition keyDef (anInstance : Instance) (key : string) : Result (option KeyDef) :=
  let* type := prop (Object.get key (_schema anInstance)) "type" in
  let value := schemaProxyHandler.get anInstance key in
  let keep :=
    match type with
    | VArr (t0 :: _) _ => isDocument t0
    | _ => false
    end
    || ((isString value || isNativeId value) && isDocument type) in
  if keep then
    match type with
    | VArr l _ => Return (Some (mkKeyDef key (nth 0 l VUndefined) true))
    | _ => Return (Some (mkKeyDef key type false))
    end
  else Return None.

Fixpoint keyDefs_of (anInstance : Instance) (keys : list string)
  : Result (list KeyDef) :=
  match keys with
  | [] => Return []
  | k :: keys' =>
      let* kd := keyDef anInstance k in
      let* kds := keyDefs_of anInstance keys' in
      Return (match kd with Some x => x :: kds | None => kds end)
  end.

Definition keyDefs (anInstance : Instance) : Result (list KeyDef) :=
  keyDefs_of anInstance (Object.keys (_schema anInstance)).

(** [idList.forEach(function(id) { ... })] *)
Fixpoint load_each (type : Value) (d : nat) (key : string)
    (idList : list Value) (st : State) : State :=
  match idList with
  | [] => st
  | id :: idList' =>
      let (loadPromise, st) := loadFromCache type id st in
      load_each type d key idList' (then_ loadPromise (Push d key) st)
  end.

(** The body of [documents.forEach] for one key definition and one
    document.  A throw keeps what was done before it. *)
Definition visit (keyDef : KeyDef) (st : State) (d : nat) : State * Result unit :=
  match doc_get st d (key keyDef) with
  | Throw e => (st, Throw e)
  | Return value =>
      if isArray keyDef && truthy value then
        match value with
        | VArr idList _ =>
            let st := load_each (type keyDef) d (key keyDef) idList st in
            (doc_set d (key keyDef) (VArr [] (Some value)) st, Return tt)
        | _ => (st, Throw (TypeError "idList.forEach is not a function"))
        end
      else
        let (loadPromise, st) := loadFromCache (type keyDef) value st in
        (then_ loadPromise (Assign d (key keyDef)) st, Return tt)
  end.

Fixpoint visit_documents (keyDef : KeyDef) (documents : list nat) (st : State)
  : State * Result unit :=
  match documents with
  | [] => (st, Return tt)
  | d :: documents' =>
      match visit keyDef st d with
      | (st, Return _) => visit_documents keyDef documents' st
      | (st, Throw e) => (st, Throw e)
      end
  end.

Fixpoint visit_keyDefs (keyDefs : list KeyDef) (documents : list nat) (st : State)
  : State * Result unit :=
  match keyDefs with
  | [] => (st, Return tt)
  | keyDef :: keyDefs' =>
      match visit_documents keyDef documents st with
      | (st, Return _) => visit_keyDefs keyDefs' documents st
      | (st, Throw e) => (st, Throw e)
      end
  end.

(** The synchronous part of [populate(docs)], on the documents. *)
Definition issue (documents : list nat) (st : State) : State * Result unit :=
  match documents with
  | [] => (st, Return tt)
  | d0 :: _ =>
      match store st !! d0 with
      | None => (st, Throw (TypeError "Cannot read property '_schema' of undefined"))
      | Some anInstance =>
          match keyDefs anInstance with
          | Throw e => (st, Throw e)
          | Return kds => visit_keyDefs kds documents st
          end
      end
  end.

(** What each call of [loadById] settles with: the data, or a
    rejection. *)
Variable loadById : Value -> Value -> Result Value.

(** The object [d[key]] answers is changed in place: the change shows
    where the proxy read it. *)
Definition write_back (t : Instance) (key : string) (v : Value) : Instance :=
  if Object.has key (_values t) then with_values (Object.set key v (_values t)) t
  else if String.eqb key "id" then with_values (Object.set "_id" v (_values t)) t
  else if Object.hasOwnProperty key (own t) then with_own (Object.set key v (own t)) t
  else if Object.hasOwnProperty key (proto t)
  then with_proto (Object.set key v (proto t)) t
  else with_inherited (Object.set key v (inherited t)) t.

(** [d[key].push(data)] *)
Definition doc_push (d : nat) (key : string) (data : Value) (st : State)
  : State * Result unit :=
  match doc_get st d key with
  | Return (VArr l il) =>
      (with_store (alter (fun t => write_back t key (VArr (l ++ [data]) il)) d (store st)) st,
       Return tt)
  | Return _ => (st, Throw (TypeError "d[keyDef.key].push is not a function"))
  | Throw e => (st, Throw e)
  end.

(** One callback, run with the data of its load. *)
Definition react (data : Value) (r : Reaction) (st : State) : State * Result unit :=
  match r with
  | Push d key => doc_push d key data st
  | Assign d key => (doc_set d key data st, Return tt)
  end.

(** The callbacks of a load that was fulfilled, oldest first; the
    rejections of the promises [then] returned are collected. *)
Fixpoint react_all (data : Value) (rs : list Reaction) (st : State)
  : State * list Exn :=
  match rs with
  | [] => (st, [])
  | r :: rs' =>
      let (st, res) := react data r st in
      let (st, errs) := react_all data rs' st in
      (st, match res with Throw e => e :: errs | Return _ => errs end)
  end.

(** A load settles: fulfilled, its callbacks run; rejected, every promise
    [then] returned is rejected with the same reason. *)
Definition settle (loadPromise : nat) (st : State) : State * list Exn :=
  match loads st !! loadPromise with
  | None => (st, [])
  | Some l =>
      match loadById (load_type l) (load_id l) with
      | Return data => react_all data (reactions l) st
      | Throw e => (st, map (fun _ => e) (reactions l))
      end
  end.

(** The loads settle in the order [order] names them; one named twice
    settles once. *)
Fixpoint settle_all (order settled : list nat) (st : State) : State * list Exn :=
  match order with
  | [] => (st, [])
  | p :: order' =>
      if existsb (Nat.eqb p) settled then settle_all order' settled st
      else
        let (st, errs) := settle p st in
        let (st, errs') := settle_all order' (p :: settled) st in
        (st, errs ++ errs')
  end.

(** How the promise [populate] returns ends. *)
Inductive Outcome :=
| Fulfilled          (* with [docs] *)
| Rejected (e : Exn)
| Pending            (* a load never settled *)
| Thrown (e : Exn).  (* [populate] itself threw *)

Record Populated := mkPopulated {
  documents_after : list Instance;
  calls : list (Value * Value);   (* the calls [type.loadById(id, ...)] *)
  outcome : Outcome
}.

Definition calls_of (st : State) : list (Value * Value) :=
  map (fun l => (load_type l, load_id l)) (loads st).

Definition all_settled (order : list nat) (st : State) : bool :=
  forallb (fun p => existsb (Nat.eqb p) order) (seq 0 (length (loads st))).

Definition run (documents : list nat) (order : list nat) (docs : list Instance)
  : Populated :=
  match issue documents (mkState docs [] []) with
  | (st, Throw e) => mkPopulated (store st) (calls_of st) (Thrown e)
  | (st, Return _) =>
      let (st', errs) := settle_all order [] st in
      mkPopulated (store st') (calls_of st')
        match errs with
        | e :: _ => Rejected e
        | [] => if all_settled order st then Fulfilled else Pending
        end
  end.

(** [BaseDocument.populate(docs)], the loads settling in the order
    [order]. *)
Definition populate (docs : Docs) (order : list nat) (store : list Instance)
  : Populated :=
  match docs with
  | Nothing => mkPopulated store [] Fulfilled
  | One d => run [d] order store
  | Many [] => mkPopulated store [] Fulfilled
  | Many ds => run ds order store
  end.

End Populate.

End Populate.


(** ** The statements of the specification, as definitions *)

Section ValidateSpecification.

Context {RT : Runtime} {DB : Backend}.

(** [validate] on a part [l] of the values map of [that]. *)
Fixpoint validate_each (that : Instance) (l : Obj) : Checked unit :=
  match l with
  | [] => pass tt
  | (key, value) :: l' =>
      validate_key validate_value that key value ;;; validate_each that l'
  end.

(** The order the specification gives the checks of a field. *)
Definition checks_in_order : list Check :=
  [CheckType; CheckMatch; CheckChoices; CheckMin; CheckMax; CheckCustom].

(** Whether the value of a field violates the constraint a check guards,
    following section 4.4: type compatibility, pattern match for string
    values, choice membership, minimum, maximum, custom predicate.
    Evaluating the constraint can itself throw. *)
Definition violated (that : Instance) (key : string) (value : Value) (c : Check)
  : Result bool :=
  let entry := Object.get key (_schema that) in
  match c with
  | CheckType =>
      let* type := prop entry "type" in Return (negb (isValidType value type))
  | CheckMatch =>
      let* re := prop entry "match" in
      if truthy re && isString value
      then let* ok := test re value in Return (negb ok)
      else Return false
  | CheckChoices =>
      let* choices := prop entry "choices" in
      Return (negb (isInChoices choices value))
  | CheckMin =>
      let* min := prop entry "min" in Return (truthy min && JS.lt value min)
  | CheckMax =>
      let* max := prop entry "max" in Return (truthy max && JS.gt value max)
  | CheckCustom =>
      let* f := prop entry "validate" in
      if String.eqb (typeof f) "function"
      then let* r := call f [value] in Return (negb (truthy r))
      else Return false
  end.

Definition passes (that : Instance) (key : string) (value : Value) (c : Check) : bool :=
  match violated that key value c with
  | Return false => true
  | _ => false
  end.

(** The checks that are evaluated when they are tried in the order [cs] and
    the first that does not pass ends the pass. *)
Fixpoint evaluated (that : Instance) (key : string) (value : Value) (cs : list Check)
  : list Check :=
  match cs with
  | [] => []
  | c :: cs' =>
      c :: (if passes that key value c then evaluated that key value cs' else [])
  end.

(** Each [if] statement logs its check and passes exactly when the
    constraint is not violated. *)
Definition step_ok (that : Instance) (key : string) (value : Value) (c : Check)
    (m : Checked unit) : Prop :=
  fst m = [(key, c)] /\ (snd m = Return tt <-> passes that key value c = true).

(** The documents of the examples: no user code, the Mongo client. *)
Definition no_user_code : Runtime :=
  {| call_fn := fun n _ => Throw (TypeError (n +:+ " is not defined"));
     regexp_test := fun _ _ => false |}.

End ValidateSpecification.

(** [canonicalize] on a part [l] of the values map of [that]. *)
Fixpoint canonicalize_each (that : Instance) (l : Obj) : Obj * Result unit :=
  match l with
  | [] => ([], Return tt)
  | (key, value) :: l' =>
      match canonicalize_key canonicalize_value that key value with
      | (value', Return _) =>
          let (l'', r) := canonicalize_each that l' in ((key, value') :: l'', r)
      | (value', Throw e) => ((key, value') :: l', Throw e)
      end
  end.

(** An embedded document whose field breaks its own bound, and a parent that
    holds it under [emb] between two fields of its own. *)
Definition embedded_example : Instance :=
  mkInstance Embedded
    [("num", VObj [("type", VCtor CNumber); ("max", VNum 10)])]
    [("num", VNum 26)]
    [("_meta", VObj [("collection", VStr "embedded")])] [] [].

Definition parent_example : Instance :=
  mkInstance Document
    [("_id", VObj [("type", VCtor CObjectId)]);
     ("name", VObj [("type", VCtor CString)]);
     ("emb", VObj [("type", VCtor CNumber)]);
     ("count", VObj [("type", VCtor CNumber)])]
    [("name", VStr "a"); ("emb", VDoc embedded_example); ("count", VNum 1)]
    [("_meta", VObj [("collection", VStr "parent")])] [] [].

(** A schema entry is an object whose properties can be read, and no
    array. *)
Definition readable (entry : Value) : Prop :=
  entry <> VUndefined /\ entry <> VNull /\ Array_isArray entry = false.

(** What [toJSON] makes of the schema field [key] before it turns to the
    prototype. *)
Definition serialized (schema values : Obj) (key : string) : option Value :=
  match Object.lookup key schema with
  | None => Object.lookup key values
  | Some entry =>
      match prop entry "private", prop entry "type" with
      | Return private, Return type =>
          if truthy private then None
          else if String.eqb (typeof (Object.get key values)) "undefined"
          then Some (if Array_isArray entry || Array_isArray type
                     then VArr [] None else VNull)
          else Object.lookup key values
      | _, _ => None
      end
  end.

(** What [generateSchema] establishes. *)
Definition generated (that : Instance) : Prop :=
  NoDup (Object.keys (_schema that)) /\
  (forall k e, Object.lookup k (_schema that) = Some e -> readable e) /\
  (forall k e, Object.lookup k (_schema that) = Some e ->
     Object.lookup k (_values that) <> None \/ Object.inherits k = false) /\
  (forall k e type, Object.lookup k (_schema that) = Some e ->
     prop e "type" = Return type -> isArray type = true ->
     has_prop "default" e = Return false ->
     Object.lookup k (_values that) = Some (VArr [] None)).

(** A model whose prototype has a method named like its private field. *)
Definition Account : ModelClass :=
  mkClass Document
    [("_meta", VObj [("collection", VStr "accounts")]);
     ("name", VCtor CString);
     ("secret", VObj [("type", VCtor CString); ("private", VBool true);
                      ("default", VStr "hunter2")])]
    [("constructor", VCtor (CModel Document "Account")); ("secret", VFun "secret")]
    [].

(** A model with a field named like a method of [Object.prototype]. *)
Definition Flagged : ModelClass :=
  mkClass Document
    [("_meta", VObj [("collection", VStr "flagged")]);
     ("hasOwnProperty", VCtor CBoolean)]
    [("constructor", VCtor (CModel Document "Flagged"))]
    [].

(** The loads of [populate], without the cache. *)
Module Loads.

Import Populate.

(** Whether the load [l] is the one for the type [ty] and the id [id]. *)
Definition matches (ty id : Value) (l : Load) : bool :=
  strict_eq (load_type l) ty && strict_eq (load_id l) id.

(** The first load for [ty] and [id]. *)
Fixpoint find (ty id : Value) (L : list Load) : option nat :=
  match L with
  | [] => None
  | l :: L' => if matches ty id l then Some 0%nat else option_map S (find ty id L')
  end.

(** What the cache answers for [ty] and [id]. *)
Definition cache_get (ty id : Value) (c : list (Value * list (Value * nat))) : option nat :=
  match Map_get ty c with
  | Some typeCache => Map_get id typeCache
  | None => None
  end.

(** The cache knows exactly the loads made. *)
Definition cache_ok (st : State) : Prop :=
  forall ty id, cache_get ty id (cache st) = find ty id (loads st).

(** [loadFromCache] on the loads alone. *)
Definition resolve (ty id : Value) (L : list Load) : nat * list Load :=
  match find ty id L with
  | Some p => (p, L)
  | None => (length L, L ++ [mkLoad ty id []])
  end.

(** [then] on the loads alone. *)
Definition register (r : Reaction) (p : nat) (L : list Load) : list Load :=
  alter (fun l => mkLoad (load_type l) (load_id l) (reactions l ++ [r])) p L.

(** [idList.forEach] on the loads alone. *)
Fixpoint each (ty : Value) (d : nat) (k : string) (idList : list Value)
    (L : list Load) : list Load :=
  match idList with
  | [] => L
  | id :: idList' =>
      let (p, L') := resolve ty id L in
      each ty d k idList' (register (Push d k) p L')
  end.

(** Whether a callback writes to the field [k] of the document [d]. *)
Definition targets (d : nat) (k : string) (r : Reaction) : bool :=
  match r with
  | Push d' k' | Assign d' k' => Nat.eqb d' d && String.eqb k' k
  end.

(** How many entries of [idList] the load [l] serves, for the type [ty]. *)
Definition served (ty : Value) (idList : list Value) (l : Load) : nat :=
  if strict_eq (load_type l) ty
  then length (List.filter (strict_eq (load_id l)) idList)
  else 0%nat.

(** The callbacks of [l] that write to the field [k] of [d]. *)
Definition writers (d : nat) (k : string) (l : Load) : list Reaction :=
  List.filter (targets d k) (reactions l).

(** The callbacks on the field [k] of [d] are the pushes of the entries of
    [idList], each on the load for its id, and every id has its load. *)
Definition pushes_registered (ty : Value) (d : nat) (k : string)
    (idList : list Value) (L : list Load) : Prop :=
  (forall p l, L !! p = Some l ->
     writers d k l = repeat (Push d k) (served ty idList l)) /\
  (forall id, In id idList -> find ty id L <> None).

(** No two loads for one type and id. *)
Definition unique (L : list Load) : Prop :=
  forall p q lp lq,
    L !! p = Some lp -> L !! q = Some lq ->
    matches (load_type lp) (load_id lp) lq = true -> p = q.

(** The documents [populate] works on. *)
Definition documents_of (docs : Docs) : list nat :=
  match docs with
  | Nothing => []
  | One d => [d]
  | Many ds => ds
  end.

(** What the load called with [call] pushes onto the array of a field of
    type [ty] that held [idList], once it has settled with [settled]: its
    data, once for every entry of [idList] with its id. *)
Definition pushes (ty : Value) (idList : list Value) (call : Value * Value)
    (settled : Result Value) : list Value :=
  if strict_eq (fst call) ty then
    match settled with
    | Return data => map (fun _ => data) (List.filter (strict_eq (snd call)) idList)
    | Throw _ => []
    end
  else [].

(** The array of the field when the loads have settled in the order
    [order]. *)
Definition populated (loadById : Value -> Value -> Result Value)
    (ty : Value) (idList : list Value) (calls : list (Value * Value))
    (order : list nat) : list Value :=
  flat_map (fun p => match calls !! p with
                     | Some call => pushes ty idList call (loadById (fst call) (snd call))
                     | None => []
                     end) order.

(** The state of the synchronous part, as far as the field [k] of the
    document [d] goes. *)
Definition issued (ty : Value) (d : nat) (k : string) (ids : list Value)
    (st : State) : Prop :=
  cache_ok st /\ unique (loads st) /\ pushes_registered ty d k ids (loads st).

(** The field [k] of the document [d], and the schemas of the documents. *)
Definition field_of (st : State) (d : nat) (k : string) : option Value :=
  match store st !! d with
  | Some t => Object.lookup k (_values t)
  | None => None
  end.

Definition schemas (st : State) : list Obj := map _schema (store st).

(** What the load [p] pushes onto the field [k] of [d]. *)
Definition pushed_by (loadById : Value -> Value -> Result Value)
    (d : nat) (k : string) (L : list Load) (p : nat) : list Value :=
  match L !! p with
  | Some l =>
      match loadById (load_type l) (load_id l) with
      | Return data => map (fun _ => data) (writers d k l)
      | Throw _ => []
      end
  | None => []
  end.

End Loads.

(** A model with an array of references and a single reference to another
    model, an instance of it, and a backend that finds under every id a
    document with that id. *)
Definition Author : Value := VCtor (CModel Document "Author").

Definition Book : ModelClass :=
  mkClass Document
    [("_meta", VObj [("collection", VStr "books")]);
     ("title", VCtor CString);
     ("authors", VArr [Author] None);
     ("editor", Author)]
    [("constructor", VCtor (CModel Document "Book"))]
    [].

Definition book (authors : list Value) (editor : Value) : Instance :=
  match _instantiate (RT := no_user_code) (DB := mongo) Book with
  | Return this =>
      schemaProxyHandler.set
        (schemaProxyHandler.set this "authors" (VArr authors None)) "editor" editor
  | Throw _ => BaseDocument_constructor (DB := mongo) Book
  end.

Definition author (id : Value) : Value :=
  VDoc (mkInstance Document
          [("_id", VObj [("type", VCtor CObjectId)]);
           ("name", VObj [("type", VCtor CString)])]
          [("_id", id); ("name", VStr ("author " +:+ to_string id))]
          [("_meta", VObj [("collection", VStr "authors")])] [] []).

Definition library (type id : Value) : Result Value := Return (author id).

(** A model with an array field, a private field and a method of its own. *)
Definition Wallet : ModelClass :=
  mkClass Document
    [("_meta", VObj [("collection", VStr "wallet")]);
     ("contents", VArr [VCtor (CModel Embedded "Money")] None);
     ("owner", VCtor CString);
     ("pin", VObj [("type", VCtor CString); ("private", VBool true)])]
    [("constructor", VCtor (CModel Document "Wallet")); ("total", VFun "total")]
    [].

Definition wallet : Instance :=
  match _instantiate (RT := no_user_code) (DB := mongo) Wallet with
  | Return this => this
  | Throw _ => BaseDocument_constructor (DB := mongo) Wallet
  end.

(** A model with one numeric field [num] carrying one bound, and an instance
    of it with [num] set. *)
Definition bounded_model (bound : string) (b : Z) : ModelClass :=
  mkClass Document
    [("_meta", VObj [("collection", VStr "documentmodel")]);
     ("num", VObj [("type", VCtor CNumber); (bound, VNum b)])]
    [] [].

Definition bounded_instance (bound : string) (b num : Z) : Result Instance :=
  let* instance := _instantiate (RT := no_user_code) (DB := mongo) (bounded_model bound b) in
  Return (schemaProxyHandler.set instance "num" (VNum num)).

(** ** The loop of [fill] *)

Section FillLoop.

Context {RT : Runtime} {DB : Backend}.

(** [DB().toNativeId(value)]; the client defines it outside
    [MongoClient]. *)
Variable toNativeId : Value -> Result Value.

(** [type._fromData(value)] for the class a field refers to, and
    [document.fill(value)] for the document a field already holds: the two
    calls of the loop that enter another document. *)
Variable _fromData_of : Value -> Value -> Result Value.
Variable fill_of : Instance -> Value -> Result Instance.

(** [type.prototype instanceof BaseDocument]: the model classes have such a
    prototype, the built-in constructors and the functions of a schema do
    not; an object answers with what it holds under [prototype]. *)
Definition prototype_instanceof_BaseDocument (type : Value) : Result bool :=
  match type with
  | VUndefined | VNull =>
      Throw (TypeError ("Cannot read property 'prototype' of " +:+ to_string type))
  | VCtor (CModel _ _) => Return true
  | VObj o => Return (match Object.get "prototype" o with VDoc _ => true | _ => false end)
  | VDoc d =>
      Return (match schemaProxyHandler.get d "prototype" with
              | VDoc _ => true
              | _ => false
              end)
  | _ => Return false
  end.

(** Lines 291 to 315: what the callback does with [value] for [key].  A
    key is not [_schema] or [_values], the names of the two maps. *)
Definition fill_key (instance : Instance) (key : string) (value : Value)
  : Result Instance :=
  let store v := with_values (Object.set key v (_values instance)) instance in
  if Object.has key (_schema instance) then
    let* type := prop (Object.get key (_schema instance)) "type" in
    let typeIsArray := Validate.isArray type in
    let type :=
      if typeIsArray
      then match type with VArr l _ => nth 0 l VUndefined | _ => VUndefined end
      else type in
    let* document := prototype_instanceof_BaseDocument type in
    if (document : bool) then
      match value with
      | VNull | VUndefined => Return (store value)
      | _ =>
          match Object.get key (_values instance) with
          | VDoc d => let* d' := fill_of d value in Return (store (VDoc d'))
          | _ =>
              if String.eqb (typeof value) "object" && negb (isNativeId value)
              then let* v := _fromData_of type value in Return (store v)
              else Return (store value)
          end
      end
    else if String.eqb key "_id" || String.eqb key "id" then
      let* id := toNativeId value in Return (store id)
    else Return (store value)
  else if schemaProxyHandler.has instance key
  then Return (schemaProxyHandler.set instance key value)
  else Return instance.

(** Lines 281 to 289: the value the callback works with. *)
Definition fill_value (instance : Instance) (newValues : Obj) (key : string)
  : Result Value :=
  if negb (Object.has key newValues) then
    match Object.get key (_values instance) with
    | VUndefined => getDefault instance key
    | value => Return value
    end
  else Return (Object.get key newValues).

(** The loop of lines 279 to 316 over the keys of a plain object. *)
Definition fill_object (instance : Instance) (newValues : Obj) : Result Instance :=
  forEach (fun instance key =>
             let* value := fill_value instance newValues key in
             fill_key instance key value)
          (Object.keys newValues) instance.

(** [this.fill(newValues)] for a plain object [newValues]. *)
Definition fill_plain (this : Instance) (newValues : Obj) : Result Instance :=
  fill (fun instance _ => fill_object instance newValues) this (VObj newValues).

(** A field whose declared type, or the first element of it for an array
    type, is no model class. *)
Definition plain_field (instance : Instance) (k : string) : Prop :=
  exists decl type,
    Object.lookup k (_schema instance) = Some decl /\
    prop decl "type" = Return type /\
    prototype_instanceof_BaseDocument
      (if Validate.isArray type
       then match type with VArr l _ => nth 0 l VUndefined | _ => VUndefined end
       else type) = Return false.

End FillLoop.

(** ** [schema] *)

(** The loop [extension[k] = normalizeType(extension[k])] over the keys of
    a plain object: the extension afterwards, and the outcome.  A throw
    leaves the declarations before it normalized. *)
Fixpoint schema_normalize (extension : Obj) : Obj * Result unit :=
  match extension with
  | [] => ([], Return tt)
  | (k, property) :: rest =>
      match normalizeType property with
      | Return typeDeclaration =>
          let (rest', r) := schema_normalize rest in ((k, typeDeclaration) :: rest', r)
      | Throw e => ((k, property) :: rest, Throw e)
      end
  end.

(** [_.assign(object, source)] *)
Definition _assign (object source : Obj) : Obj :=
  fold_left (fun o kv => Object.set (fst kv) (snd kv) o) source object.

(** [this.schema(extension)] for a plain object [extension], which passes
    the test of the first line: the instance and the extension afterwards,
    and the outcome. *)
Definition schema (this : Instance) (extension : Obj) : Instance * Obj * Result unit :=
  match schema_normalize extension with
  | (extension', Return _) =>
      (with_schema (_assign (_schema this) extension') this, extension', Return tt)
  | (extension', Throw e) => (this, extension', Throw e)
  end.


(** ** Names *)

(** Whether the document [d] holds a property named [name] in its values
    map, on itself or on the prototype of its model.  Read through the
    proxy, such a property is answered in place of the method [name] of
    [BaseDocument]: the trap looks into the values map first, and the
    instance and the prototype of the model come before [BaseDocument] in
    the chain. *)
Definition shadows (d : Instance) (name : string) : bool :=
  Object.has name (_values d)
  || Object.hasOwnProperty name (own d)
  || Object.hasOwnProperty name (proto d).

(** Whether the proxy answers the read of [k] with something stored: a
    field, the alias [id], an own property of the instance, or a name the
    prototypes of the model do not define.  The other names are left to
    the prototypes, where a getter may compute its answer from the
    fields. *)
Definition reads_stored (target : Instance) (k : string) : bool :=
  Object.has k (_values target)
  || String.eqb k "id"
  || Object.hasOwnProperty k (own target)
  || negb (Object.hasOwnProperty k (proto target)
           || Object.hasOwnProperty k (inherited target)).

(** A key of the data that the loop of [fill] handles by what it stores:
    the key is none of the names of [Object.prototype] left out of
    [Object.inherits], and if it is outside the schema and not [id], the
    prototypes of the model do not define it, so that the assignment
    [instance[key] = value] runs no setter. *)
Definition plain_key (instance : Instance) (key : string) : Prop :=
  Object.legacy key = false /\
  (Object.has key (_schema instance) = false -> key <> "id" ->
   Object.hasOwnProperty key (proto instance) = false /\
   Object.hasOwnProperty key (inherited instance) = false).

(** ** Invariants *)


(** Every load has a callback. *)
Definition answered (L : list Populate.Load) : Prop :=
  forall q l, L !! q = Some l -> Populate.reactions l <> [].

(** The state of the synchronous part of [populate], whatever the field. *)
Definition sound (st : Populate.State) : Prop :=
  Loads.cache_ok st /\ Loads.unique (Populate.loads st) /\ answered (Populate.loads st).

(** The one callback on the field [k] of [d] is the assignment, on the
    load for the type [ty] and the id [id]. *)
Definition assign_registered (ty : Value) (d : nat) (k : string) (id : Value)
    (L : list Populate.Load) : Prop :=
  (forall p l, L !! p = Some l ->
     Loads.writers d k l
     = if Loads.matches ty id l then [Populate.Assign d k] else []) /\
  Loads.find ty id L <> None.

(** The state of the synchronous part once the field [k] of [d] has been
    visited. *)
Definition assigned (ty : Value) (d : nat) (k : string) (id : Value)
    (st : Populate.State) : Prop :=
  Loads.cache_ok st /\ Loads.unique (Populate.loads st) /\
  assign_registered ty d k id (Populate.loads st).

(** ** Further examples *)


Definition Money : ModelClass :=
  mkClass Embedded
    [("amount", VObj [("type", VCtor CNumber); ("max", VNum 10)])]
    [("constructor", VCtor (CModel Embedded "Money"))]
    [].

Definition money (amount : Value) : Instance :=
  match _instantiate (RT := no_user_code) (DB := mongo) Money with
  | Return this => schemaProxyHandler.set this "amount" amount
  | Throw _ => BaseDocument_constructor (DB := mongo) Money
  end.

Definition wallet_with_id : Instance :=
  with_inherited [("id", VUndefined)] wallet.


(** * Properties *)

(** ** Plain objects *)

Lemma lookup_set_eq k v o : Object.lookup k (Object.set k v o) = Some v.
Proof.
  induction o as [|[k' v'] o IH]; simpl.
  - now rewrite String.eqb_refl.
  - destruct (String.eqb k k') eqn:E; simpl; rewrite E; auto.
Qed.

Lemma lookup_set_ne k k' v o :
  k <> k' -> Object.lookup k' (Object.set k v o) = Object.lookup k' o.
Proof.
  intros Hne. induction o as [|[k0 v0] o IH]; simpl.
  - destruct (String.eqb k' k) eqn:E; auto.
    apply String.eqb_eq in E. congruence.
  - destruct (String.eqb k k0) eqn:E; simpl.
    + apply String.eqb_eq in E. subst k0.
      destruct (String.eqb k' k) eqn:E'; auto.
      apply String.eqb_eq in E'. congruence.
    + now rewrite IH.
Qed.

Lemma lookup_delete_eq k o : Object.lookup k (Object.delete k o) = None.
Proof.
  induction o as [|[k' v'] o IH]; simpl; auto.
  destruct (String.eqb k k') eqn:E; simpl; auto. now rewrite E.
Qed.

Lemma lookup_delete_ne k k' o :
  k <> k' -> Object.lookup k' (Object.delete k o) = Object.lookup k' o.
Proof.
  intros Hne. induction o as [|[k0 v0] o IH]; simpl; auto.
  destruct (String.eqb k k0) eqn:E; simpl.
  - apply String.eqb_eq in E. subst k0.
    destruct (String.eqb k' k) eqn:E'; auto.
    apply String.eqb_eq in E'. congruence.
  - now rewrite IH.
Qed.

Lemma delete_absent k o : Object.lookup k o = None -> Object.delete k o = o.
Proof.
  induction o as [|[k' v'] o IH]; simpl; auto.
  destruct (String.eqb k k') eqn:E; [discriminate|].
  intros Hn. now rewrite IH.
Qed.

(** ** [fill] *)

Section FillProperties.

Context {DB : Backend}.
Variable fill_keys : Instance -> Value -> Result Instance.

(** C9: [fill(null)] and [fill(undefined)] answer the instance itself, with
    its schema map and its values map as they were. *)
Theorem fill_null_or_undefined_is_identity (this : Instance) :
  fill fill_keys this VNull = Return this /\
  fill fill_keys this VUndefined = Return this.
Proof. split; reflexivity. Qed.

(** C8: [fill(v)] for a bare native identifier [v] answers the instance with
    [_id] set to [v]; every other entry of the values map, the schema map and
    the rest of the instance are as they were. *)
Theorem fill_native_id_sets_only_id (this : Instance) (v : Value) :
  isNativeId v = true ->
  exists this',
    fill fill_keys this v = Return this' /\
    Object.lookup "_id" (_values this') = Some v /\
    (forall k, k <> "_id" ->
       Object.lookup k (_values this') = Object.lookup k (_values this)) /\
    _schema this' = _schema this /\
    own this' = own this /\
    proto this' = proto this /\
    inherited this' = inherited this /\
    documentClass this' = documentClass this.
Proof.
  intros Hid.
  exists (with_values (Object.set "_id" v (_values this)) this).
  repeat split.
  - unfold fill. rewrite Hid.
    destruct v; try reflexivity.
    + rewrite isNativeId_undefined in Hid. discriminate.
    + rewrite isNativeId_null in Hid. discriminate.
  - simpl. apply lookup_set_eq.
  - intros k Hk. simpl. apply lookup_set_ne. congruence.
Qed.

End FillProperties.

Lemma fill_native_id_sets_only_id_witness :
  exists this',
    fill (DB := mongo) (fun t _ => Return t)
      (mkInstance Document [] [("name", VStr "x")] [] [] [])
      (VStr "0123456789abcdef01234567") = Return this' /\
    Object.lookup "_id" (_values this') = Some (VStr "0123456789abcdef01234567") /\
    (forall k, k <> "_id" ->
       Object.lookup k (_values this') = Object.lookup k [("name", VStr "x")]) /\
    _schema this' = [] /\ own this' = [] /\ proto this' = [] /\
    inherited this' = [] /\ documentClass this' = Document.
Proof.
  apply (fill_native_id_sets_only_id (DB := mongo) (fun t _ => Return t)
           (mkInstance Document [] [("name", VStr "x")] [] [] [])
           (VStr "0123456789abcdef01234567")).
  reflexivity.
Defined.

(** ** The proxy *)

(** C10: the delete trap answers [true] for every key; the key is gone from
    the schema map and from the values map, the other keys of both maps and
    the own properties of the target are as they were, and for a key in
    neither map nothing changes at all. *)
Theorem deleteProperty_always_succeeds (target : Instance) (propKey : string) :
  snd (schemaProxyHandler.deleteProperty target propKey) = true /\
  (let target' := fst (schemaProxyHandler.deleteProperty target propKey) in
   Object.lookup propKey (_schema target') = None /\
   Object.lookup propKey (_values target') = None /\
   (forall k, k <> propKey ->
      Object.lookup k (_schema target') = Object.lookup k (_schema target) /\
      Object.lookup k (_values target') = Object.lookup k (_values target)) /\
   own target' = own target /\
   proto target' = proto target /\
   inherited target' = inherited target /\
   (Object.lookup propKey (_schema target) = None ->
    Object.lookup propKey (_values target) = None ->
    target' = target)).
Proof.
  split; [reflexivity|]. simpl.
  repeat split.
  - apply lookup_delete_eq.
  - apply lookup_delete_eq.
  - apply lookup_delete_ne. congruence.
  - apply lookup_delete_ne. congruence.
  - intros Hs Hv. unfold with_values, with_schema. simpl.
    rewrite (delete_absent _ _ Hs), (delete_absent _ _ Hv).
    now destruct target.
Qed.

(** ** [validate] *)

Section ValidateProperties.

Context {RT : Runtime} {DB : Backend}.

Lemma andThen_assoc {A B C} (m : Checked A) (f : A -> Checked B) (g : B -> Checked C) :
  andThen (andThen m f) g = andThen m (fun a => andThen (f a) g).
Proof.
  destruct m as [log [a|e]]; simpl; auto.
  destruct (f a) as [log' [b|e]]; simpl; auto.
  destruct (g b) as [log'' r]. now rewrite app_assoc.
Qed.

Lemma andThen_pass {A} (m : Checked A) : andThen m pass = m.
Proof. destruct m as [log [a|e]]; simpl; auto. now rewrite app_nil_r. Qed.

Lemma validate_unfold (that : Instance) :
  validate that = validate_each that (_values that).
Proof.
  unfold validate. simpl.
  induction (_values that) as [|[k v] l IH]; simpl; auto.
  now rewrite IH.
Qed.

Lemma validate_each_app (that : Instance) (l1 l2 : Obj) :
  validate_each that (l1 ++ l2) = (validate_each that l1 ;;; validate_each that l2).
Proof.
  induction l1 as [|[k v] l1 IH]; simpl.
  - now destruct (validate_each that l2) as [log r].
  - rewrite IH, andThen_assoc. reflexivity.
Qed.

Lemma fst_andThen {A B} (m : Checked A) (f : A -> Checked B) :
  exists log, fst (andThen m f) = fst m ++ log.
Proof.
  destruct m as [log [a|e]]; simpl.
  - destruct (f a) as [log' r]. now exists log'.
  - exists []. now rewrite app_nil_r.
Qed.

(** C7: an embedded document in the values map validates itself, and that is
    all [validate] does for its field: the pass over the parent is the pass
    over the fields before it, the embedded document's own [validate], and
    the pass over the fields after it, whatever the schema of the parent
    says about the field.  Once the fields before it have passed, the
    checks that follow are those of the embedded document's first field,
    made against the embedded document's schema.  The embedded document is
    one that answers [documentClass] and [validate] with its methods: it
    has no field and no property of its own under these two names. *)
Theorem validate_embedded_validates_itself
    (that : Instance) (pre post : Obj) (key : string) (d : Instance) :
  documentClass d = Embedded ->
  shadows d "documentClass" = false ->
  shadows d "validate" = false ->
  _values that = pre ++ (key, VDoc d) :: post ->
  validate that
  = (validate_each that pre ;;; validate d ;;; validate_each that post) /\
  (forall parent : Instance,
     validate_key validate_value parent key (VDoc d) = validate d) /\
  (forall (log : list Event) (key0 : string) (value0 : Value) (rest : Obj),
     validate_each that pre = (log, Return tt) ->
     _values d = (key0, value0) :: rest ->
     is_embedded value0 = false ->
     exists log',
       fst (validate that) = log ++ fst (validate_checks d key0 value0) ++ log').
Proof.
  intros Hd _ _ Hv.
  assert (Hall : validate that
                 = (validate_each that pre ;;; validate d ;;; validate_each that post)).
  { rewrite validate_unfold, Hv, validate_each_app. simpl.
    unfold validate_key at 1. simpl. rewrite Hd. reflexivity. }
  split; [exact Hall|]. split.
  - intros parent. unfold validate_key. simpl. now rewrite Hd.
  - intros log key0 value0 rest Hpre Hd0 He0. rewrite Hall, Hpre.
    rewrite (validate_unfold d), Hd0. cbn [validate_each].
    unfold validate_key at 1. rewrite He0.
    rewrite andThen_assoc.
    destruct (fst_andThen (validate_checks d key0 value0)
                (fun _ => validate_each d rest ;;; validate_each that post))
      as [log' Hlog'].
    exists log'. cbn [andThen].
    destruct (andThen (validate_checks d key0 value0) _) as [l r].
    cbn [fst] in *. now rewrite Hlog'.
Qed.

Lemma fail_throws {A} (that : Instance) (key rest : string) :
  exists e, fail (A := A) that key rest = ([], Throw e).
Proof.
  unfold fail. destruct (message that key rest); eexists; reflexivity.
Qed.

Lemma reach_then {A} (key : string) (c : Check) (m : Checked A) :
  (reach key c ;;; m) = ((key, c) :: fst m, snd m).
Proof. destruct m. reflexivity. Qed.

Lemma lift_then {A B} (r : Result A) (f : A -> Checked B) :
  andThen (lift r) f = match r with Return a => f a | Throw e => ([], Throw e) end.
Proof. destruct r; simpl; auto. now destruct (f a). Qed.

Lemma pass_then {A} (m : Checked A) : (pass tt ;;; m) = m.
Proof. now destruct m. Qed.

Lemma throw_then {A B} (log : list Event) (e : Exn) (f : A -> Checked B) :
  andThen (log, Throw e) f = (log, Throw e).
Proof. reflexivity. Qed.

Ltac step_start :=
  unfold step_ok, passes, violated;
  rewrite reach_then, lift_then;
  match goal with
  | |- context [prop ?en ?k] =>
      destruct (prop en k) as [x|err]; cbn [JS.bind fst snd];
      [|split; [reflexivity | split; discriminate]]
  end.

Ltac step_fail :=
  match goal with
  | |- context [fail ?t ?k ?r] =>
      let e := fresh "e" in
      destruct (fail_throws (A := unit) t k r) as [e ->];
      cbn [fst snd]; split; [reflexivity | split; discriminate]
  end.

Lemma check_type_ok that key value :
  step_ok that key value CheckType (check_type that key value).
Proof.
  unfold check_type. step_start.
  destruct (isValidType value x); cbn [negb].
  - split; [reflexivity | split; reflexivity].
  - rewrite lift_then. destruct (typeName x); [step_fail|].
    split; [reflexivity | split; discriminate].
Qed.

Lemma check_match_ok that key value :
  step_ok that key value CheckMatch (check_match that key value).
Proof.
  unfold check_match. step_start.
  destruct (truthy x && isString value).
  - rewrite lift_then. destruct (test x value) as [[|]|]; cbn [JS.bind negb].
    + split; [reflexivity | split; reflexivity].
    + step_fail.
    + split; [reflexivity | split; discriminate].
  - split; [reflexivity | split; reflexivity].
Qed.

Lemma check_choices_ok that key value :
  step_ok that key value CheckChoices (check_choices that key value).
Proof.
  unfold check_choices. step_start.
  destruct (isInChoices x value); cbn [negb].
  - split; [reflexivity | split; reflexivity].
  - rewrite lift_then. destruct (join_choices x); [step_fail|].
    split; [reflexivity | split; discriminate].
Qed.

Lemma check_min_ok that key value :
  step_ok that key value CheckMin (check_min that key value).
Proof.
  unfold check_min. step_start.
  destruct (truthy x && JS.lt value x).
  - step_fail.
  - split; [reflexivity | split; reflexivity].
Qed.

Lemma check_max_ok that key value :
  step_ok that key value CheckMax (check_max that key value).
Proof.
  unfold check_max. step_start.
  destruct (truthy x && JS.gt value x).
  - step_fail.
  - split; [reflexivity | split; reflexivity].
Qed.

Lemma check_custom_ok that key value :
  step_ok that key value CheckCustom (check_custom that key value).
Proof.
  unfold check_custom. step_start.
  destruct (String.eqb (typeof x) "function").
  - rewrite lift_then. destruct (call x [value]) as [r|]; cbn [JS.bind].
    + destruct (truthy r); cbn [negb].
      * split; [reflexivity | split; reflexivity].
      * step_fail.
    + split; [reflexivity | split; discriminate].
  - split; [reflexivity | split; reflexivity].
Qed.

(** A step followed by the rest of the pass. *)
Lemma step_then that key value c cs (m k : Checked unit) :
  step_ok that key value c m ->
  fst k = map (pair key) (evaluated that key value cs) /\
  (snd k = Return tt <-> forallb (passes that key value) cs = true) ->
  fst (m ;;; k) = map (pair key) (evaluated that key value (c :: cs)) /\
  (snd (m ;;; k) = Return tt <-> forallb (passes that key value) (c :: cs) = true).
Proof.
  intros [Hlog Hres] [Hk Hkr].
  destruct m as [log [[]|e]]; simpl in *; subst log.
  - destruct Hres as [Hres _]. rewrite (Hres eq_refl).
    destruct k as [log' r]. simpl in *. subst log'. split; [reflexivity|].
    exact Hkr.
  - destruct (passes that key value c) eqn:Hp.
    + destruct Hres as [_ Hres]. discriminate (Hres eq_refl).
    + split; [reflexivity | split; discriminate].
Qed.

Lemma step_last that key value c (m : Checked unit) :
  step_ok that key value c m ->
  fst m = map (pair key) (evaluated that key value [c]) /\
  (snd m = Return tt <-> forallb (passes that key value) [c] = true).
Proof.
  intros Hm. rewrite <- (andThen_pass m).
  replace (andThen m pass) with (m ;;; pass tt).
  - apply step_then; [exact Hm|]. simpl. split; [reflexivity | split; reflexivity].
  - destruct m as [log [[]|e]]; reflexivity.
Qed.

(** What [validate_checks] answers, by the specification's reading of it. *)
Lemma validate_checks_spec (that : Instance) (key : string) (value : Value) :
  fst (validate_checks that key value)
  = map (pair key) (evaluated that key value checks_in_order) /\
  (snd (validate_checks that key value) = Return tt <->
   forallb (passes that key value) checks_in_order = true).
Proof.
  unfold validate_checks, checks_in_order.
  apply step_then; [apply check_type_ok|].
  apply step_then; [apply check_match_ok|].
  apply step_then; [apply check_choices_ok|].
  apply step_then; [apply check_min_ok|].
  apply step_then; [apply check_max_ok|].
  apply step_last, check_custom_ok.
Qed.

(** C4: the checks of a field are evaluated in the order type, match,
    choices, min, max, custom, up to and including the first that does not
    pass; the field passes exactly when all six pass; and a field that does
    not pass ends the whole pass with one throw, the fields after it being
    left unvisited. *)
Theorem validate_checks_in_order_first_failure_throws
    (that : Instance) (key : string) (value : Value) :
  fst (validate_checks that key value)
  = map (pair key) (evaluated that key value checks_in_order) /\
  (snd (validate_checks that key value) = Return tt <->
   forallb (passes that key value) checks_in_order = true) /\
  (forall (pre post : Obj) (log : list Event),
     _values that = pre ++ (key, value) :: post ->
     is_embedded value = false ->
     validate_each that pre = (log, Return tt) ->
     forallb (passes that key value) checks_in_order = false ->
     fst (validate that)
     = log ++ map (pair key) (evaluated that key value checks_in_order) /\
     exists e, snd (validate that) = Throw e).
Proof.
  destruct (validate_checks_spec that key value) as [Hlog Hres].
  split; [exact Hlog|]. split; [exact Hres|].
  intros pre post log Hv Hemb Hpre Hfail.
  rewrite validate_unfold, Hv, validate_each_app, Hpre. simpl.
  unfold validate_key. rewrite Hemb.
  destruct (validate_checks that key value) as [log' [[]|e]]; simpl in *.
  - destruct Hres as [Hres _]. rewrite (Hres eq_refl) in Hfail. discriminate.
  - subst log'. split; [reflexivity|]. now exists e.
Qed.

(** The minimum of a numeric field: a bound of 0 is no bound. *)
Lemma min_check_on_numbers (that : Instance) (key : string) (n m : Z) :
  prop (Object.get key (_schema that)) "min" = Return (VNum m) ->
  passes that key (VNum n) CheckMin = (m =? 0)%Z || negb (n <? m)%Z.
Proof.
  intros Hm. unfold passes, violated. rewrite Hm. simpl.
  unfold JS.lt. simpl. destruct (m =? 0)%Z, (n <? m)%Z; reflexivity.
Qed.

(** The maximum of a numeric field, likewise. *)
Lemma max_check_on_numbers (that : Instance) (key : string) (n m : Z) :
  prop (Object.get key (_schema that)) "max" = Return (VNum m) ->
  passes that key (VNum n) CheckMax = (m =? 0)%Z || negb (m <? n)%Z.
Proof.
  intros Hm. unfold passes, violated. rewrite Hm. simpl.
  unfold JS.gt, JS.lt. simpl. destruct (m =? 0)%Z, (m <? n)%Z; reflexivity.
Qed.

End ValidateProperties.

Lemma validate_embedded_validates_itself_witness :
  (documentClass embedded_example = Embedded /\
   shadows embedded_example "documentClass" = false /\
   shadows embedded_example "validate" = false /\
   _values parent_example
   = [("name", VStr "a")] ++ ("emb", VDoc embedded_example) :: [("count", VNum 1)]) /\
  validate (RT := no_user_code) (DB := mongo) parent_example
  = (validate_each (RT := no_user_code) (DB := mongo) parent_example [("name", VStr "a")] ;;;
     validate (RT := no_user_code) (DB := mongo) embedded_example ;;;
     validate_each (RT := no_user_code) (DB := mongo) parent_example [("count", VNum 1)]) /\
  (forall parent : Instance,
     validate_key (RT := no_user_code) (DB := mongo)
       (validate_value (RT := no_user_code) (DB := mongo)) parent "emb"
       (VDoc embedded_example)
     = validate (RT := no_user_code) (DB := mongo) embedded_example).
Proof.
  split; [repeat split; reflexivity|].
  destruct (validate_embedded_validates_itself (RT := no_user_code) (DB := mongo)
              parent_example [("name", VStr "a")] [("count", VNum 1)] "emb"
              embedded_example) as (H1 & H2 & _); try reflexivity.
  exact (conj H1 H2).
Defined.

(** On the example the embedded document's own bound is what stops the
    pass over the parent: the checks of [name] are reached, then those of
    the embedded [num] up to its maximum, and nothing of the parent's
    schema for [emb], which asks for a number. *)
Example validate_parent_example :
  validate (RT := no_user_code) (DB := mongo) parent_example
  = ([("name", CheckType); ("name", CheckMatch); ("name", CheckChoices);
      ("name", CheckMin); ("name", CheckMax); ("name", CheckCustom);
      ("num", CheckType); ("num", CheckMatch); ("num", CheckChoices);
      ("num", CheckMin); ("num", CheckMax)],
     Throw (Error "Value assigned to embedded.num is less than max, 10, got 26")).
Proof. reflexivity. Qed.


(** The scenario of the specification: with [max: 10], 26 is rejected with a
    message that names the field and the value, and 5 passes. *)
Example validate_max_10 :
  (exists i, bounded_instance "max" 10 26 = Return i /\
     snd (validate (RT := no_user_code) (DB := mongo) i)
     = Throw (Error "Value assigned to documentmodel.num is less than max, 10, got 26")) /\
  (exists i, bounded_instance "max" 10 5 = Return i /\
     snd (validate (RT := no_user_code) (DB := mongo) i) = Return tt).
Proof. split; eexists; split; reflexivity. Qed.

(** C1, at the inputs where the code departs from it: a field declared with
    [min: 0] holding -5, and one declared with [max: 0] holding 5, pass
    [validate]; the tests [schema.min && ...] and [schema.max && ...] take
    the bound 0 for no bound. *)
Theorem validate_ignores_a_bound_of_zero :
  (exists i, bounded_instance "min" 0 (-5) = Return i /\
     snd (validate (RT := no_user_code) (DB := mongo) i) = Return tt) /\
  (exists i, bounded_instance "max" 0 5 = Return i /\
     snd (validate (RT := no_user_code) (DB := mongo) i) = Return tt).
Proof. split; eexists; split; reflexivity. Qed.

(** ** [canonicalize] *)

(** Induction on a value through the values maps of the documents in it. *)
Section ValueInduction.

Variable P : Value -> Prop.
Hypothesis P_other : forall v, (forall d, v <> VDoc d) -> P v.
Hypothesis P_doc : forall d, Forall (fun kv => P (snd kv)) (_values d) -> P (VDoc d).

Lemma Value_doc_ind : forall v : Value, P v.
Proof.
  fix IHv 1. intros v.
  destruct v as [| | | | | | | | | | | |d];
    try (apply P_other; intros d' Hd; discriminate Hd).
  apply P_doc.
  induction (_values d) as [|kv l IH]; constructor.
  - apply IHv.
  - exact IH.
Qed.

End ValueInduction.

Lemma canonicalize_value_doc (that : Instance) :
  canonicalize_value (VDoc that)
  = (VDoc (with_values (fst (canonicalize_each that (_values that))) that),
     snd (canonicalize_each that (_values that))).
Proof.
  simpl.
  match goal with
  | |- (let (_, _) := ?f (_values that) in _) = _ =>
      assert (E : f (_values that) = canonicalize_each that (_values that))
  end.
  { induction (_values that) as [|[k v] l IH]; simpl; auto.
    destruct (canonicalize_key canonicalize_value that k v) as [v' [[]|e]]; auto.
    now rewrite IH. }
  rewrite E. now destruct (canonicalize_each that (_values that)).
Qed.

Lemma canonicalize_unfold (that : Instance) :
  canonicalize that
  = (with_values (fst (canonicalize_each that (_values that))) that,
     snd (canonicalize_each that (_values that))).
Proof. unfold canonicalize. now rewrite canonicalize_value_doc. Qed.

Lemma is_embedded_canonicalize (v : Value) :
  is_embedded (fst (canonicalize_value v)) = is_embedded v.
Proof.
  destruct v; try reflexivity. now rewrite canonicalize_value_doc.
Qed.

Lemma canonicalize_value_not_number (v : Value) (n : Z) :
  is_embedded v = true -> fst (canonicalize_value v) <> VNum n.
Proof.
  destruct v; try discriminate. rewrite canonicalize_value_doc. discriminate.
Qed.

(** One key, once more. *)
Lemma canonicalize_key_again (that that' : Instance) (key : string) (value : Value) :
  _schema that' = _schema that ->
  canonicalize_value (fst (canonicalize_value value)) = canonicalize_value value ->
  canonicalize_key canonicalize_value that' key
    (fst (canonicalize_key canonicalize_value that key value))
  = canonicalize_key canonicalize_value that key value.
Proof.
  intros Hs IH. unfold canonicalize_key. rewrite Hs.
  destruct (prop (Object.get key (_schema that)) "type") as [type|e]; [|reflexivity].
  destruct (strict_eq type (VCtor CDate)) eqn:Et;
    destruct value as [| | | | | | | | | | | |d]; try reflexivity.
  all: cbv beta iota delta [andb isNumber].
  all: destruct (is_embedded (VDoc d)) eqn:He.
  1, 3: pose proof (canonicalize_value_doc d) as Hcd;
    destruct (canonicalize_value (VDoc d)) as [v1 r1];
    injection Hcd as -> ->; cbv beta iota delta [fst] in IH;
    assert (He' : is_embedded
                    (VDoc (with_values (fst (canonicalize_each d (_values d))) d)) = true)
      by exact He;
    cbv beta iota delta [fst] in He';
    cbv beta iota delta [fst andb isNumber]; rewrite He'; exact IH.
  all: cbv beta iota delta [fst andb isNumber]; rewrite He; reflexivity.
Qed.

Lemma canonicalize_each_again (that that' : Instance) (l : Obj) :
  _schema that' = _schema that ->
  Forall (fun kv => canonicalize_value (fst (canonicalize_value (snd kv)))
                    = canonicalize_value (snd kv)) l ->
  canonicalize_each that' (fst (canonicalize_each that l)) = canonicalize_each that l.
Proof.
  intros Hs Hall. induction Hall as [|[k v] l Hv Hall IH]; [reflexivity|].
  simpl in Hv. simpl.
  pose proof (canonicalize_key_again that that' k v Hs Hv) as Hk.
  destruct (canonicalize_key canonicalize_value that k v) as [v' [[]|e]] eqn:E;
    simpl in Hk.
  - destruct (canonicalize_each that l) as [l'' r] eqn:El. simpl in *.
    rewrite Hk, IH. reflexivity.
  - simpl. rewrite Hk. reflexivity.
Qed.

Lemma canonicalize_value_again (v : Value) :
  canonicalize_value (fst (canonicalize_value v)) = canonicalize_value v.
Proof.
  induction v using Value_doc_ind.
  - destruct v; try reflexivity. now destruct (H d).
  - rewrite canonicalize_value_doc. cbn [fst].
    rewrite canonicalize_value_doc. cbn [_values with_values].
    rewrite (canonicalize_each_again d _ (_values d)); auto.
Qed.

Lemma lookup_canonicalize_each (that : Instance) (l : Obj) (key : string) (n : Z) :
  prop (Object.get key (_schema that)) "type" = Return (VCtor CDate) ->
  Object.lookup key l = Some (VNum n) ->
  snd (canonicalize_each that l) = Return tt ->
  Object.lookup key (fst (canonicalize_each that l)) = Some (new_Date (VNum n)).
Proof.
  intros Ht. induction l as [|[k v] l IH]; [discriminate|]. simpl.
  destruct (String.eqb key k) eqn:Ek.
  - intros Hv. injection Hv as ->. apply String.eqb_eq in Ek. subst k.
    unfold canonicalize_key. rewrite Ht.
    destruct (canonicalize_each that l) as [l'' r]. simpl. intros _.
    now rewrite String.eqb_refl.
  - intros Hv.
    destruct (canonicalize_key canonicalize_value that k v) as [v' [[]|e]].
    + destruct (canonicalize_each that l) as [l'' r]. simpl in *.
      rewrite Ek. auto.
    + discriminate.
Qed.

(** C6: a second [canonicalize] changes nothing: it leaves the instance the
    first call produced, embedded documents included, and ends the way the
    first did; and a first call that returns has turned the numeric
    timestamp of a date field into a date. *)
Theorem canonicalize_idempotent (that : Instance) :
  canonicalize (fst (canonicalize that)) = canonicalize that /\
  _values (fst (canonicalize (fst (canonicalize that))))
  = _values (fst (canonicalize that)) /\
  (forall (key : string) (n : Z),
     prop (Object.get key (_schema that)) "type" = Return (VCtor CDate) ->
     Object.lookup key (_values that) = Some (VNum n) ->
     snd (canonicalize that) = Return tt ->
     Object.lookup key (_values (fst (canonicalize that))) = Some (new_Date (VNum n))).
Proof.
  assert (E : canonicalize (fst (canonicalize that)) = canonicalize that).
  { pose proof (canonicalize_value_again (VDoc that)) as Hv.
    rewrite !canonicalize_unfold in *. cbn [fst _values with_values].
    rewrite canonicalize_value_doc in Hv. cbn [fst] in Hv.
    rewrite canonicalize_value_doc in Hv. cbn [_values with_values] in Hv.
    injection Hv as Hv1 Hv2. rewrite Hv2.
    f_equal. unfold with_values in *. cbn in *. now rewrite Hv1. }
  split; [exact E|]. split; [now rewrite E|].
  intros key n Ht Hv Hr. rewrite canonicalize_unfold in *. cbn [fst snd _values with_values] in *.
  now apply lookup_canonicalize_each.
Qed.

(** ** [create] and [toJSON] *)

Lemma typeof_undefined (v : Value) :
  String.eqb (typeof v) "undefined" = true <-> v = VUndefined.
Proof. destruct v; simpl; split; intros E; try discriminate; reflexivity. Qed.

Lemma prop_readable (entry : Value) (k : string) :
  readable entry -> exists v, prop entry k = Return v.
Proof.
  intros (Hu & Hn & _). destruct entry; simpl; eauto; congruence.
Qed.

Lemma keys_set_in (k : string) (v : Value) (o : Obj) :
  Object.lookup k o <> None -> Object.keys (Object.set k v o) = Object.keys o.
Proof.
  induction o as [|[k' v'] o IH]; simpl; [congruence|].
  destruct (String.eqb k k') eqn:E; simpl; [reflexivity|].
  intros Hn. now rewrite IH.
Qed.

Lemma keys_set_new (k : string) (v : Value) (o : Obj) :
  Object.lookup k o = None -> Object.keys (Object.set k v o) = Object.keys o ++ [k].
Proof.
  induction o as [|[k' v'] o IH]; simpl; [reflexivity|].
  destruct (String.eqb k k') eqn:E; [discriminate|]. simpl.
  intros Hn. now rewrite IH.
Qed.

Lemma lookup_None_keys (k : string) (o : Obj) :
  Object.lookup k o = None <-> ~ In k (Object.keys o).
Proof.
  induction o as [|[k' v'] o IH]; simpl; [tauto|].
  destruct (String.eqb k k') eqn:E.
  - apply String.eqb_eq in E. subst. split; [discriminate|]. intros Hn. tauto.
  - apply String.eqb_neq in E. rewrite IH. split; [|tauto].
    intros Hn [Heq|Hin]; [congruence|tauto].
Qed.

Lemma NoDup_keys_set (k : string) (v : Value) (o : Obj) :
  NoDup (Object.keys o) -> NoDup (Object.keys (Object.set k v o)).
Proof.
  intros Hnd. destruct (Object.lookup k o) eqn:E.
  - rewrite keys_set_in; [exact Hnd | congruence].
  - rewrite keys_set_new by exact E.
    apply NoDup_app. split; [exact Hnd|]. split.
    + intros x Hx Hx'. apply list_elem_of_In in Hx, Hx'. simpl in Hx'.
      destruct Hx' as [<-|[]]. now apply lookup_None_keys in E.
    + apply NoDup_singleton.
Qed.

Lemma get_set_eq k v o : Object.get k (Object.set k v o) = v.
Proof. unfold Object.get. now rewrite lookup_set_eq. Qed.

Lemma get_lookup_eq k o o' :
  Object.lookup k o = Object.lookup k o' -> Object.get k o = Object.get k o'.
Proof. unfold Object.get. now intros ->. Qed.

Lemma forEach_invariant {A} (Inv : A -> Prop) (f : A -> string -> Result A)
    (ks : list string) (a b : A) :
  (forall a k a', Inv a -> f a k = Return a' -> Inv a') ->
  Inv a -> forEach f ks a = Return b -> Inv b.
Proof.
  intros Hstep. revert a. induction ks as [|k ks IH]; simpl; intros a Ha.
  - intros E. injection E as <-. exact Ha.
  - destruct (f a k) as [a'|e] eqn:E; simpl; [|discriminate].
    apply IH. eapply Hstep; eauto.
Qed.

Section ToJSON.

Context {RT : Runtime} {DB : Backend}.

Lemma normalizeType_readable (property decl : Value) :
  normalizeType property = Return decl -> readable decl.
Proof.
  unfold normalizeType.
  destruct property; simpl; try discriminate;
    repeat match goal with
           | |- context [if ?b then _ else _] => destruct b
           end;
    intros E; try discriminate; injection E as <-;
    (split; [|split]); (discriminate || reflexivity).
Qed.

Lemma generateSchema_key_generated (that that' : Instance) (k : string) :
  generated that -> generateSchema_key that k = Return that' -> generated that'.
Proof.
  intros (Hnd & Hread & Hpres & Harr). unfold generateSchema_key.
  destruct (startsWith_underscore k) eqn:Hu.
  { intros E. injection E as <-. unfold generated. auto. }
  destruct (normalizeType (Reflect.get that k)) as [decl|e] eqn:Hdecl; simpl; [|discriminate].
  rewrite get_set_eq.
  destruct (prop_readable decl "type" (normalizeType_readable _ _ Hdecl)) as [type Htype].
  rewrite Htype. simpl.
  destruct (getDefault (with_schema (Object.set k decl (_schema that)) that) k)
    as [def|e] eqn:Hdef; simpl; [|discriminate].
  assert (Hgen : forall v,
            (isArray type = true -> has_prop "default" decl = Return false ->
             v = VArr [] None) ->
            generated
              (with_values (Object.set k v (_values that))
                 (with_schema (Object.set k decl (_schema that)) that))).
  { intros v Hv. unfold generated. simpl. split; [|split; [|split]].
    - now apply NoDup_keys_set.
    - intros k0 e0 He0. destruct (String.eqb k k0) eqn:E.
      + apply String.eqb_eq in E. subst k0. rewrite lookup_set_eq in He0.
        injection He0 as <-. eapply normalizeType_readable; eauto.
      + apply String.eqb_neq in E. rewrite lookup_set_ne in He0 by exact E.
        eapply Hread; eauto.
    - intros k0 e0 He0. destruct (String.eqb k k0) eqn:E.
      + apply String.eqb_eq in E. subst k0. left. rewrite lookup_set_eq. discriminate.
      + apply String.eqb_neq in E. rewrite lookup_set_ne in He0 by exact E.
        rewrite lookup_set_ne by exact E. eapply Hpres; eauto.
    - intros k0 e0 type0 He0 Ht0 Ha0 Hd0. destruct (String.eqb k k0) eqn:E.
      + apply String.eqb_eq in E. subst k0. rewrite lookup_set_eq in He0.
        injection He0 as <-. rewrite lookup_set_eq.
        rewrite Htype in Ht0. injection Ht0 as <-. f_equal. auto.
      + apply String.eqb_neq in E. rewrite lookup_set_ne in He0 by exact E.
        rewrite lookup_set_ne by exact E. eapply Harr; eauto. }
  assert (Hnodef : has_prop "default" decl = Return false -> def = VUndefined).
  { intros Hd. unfold getDefault in Hdef. simpl in Hdef.
    rewrite get_set_eq in Hdef.
    unfold Object.has, Object.hasOwnProperty in Hdef.
    rewrite lookup_set_eq in Hdef. simpl in Hdef. rewrite Hd in Hdef. simpl in Hdef.
    destruct (String.eqb k "_id") eqn:E.
    - apply String.eqb_eq in E. subst k. discriminate.
    - now injection Hdef as <-. }
  destruct (isArray type) eqn:Harrt.
  - intros E. injection E as <-. apply Hgen. intros _ Hd.
    now rewrite (Hnodef Hd).
  - intros E. injection E as <-. apply Hgen. discriminate.
Qed.

Lemma new_generated (c : ModelClass) : generated (new c).
Proof.
  unfold new.
  assert (Hinv : forall (fields : list (string * Value)) (t : Instance),
            _schema t = [("_id", VObj [("type", VCtor nativeIdType)])] ->
            _schema (fold_left assign fields t)
            = [("_id", VObj [("type", VCtor nativeIdType)])]).
  { induction fields as [|[k v] fields IH]; intros t Ht; [exact Ht|].
    simpl. apply IH. unfold assign, Reflect.set. simpl.
    destruct (String.eqb k "id"); [exact Ht|].
    destruct (String.eqb k "_schema" || String.eqb k "_values"); exact Ht. }
  specialize (Hinv (class_fields c) (BaseDocument_constructor c) eq_refl).
  unfold generated. rewrite Hinv. simpl. split; [|split; [|split]].
  - apply NoDup_singleton.
  - intros k e. destruct (String.eqb k "_id"); [|discriminate].
    intros He. injection He as <-. split; [|split]; (discriminate || reflexivity).
  - intros k e. destruct (String.eqb k "_id") eqn:E; [|discriminate].
    apply String.eqb_eq in E. subst k. intros _. now right.
  - intros k e type. destruct (String.eqb k "_id"); [|discriminate].
    intros He. injection He as <-. simpl. intros Ht. injection Ht as <-. discriminate.
Qed.

Lemma _instantiate_generated (c : ModelClass) (this : Instance) :
  _instantiate c = Return this -> generated this /\ proto this = class_prototype c.
Proof.
  unfold _instantiate, generateSchema. intros E. split.
  - eapply (forEach_invariant generated); [|apply new_generated|exact E].
    intros. eapply generateSchema_key_generated; eauto.
  - eapply (forEach_invariant (fun t => proto t = class_prototype c)); [| |exact E].
    + intros a k a' Ha. unfold generateSchema_key.
      destruct (startsWith_underscore k); [intros E'; now injection E' as <-|].
      destruct (normalizeType (Reflect.get a k)); simpl; [|discriminate].
      destruct (prop _ "type"); simpl; [|discriminate].
      destruct (getDefault _ k); simpl; [|discriminate].
      destruct (isArray a1); intros E'; injection E' as <-; exact Ha.
    + unfold new.
      assert (Hp : forall fields t, proto (fold_left assign fields t) = proto t).
      { induction fields as [|[k v] fields IH]; intros t; [reflexivity|].
        simpl. rewrite IH. unfold assign, Reflect.set. simpl.
        destruct (String.eqb k "id"); [reflexivity|].
        now destruct (String.eqb k "_schema" || String.eqb k "_values"). }
      now rewrite Hp.
Qed.

Lemma toJSON_key_spec (schema values : Obj) (key : string) (entry : Value) :
  Object.lookup "hasOwnProperty" schema = None ->
  Object.lookup key schema = Some entry ->
  readable entry ->
  exists values',
    toJSON_key schema values key = Return values' /\
    Object.lookup key values' = serialized schema values key /\
    (forall k, k <> key -> Object.lookup k values' = Object.lookup k values).
Proof.
  intros Hown He Hr.
  assert (Hg : Object.get key schema = entry) by (unfold Object.get; now rewrite He).
  unfold toJSON_key, hasOwnProperty_call, Object.hasOwnProperty, serialized.
  rewrite Hown, Hg, He. cbn [bind].
  destruct (prop_readable entry "private" Hr) as [private ->].
  destruct (prop_readable entry "type" Hr) as [type ->]. simpl.
  destruct (truthy private).
  - eexists. split; [reflexivity|]. split.
    + apply lookup_delete_eq.
    + intros k Hk. apply lookup_delete_ne. congruence.
  - destruct (String.eqb (typeof (Object.get key values)) "undefined").
    + destruct (Array_isArray entry || Array_isArray type);
        (eexists; split; [reflexivity|]; split;
         [apply lookup_set_eq | intros k Hk; apply lookup_set_ne; congruence]).
    + eexists. split; [reflexivity|]. split; auto.
Qed.

Lemma serialized_ext (schema values values' : Obj) (key : string) :
  Object.lookup key values' = Object.lookup key values ->
  serialized schema values' key = serialized schema values key.
Proof.
  intros E. unfold serialized. rewrite E, (get_lookup_eq key values' values E).
  reflexivity.
Qed.

(** The loop of [toJSON] over the keys [ks] of the schema. *)
Lemma toJSON_schema_loop (schema : Obj) (ks : list string) (values : Obj) :
  Object.lookup "hasOwnProperty" schema = None ->
  NoDup ks ->
  (forall k, In k ks -> exists e, Object.lookup k schema = Some e /\ readable e) ->
  exists out,
    forEach (toJSON_key schema) ks values = Return out /\
    forall key,
      Object.lookup key out
      = if existsb (String.eqb key) ks then serialized schema values key
        else Object.lookup key values.
Proof.
  intros Hown. revert values. induction ks as [|k ks IH]; intros values Hnd Hks.
  - exists values. split; reflexivity.
  - apply NoDup_cons in Hnd as [Hk Hnd].
    destruct (Hks k (or_introl eq_refl)) as (e & He & Hr).
    destruct (toJSON_key_spec schema values k e Hown He Hr)
      as (values' & E & Hk' & Hother).
    destruct (IH values' Hnd) as (out & Eout & Hout).
    { intros k' Hin. apply Hks. now right. }
    exists out. simpl. rewrite E. simpl. split; [exact Eout|].
    intros key. rewrite Hout.
    destruct (String.eqb key k) eqn:Ekey.
    + apply String.eqb_eq in Ekey. subst key. simpl.
      destruct (existsb (String.eqb k) ks) eqn:Ex.
      * apply existsb_exists in Ex as (x & Hx & Hxk).
        apply String.eqb_eq in Hxk. subst x.
        exfalso. apply Hk. now apply list_elem_of_In.
      * exact Hk'.
    + apply String.eqb_neq in Ekey. simpl.
      destruct (existsb (String.eqb key) ks).
      * apply serialized_ext. apply Hother. exact Ekey.
      * apply Hother. exact Ekey.
Qed.

(** The loop of [toJSON] over the names of the prototype. *)
Lemma toJSON_proto_loop (this : Instance) (ks : list string) (values : Obj) (key : string) :
  (In key ks -> key = "constructor" \/ key = "id") ->
  Object.lookup key (fold_left (toJSON_proto this) ks values) = Object.lookup key values.
Proof.
  revert values. induction ks as [|k ks IH]; intros values Hk; [reflexivity|].
  simpl. rewrite IH by (intros Hin; apply Hk; now right).
  unfold toJSON_proto.
  destruct (String.eqb k "constructor") eqn:Ec; [reflexivity|].
  destruct (String.eqb k "id") eqn:Ei; [reflexivity|]. simpl.
  apply lookup_set_ne. intros ->.
  apply String.eqb_neq in Ec, Ei.
  destruct (Hk (or_introl eq_refl)); congruence.
Qed.

Lemma keys_lookup (k : string) (o : Obj) :
  In k (Object.keys o) <-> exists v, Object.lookup k o = Some v.
Proof.
  destruct (Object.lookup k o) eqn:E.
  - split; [eauto|]. intros _.
    destruct (in_dec string_dec k (Object.keys o)) as [Hin|Hn]; [exact Hin|].
    apply lookup_None_keys in Hn. congruence.
  - split.
    + intros Hin. apply lookup_None_keys in E. tauto.
    + intros [v Hv]. discriminate.
Qed.

(** [toJSON] on an instance whose prototype shares no name with its
    schema, and whose schema has no field named [hasOwnProperty]. *)
Lemma toJSON_spec (this : Instance) :
  Object.lookup "hasOwnProperty" (_schema this) = None ->
  NoDup (Object.keys (_schema this)) ->
  (forall k e, Object.lookup k (_schema this) = Some e -> readable e) ->
  (forall k, In k (Object.keys (proto this)) ->
     k = "constructor" \/ k = "id" \/ Object.lookup k (_schema this) = None) ->
  exists out,
    toJSON this = Return out /\
    forall key e, Object.lookup key (_schema this) = Some e ->
      Object.lookup key out = serialized (_schema this) (_values this) key.
Proof.
  intros Hown Hnd Hread Hproto. unfold toJSON.
  destruct (toJSON_schema_loop (_schema this) (Object.keys (_schema this))
              (_values this) Hown Hnd) as (out & E & Hout).
  { intros k Hin. apply keys_lookup in Hin as [e He]. eauto. }
  rewrite E. simpl. eexists. split; [reflexivity|].
  intros key e He. rewrite toJSON_proto_loop.
  - rewrite Hout.
    assert (Hin : existsb (String.eqb key) (Object.keys (_schema this)) = true).
    { apply existsb_exists. exists key. split; [|apply String.eqb_refl].
      apply keys_lookup. eauto. }
    now rewrite Hin.
  - intros Hin. destruct (Hproto key Hin) as [|[|Hn]]; auto. congruence.
Qed.

(** Where the names keep apart, that is when no property of the model's
    prototype other than [constructor] and [id] is named like a schema field
    and no field is named [hasOwnProperty], [create()] followed by
    [toJSON()] answers an object in which a private field is absent and
    every other schema field is present and not undefined: with the value
    [create] gave it, or, where that is undefined, with null, an array field
    without default holding the empty array. *)
Theorem create_then_toJSON (fill_keys : Instance -> Value -> Result Instance)
    (c : ModelClass) (this : Instance) :
  create fill_keys c VUndefined = Return (VDoc this) ->
  (forall k, In k (Object.keys (class_prototype c)) ->
     k = "constructor" \/ k = "id" \/ Object.lookup k (_schema this) = None) ->
  Object.lookup "hasOwnProperty" (_schema this) = None ->
  exists out,
    toJSON this = Return out /\
    forall key entry, Object.lookup key (_schema this) = Some entry ->
      exists private type,
        prop entry "private" = Return private /\
        prop entry "type" = Return type /\
        if truthy private then Object.lookup key out = None
        else
          exists v,
            Object.lookup key out = Some v /\ v <> VUndefined /\
            (Object.get key (_values this) = VUndefined ->
             isArray type = false -> v = VNull) /\
            (Object.get key (_values this) <> VUndefined ->
             v = Object.get key (_values this)) /\
            (isArray type = true -> has_prop "default" entry = Return false ->
             v = VArr [] None).
Proof.
  intros Hc Hproto Hown. unfold create in Hc. cbn [typeof String.eqb negb] in Hc.
  destruct (_instantiate c) as [this0|e] eqn:Hi; [|discriminate].
  injection Hc as ->.
  destruct (_instantiate_generated c this Hi) as [(Hnd & Hread & Hpres & Harr) Hp].
  destruct (toJSON_spec this Hown Hnd Hread) as (out & E & Hout).
  { now rewrite Hp. }
  exists out. split; [exact E|].
  intros key entry He. rewrite (Hout key entry He). unfold serialized. rewrite He.
  destruct (prop_readable entry "private" (Hread _ _ He)) as [private Hpriv].
  destruct (prop_readable entry "type" (Hread _ _ He)) as [type Htype].
  exists private, type. rewrite Hpriv, Htype.
  split; [reflexivity|]. split; [reflexivity|].
  destruct (truthy private); [reflexivity|].
  destruct (String.eqb (typeof (Object.get key (_values this))) "undefined") eqn:Eu.
  - apply typeof_undefined in Eu.
    eexists. split; [reflexivity|]. split; [|split; [|split]].
    + destruct (Array_isArray entry || Array_isArray type); discriminate.
    + intros _ Hna.
      destruct (Hread _ _ He) as (_ & _ & ->).
      unfold isArray in Hna. unfold Array_isArray. now rewrite Hna.
    + congruence.
    + intros Ha Hd. pose proof (Harr _ _ _ He Htype Ha Hd) as Hv.
      unfold Object.get in Eu. rewrite Hv in Eu. discriminate.
  - assert (Hne : Object.get key (_values this) <> VUndefined).
    { intros Hc'. apply typeof_undefined in Hc'. congruence. }
    destruct (Object.lookup key (_values this)) as [v|] eqn:Ev.
    + assert (Hg : Object.get key (_values this) = v)
        by (unfold Object.get; now rewrite Ev).
      exists v. split; [reflexivity|]. split; [congruence|].
      split; [congruence|]. split; [congruence|].
      intros Ha Hd. pose proof (Harr _ _ _ He Htype Ha Hd) as Hv. congruence.
    + exfalso. destruct (Hpres _ _ He) as [Hsome|Hinh]; [congruence|].
      unfold Object.get in Hne. rewrite Ev, Hinh in Hne. congruence.
Qed.

End ToJSON.

Lemma create_then_toJSON_witness :
  (create (RT := no_user_code) (DB := mongo) (fun this _ => Return this)
     Wallet VUndefined = Return (VDoc wallet) /\
   (forall k, In k (Object.keys (class_prototype Wallet)) ->
      k = "constructor" \/ k = "id" \/ Object.lookup k (_schema wallet) = None) /\
   Object.lookup "hasOwnProperty" (_schema wallet) = None) /\
  exists out,
    toJSON (RT := no_user_code) wallet = Return out /\
    forall key entry, Object.lookup key (_schema wallet) = Some entry ->
      exists private type,
        prop entry "private" = Return private /\
        prop entry "type" = Return type /\
        if truthy private then Object.lookup key out = None
        else
          exists v,
            Object.lookup key out = Some v /\ v <> VUndefined /\
            (Object.get key (_values wallet) = VUndefined ->
             isArray type = false -> v = VNull) /\
            (Object.get key (_values wallet) <> VUndefined ->
             v = Object.get key (_values wallet)) /\
            (isArray type = true -> has_prop "default" entry = Return false ->
             v = VArr [] None).
Proof.
  assert (Hp : forall k, In k (Object.keys (class_prototype Wallet)) ->
      k = "constructor" \/ k = "id" \/ Object.lookup k (_schema wallet) = None).
  { intros k [<-|[<-|[]]]; [now left | right; right; reflexivity]. }
  assert (Hc : create (RT := no_user_code) (DB := mongo) (fun this _ => Return this)
                  Wallet VUndefined = Return (VDoc wallet))
    by (vm_compute; reflexivity).
  split; [split; [exact Hc | split; [exact Hp | reflexivity]]|].
  apply (create_then_toJSON (RT := no_user_code) (DB := mongo)
           (fun this _ => Return this) Wallet wallet);
    [exact Hc | exact Hp | reflexivity].
Defined.

(** What [toJSON] answers for a fresh [Wallet]: the private [pin] is left
    out, the array field is empty, the rest is null, and the method of the
    prototype comes along. *)
Example toJSON_wallet :
  toJSON (RT := no_user_code) wallet
  = Return [("contents", VArr [] None); ("owner", VNull); ("_id", VNull);
            ("total", VFun "total")].
Proof. reflexivity. Qed.

(** C5, where the code departs from it: on the model [Account], whose
    prototype has a method named like the private field [secret],
    [create()] followed by [toJSON()] answers an object that has
    [secret], with the field's value.  The loop over the schema deletes the
    field; the loop over the prototype's names then reads [this.secret]
    through the proxy, which answers the field, and puts it back. *)
Theorem toJSON_private_field_named_like_a_method :
  exists this out entry,
    (forall fill_keys,
       create (RT := no_user_code) (DB := mongo) fill_keys Account VUndefined
       = Return (VDoc this)) /\
    toJSON (RT := no_user_code) this = Return out /\
    Object.lookup "secret" (_schema this) = Some entry /\
    prop entry "private" = Return (VBool true) /\
    Object.lookup "secret" out = Some (VStr "hunter2").
Proof.
  do 3 eexists. split; [intros fill_keys; reflexivity|].
  repeat split; reflexivity.
Qed.

(** A field named [hasOwnProperty] hides the method the loop over the
    schema calls on it: [create()] returns and [toJSON()] throws. *)
Example toJSON_field_named_hasOwnProperty :
  exists this,
    (forall fill_keys,
       create (RT := no_user_code) (DB := mongo) fill_keys Flagged VUndefined
       = Return (VDoc this)) /\
    toJSON (RT := no_user_code) this
    = Throw (TypeError "schema.hasOwnProperty is not a function").
Proof.
  eexists. split; [intros fill_keys; reflexivity|]. reflexivity.
Qed.

(** ** [populate] *)

(** [strict_eq] is symmetric and transitive; it is reflexive on the values it
    compares. *)
Lemma ctor_eqb_sym (a b : Ctor) : ctor_eqb a b = ctor_eqb b a.
Proof.
  destruct a as [| | | | | |[] n], b as [| | | | | |[] n']; simpl; auto;
    apply String.eqb_sym.
Qed.

Lemma ctor_eqb_eq (a b : Ctor) : ctor_eqb a b = true <-> a = b.
Proof.
  destruct a as [| | | | | |[] n], b as [| | | | | |[] n']; simpl;
    try (split; [reflexivity || discriminate | reflexivity || discriminate]);
    rewrite String.eqb_eq; split; congruence.
Qed.

Lemma strict_eq_sym (a b : Value) : strict_eq a b = strict_eq b a.
Proof.
  destruct a, b; simpl; auto.
  - now destruct b, b0.
  - apply Z.eqb_sym.
  - apply String.eqb_sym.
  - apply Nat.eqb_sym.
  - apply ctor_eqb_sym.
Qed.

Lemma strict_eq_trans (a b c : Value) :
  strict_eq a b = true -> strict_eq b c = true -> strict_eq a c = true.
Proof.
  destruct a, b; simpl; try discriminate; destruct c; simpl; try discriminate; auto.
  - intros H1 H2. apply Bool.eqb_prop in H1, H2. subst. apply Bool.eqb_reflx.
  - intros H1 H2. apply Z.eqb_eq in H1, H2. subst. apply Z.eqb_refl.
  - intros H1 H2. apply String.eqb_eq in H1, H2. subst. apply String.eqb_refl.
  - intros H1 H2. apply Nat.eqb_eq in H1, H2. subst. apply Nat.eqb_refl.
  - intros H1 H2. apply ctor_eqb_eq in H1, H2. subst. now apply ctor_eqb_eq.
Qed.

Lemma strict_eq_congr (a b c : Value) :
  strict_eq a b = true -> strict_eq a c = strict_eq b c.
Proof.
  intros Hab. destruct (strict_eq b c) eqn:Hbc.
  - eapply strict_eq_trans; eauto.
  - destruct (strict_eq a c) eqn:Hac; auto.
    rewrite <- Hbc. symmetry. eapply strict_eq_trans; [|exact Hac].
    now rewrite strict_eq_sym.
Qed.

Lemma strict_eq_keyable (a b : Value) : strict_eq a b = true -> keyable a = true.
Proof.
  intros H. unfold keyable. eapply strict_eq_trans; [exact H|].
  now rewrite strict_eq_sym.
Qed.

Import Populate.

Lemma Map_get_congr {V} (k k' : Value) (m : list (Value * V)) :
  strict_eq k k' = true -> Map_get k' m = Map_get k m.
Proof.
  intros Hk. induction m as [|[k0 v0] m IH]; simpl; auto.
  rewrite IH. rewrite (strict_eq_sym k0 k'), (strict_eq_sym k0 k).
  now rewrite (strict_eq_congr k k' k0 Hk).
Qed.

Lemma Map_get_set_eq {V} (k : Value) (v : V) (m : list (Value * V)) :
  keyable k = true -> Map_get k (Map_set k v m) = Some v.
Proof.
  intros Hk. induction m as [|[k0 v0] m IH]; simpl.
  - unfold keyable in Hk. now rewrite Hk.
  - destruct (strict_eq k0 k) eqn:E; simpl; rewrite E; auto.
Qed.

Lemma Map_get_set_ne {V} (k k' : Value) (v : V) (m : list (Value * V)) :
  strict_eq k k' = false -> Map_get k' (Map_set k v m) = Map_get k' m.
Proof.
  intros Hk. induction m as [|[k0 v0] m IH]; simpl.
  - now rewrite Hk.
  - destruct (strict_eq k0 k) eqn:E; simpl.
    + assert (E' : strict_eq k0 k' = false).
      { rewrite <- Hk. rewrite strict_eq_sym in E.
        rewrite (strict_eq_sym k0 k'), (strict_eq_sym k k').
        destruct (strict_eq k' k0) eqn:E0; [|destruct (strict_eq k' k) eqn:E1; auto].
        - symmetry. eapply strict_eq_trans; eauto. now rewrite strict_eq_sym.
        - rewrite <- E0. eapply strict_eq_trans; eauto. }
      now rewrite E'.
    + now rewrite IH.
Qed.

Import Loads.

Lemma matches_congr (ty id ty' id' : Value) (l : Load) :
  strict_eq ty ty' = true -> strict_eq id id' = true ->
  matches ty' id' l = matches ty id l.
Proof.
  intros Ht Hi. unfold matches.
  rewrite (strict_eq_sym _ ty'), (strict_eq_sym _ id'),
    (strict_eq_sym _ ty), (strict_eq_sym _ id).
  rewrite <- (strict_eq_congr ty ty' _ Ht), <- (strict_eq_congr id id' _ Hi).
  reflexivity.
Qed.

Lemma find_congr (ty id ty' id' : Value) (L : list Load) :
  strict_eq ty ty' = true -> strict_eq id id' = true ->
  find ty' id' L = find ty id L.
Proof.
  intros Ht Hi. induction L as [|l L IH]; simpl; auto.
  now rewrite IH, (matches_congr ty id ty' id' l Ht Hi).
Qed.

Lemma find_app (ty id : Value) (L : list Load) (l : Load) :
  find ty id (L ++ [l])
  = match find ty id L with
    | Some p => Some p
    | None => if matches ty id l then Some (length L) else None
    end.
Proof.
  induction L as [|l0 L IH]; simpl.
  - now destruct (matches ty id l).
  - destruct (matches ty id l0); auto. rewrite IH.
    destruct (find ty id L); simpl; auto.
    now destruct (matches ty id l).
Qed.

Lemma find_Some (ty id : Value) (L : list Load) (p : nat) :
  find ty id L = Some p ->
  exists l, L !! p = Some l /\ matches ty id l = true.
Proof.
  revert p. induction L as [|l0 L IH]; simpl; intros p; [discriminate|].
  destruct (matches ty id l0) eqn:E.
  - intros Hp. injection Hp as <-. eauto.
  - destruct (find ty id L) as [q|]; simpl; [|discriminate].
    intros Hp. injection Hp as <-. destruct (IH q eq_refl) as (l & Hl & Hm). eauto.
Qed.

Lemma find_None (ty id : Value) (L : list Load) (p : nat) (l : Load) :
  find ty id L = None -> L !! p = Some l -> matches ty id l = false.
Proof.
  revert p. induction L as [|l0 L IH]; simpl; intros p; [discriminate|].
  destruct (matches ty id l0) eqn:E; [discriminate|].
  destruct (find ty id L); simpl; [discriminate|]. intros _.
  destruct p as [|p]; simpl.
  - intros Hl. now injection Hl as <-.
  - now apply IH.
Qed.

Lemma mkState_eta (st : State) : mkState (store st) (cache st) (loads st) = st.
Proof. now destruct st. Qed.

(** [loadFromCache] is [resolve], and keeps the cache exact. *)
Lemma loadFromCache_resolve (ty id : Value) (st : State) :
  cache_ok st ->
  fst (loadFromCache ty id st) = fst (resolve ty id (loads st)) /\
  loads (snd (loadFromCache ty id st)) = snd (resolve ty id (loads st)) /\
  store (snd (loadFromCache ty id st)) = store st /\
  cache_ok (snd (loadFromCache ty id st)).
Proof.
  intros Hok. unfold loadFromCache, resolve.
  pose proof (Hok ty id) as Hget. unfold cache_get in Hget.
  destruct (Map_get ty (cache st)) as [tc|] eqn:Etc.
  - destruct (Map_get id tc) as [p|] eqn:Ep; rewrite <- Hget; simpl.
    + rewrite mkState_eta. auto.
    + repeat split; auto.
      assert (Hty : keyable ty = true).
      { clear -Etc. induction (cache st) as [|[k0 v0] m IH]; simpl in Etc; [discriminate|].
        destruct (strict_eq k0 ty) eqn:E; auto.
        rewrite strict_eq_sym in E. eapply strict_eq_keyable; eauto. }
      intros ty' id'. simpl. rewrite find_app, <- Hok. unfold cache_get. simpl.
      unfold matches. simpl.
      destruct (strict_eq ty ty') eqn:Et.
      * rewrite (Map_get_congr ty ty' _ Et), Map_get_set_eq by exact Hty.
        rewrite (Map_get_congr ty ty' _ Et), Etc.
        destruct (strict_eq id id') eqn:Ei.
        -- rewrite (Map_get_congr id id' _ Ei), Map_get_set_eq
             by (eapply strict_eq_keyable; eauto).
           rewrite (Map_get_congr id id' _ Ei), Ep. reflexivity.
        -- rewrite Map_get_set_ne by exact Ei.
           now destruct (Map_get id' tc).
      * rewrite Map_get_set_ne by exact Et.
        destruct (Map_get ty' (cache st)) as [tc'|]; [|reflexivity].
        now destruct (Map_get id' tc').
  - rewrite <- Hget. simpl. repeat split; auto.
    intros ty' id'. simpl. rewrite find_app, <- Hok. unfold cache_get. simpl.
    unfold matches. simpl.
    destruct (strict_eq ty ty') eqn:Et.
    + assert (Hty : keyable ty = true) by (eapply strict_eq_keyable; eauto).
      rewrite (Map_get_congr ty ty' _ Et), Map_get_set_eq by exact Hty.
      rewrite (Map_get_congr ty ty' _ Et), Etc. simpl.
      now destruct (strict_eq id id').
    + rewrite !Map_get_set_ne by exact Et.
      destruct (Map_get ty' (cache st)) as [tc'|]; [|reflexivity].
      now destruct (Map_get id' tc').
Qed.

Lemma register_lookup (r : Reaction) (p q : nat) (L : list Load) :
  register r p L !! q
  = (fun l => if Nat.eqb q p
              then mkLoad (load_type l) (load_id l) (reactions l ++ [r])
              else l) <$> L !! q.
Proof.
  unfold register. destruct (Nat.eqb q p) eqn:E.
  - apply Nat.eqb_eq in E. subst q. rewrite list_lookup_alter_eq.
    now destruct (L !! p).
  - apply Nat.eqb_neq in E. rewrite list_lookup_alter_ne by congruence.
    now destruct (L !! q).
Qed.

Lemma find_register (ty id : Value) (r : Reaction) (p : nat) (L : list Load) :
  find ty id (register r p L) = find ty id L.
Proof.
  unfold register, alter. revert p.
  induction L as [|l L IH]; intros p; [reflexivity|].
  destruct p as [|p]; simpl.
  - reflexivity.
  - now rewrite IH.
Qed.

Lemma unique_register (r : Reaction) (p : nat) (L : list Load) :
  unique L -> unique (register r p L).
Proof.
  intros Hu q1 q2 l1 l2. rewrite !register_lookup.
  destruct (L !! q1) as [a|] eqn:E1; [|discriminate].
  destruct (L !! q2) as [b|] eqn:E2; [|discriminate]. simpl.
  intros H1 H2. injection H1 as <-. injection H2 as <-.
  intros Hm. apply (Hu q1 q2 a b E1 E2).
  destruct (Nat.eqb q1 p), (Nat.eqb q2 p); exact Hm.
Qed.

Lemma matches_sym (l l' : Load) :
  matches (load_type l) (load_id l) l' = matches (load_type l') (load_id l') l.
Proof. unfold matches. now rewrite (strict_eq_sym (load_type l')), (strict_eq_sym (load_id l')). Qed.

Lemma matches_keys (ty id : Value) (l l' : Load) :
  matches ty id l = true -> matches ty id l' = true ->
  matches (load_type l) (load_id l) l' = true.
Proof.
  unfold matches. intros [H1 H2]%andb_prop [H3 H4]%andb_prop.
  apply andb_true_intro. split.
  - eapply strict_eq_trans; [exact H3|]. now rewrite strict_eq_sym.
  - eapply strict_eq_trans; [exact H4|]. now rewrite strict_eq_sym.
Qed.

Lemma unique_resolve (ty id : Value) (L : list Load) :
  unique L -> unique (snd (resolve ty id L)).
Proof.
  intros Hu. unfold resolve. destruct (find ty id L) as [p|] eqn:E; [exact Hu|].
  simpl. intros q1 q2 l1 l2 H1 H2 Hm.
  destruct (lookup_app_Some L [mkLoad ty id []] q1 l1) as [Ha _].
  destruct (lookup_app_Some L [mkLoad ty id []] q2 l2) as [Hb _].
  destruct (Ha H1) as [H1'|[Hq1 H1']], (Hb H2) as [H2'|[Hq2 H2']].
  - eapply Hu; eauto.
  - exfalso. apply list_lookup_singleton_Some in H2' as [_ <-].
    rewrite matches_sym in Hm. simpl in Hm.
    now rewrite (find_None ty id L q1 l1 E H1') in Hm.
  - exfalso. apply list_lookup_singleton_Some in H1' as [_ <-]. simpl in Hm.
    now rewrite (find_None ty id L q2 l2 E H2') in Hm.
  - apply list_lookup_singleton_Some in H1' as [H1' _].
    apply list_lookup_singleton_Some in H2' as [H2' _]. lia.
Qed.

Lemma find_resolve_mono (ty id ty' id' : Value) (L : list Load) :
  find ty' id' L <> None -> find ty' id' (snd (resolve ty id L)) <> None.
Proof.
  unfold resolve. destruct (find ty id L); simpl; auto.
  rewrite find_app. now destruct (find ty' id' L).
Qed.

Lemma find_resolve (ty id : Value) (L : list Load) :
  keyable ty = true -> keyable id = true ->
  find ty id (snd (resolve ty id L)) = Some (fst (resolve ty id L)).
Proof.
  intros Ht Hi. unfold resolve. destruct (find ty id L) as [p|] eqn:E; simpl; auto.
  rewrite find_app, E. unfold matches. simpl.
  unfold keyable in *. now rewrite Ht, Hi.
Qed.

Lemma served_app (ty : Value) (ids ids' : list Value) (l : Load) :
  served ty (ids ++ ids') l = (served ty ids l + served ty ids' l)%nat.
Proof.
  unfold served. destruct (strict_eq (load_type l) ty); auto.
  now rewrite List.filter_app, length_app.
Qed.

Lemma served_one (ty id : Value) (l : Load) :
  served ty [id] l = if matches ty id l then 1%nat else 0%nat.
Proof.
  unfold served, matches. destruct (strict_eq (load_type l) ty); simpl; auto.
  now destruct (strict_eq (load_id l) id).
Qed.

Lemma served_none (ty : Value) (ids : list Value) (l : Load) :
  (forall id, In id ids -> matches ty id l = false) -> served ty ids l = 0%nat.
Proof.
  unfold served, matches. destruct (strict_eq (load_type l) ty); auto.
  induction ids as [|x ids IH]; simpl; auto. intros H.
  pose proof (H x (or_introl eq_refl)) as Hx. simpl in Hx. rewrite Hx.
  apply IH. intros id Hin. apply H. now right.
Qed.

Lemma writers_register (d : nat) (k : string) (r : Reaction) (l : Load) :
  writers d k (mkLoad (load_type l) (load_id l) (reactions l ++ [r]))
  = writers d k l ++ (if targets d k r then [r] else []).
Proof.
  unfold writers. simpl. rewrite List.filter_app. simpl.
  now destruct (targets d k r).
Qed.

Lemma repeat_snoc {A} (x : A) (n : nat) : repeat x n ++ [x] = repeat x (S n).
Proof. induction n; simpl; auto. now rewrite IHn. Qed.

Lemma served_reactions (ty : Value) (ids : list Value) (l : Load) (rs : list Reaction) :
  served ty ids (mkLoad (load_type l) (load_id l) rs) = served ty ids l.
Proof. reflexivity. Qed.

Lemma matches_reactions (ty id : Value) (l : Load) (rs : list Reaction) :
  matches ty id (mkLoad (load_type l) (load_id l) rs) = matches ty id l.
Proof. reflexivity. Qed.

(** One entry of the id list: its load is looked up or made, and the push
    is attached to it. *)
Lemma each_step (ty : Value) (d : nat) (k : string) (ids : list Value) (id : Value)
    (L : list Load) :
  keyable ty = true -> keyable id = true ->
  unique L -> pushes_registered ty d k ids L ->
  pushes_registered ty d k (ids ++ [id])
    (register (Push d k) (fst (resolve ty id L)) (snd (resolve ty id L))).
Proof.
  intros Hty Hid Hu [Hw Hf].
  assert (Htarget : targets d k (Push d k) = true).
  { simpl. now rewrite Nat.eqb_refl, String.eqb_refl. }
  split.
  - intros q l2. rewrite register_lookup.
    destruct (snd (resolve ty id L) !! q) as [l|] eqn:Eq; [|discriminate].
    cbn [fmap option_fmap option_map]. intros E. injection E as <-.
    rewrite served_app, served_one.
    unfold resolve in *.
    destruct (find ty id L) as [p|] eqn:Efind; cbn [fst snd] in *.
    + destruct (find_Some ty id L p Efind) as (lp & Hlp & Hmp).
      destruct (Nat.eqb q p) eqn:Eqp.
      * apply Nat.eqb_eq in Eqp. subst q.
        assert (l = lp) by congruence. subst lp.
        rewrite writers_register, Htarget, (Hw p l Eq).
        rewrite served_reactions, matches_reactions, Hmp.
        rewrite repeat_snoc. f_equal. lia.
      * rewrite (Hw q l Eq).
        destruct (matches ty id l) eqn:Em.
        -- exfalso. apply Nat.eqb_neq in Eqp. apply Eqp.
           symmetry. eapply (Hu p q lp l); eauto. eapply matches_keys; eauto.
        -- f_equal. lia.
    + destruct (lookup_app_Some L [mkLoad ty id []] q l) as [Ha _].
      destruct (Ha Eq) as [Hl|[Hq Hl]].
      * assert (Hlt : (q < length L)%nat) by (eapply lookup_lt_Some; eauto).
        assert (Nat.eqb q (length L) = false) as -> by (apply Nat.eqb_neq; lia).
        rewrite (Hw q l Hl), (find_None ty id L q l Efind Hl). f_equal. lia.
      * apply list_lookup_singleton_Some in Hl as [Hq' <-].
        assert (q = length L) by lia. subst q. rewrite Nat.eqb_refl.
        assert (Hm : matches ty id (mkLoad ty id []) = true).
        { unfold matches. simpl. unfold keyable in Hty, Hid. now rewrite Hty, Hid. }
        rewrite writers_register, Htarget.
        rewrite served_reactions, matches_reactions, Hm, served_none.
        -- reflexivity.
        -- intros y Hy. unfold matches. simpl.
           destruct (strict_eq id y) eqn:Ey; [|apply andb_false_r].
           exfalso. apply (Hf y Hy).
           rewrite (find_congr ty id ty y L); auto.
  - intros y Hy. rewrite find_register. apply in_app_or in Hy as [Hy|[<-|[]]].
    + apply find_resolve_mono. now apply Hf.
    + now rewrite find_resolve.
Qed.

Lemma each_unique (ty : Value) (d : nat) (k : string) (ids : list Value) (L : list Load) :
  unique L -> unique (each ty d k ids L).
Proof.
  revert L. induction ids as [|id ids IH]; intros L Hu; [exact Hu|].
  simpl. destruct (resolve ty id L) as [p L'] eqn:E.
  apply IH, unique_register.
  change L' with (snd (p, L')). rewrite <- E. now apply unique_resolve.
Qed.

(** The whole id list: every entry has its push on the load for its id. *)
Lemma each_registers (ty : Value) (d : nat) (k : string) (done ids : list Value)
    (L : list Load) :
  keyable ty = true -> Forall (fun id => keyable id = true) ids ->
  unique L -> pushes_registered ty d k done L ->
  pushes_registered ty d k (done ++ ids) (each ty d k ids L).
Proof.
  intros Hty Hids. revert done L.
  induction Hids as [|id ids Hid Hids IH]; intros done L Hu Hp.
  - now rewrite app_nil_r.
  - simpl. destruct (resolve ty id L) as [p L'] eqn:E.
    replace (done ++ id :: ids) with ((done ++ [id]) ++ ids)
      by now rewrite <- app_assoc.
    apply IH.
    + apply unique_register.
      change L' with (snd (p, L')). rewrite <- E. now apply unique_resolve.
    + change p with (fst (p, L')). change L' with (snd (p, L')) at 2.
      rewrite <- E. now apply each_step.
Qed.

(** A callback on another field, or on another document, changes nothing
    of this. *)
Lemma other_step (ty : Value) (d : nat) (k : string) (ids : list Value)
    (ty' id' : Value) (r : Reaction) (L : list Load) :
  targets d k r = false ->
  pushes_registered ty d k ids L ->
  pushes_registered ty d k ids
    (register r (fst (resolve ty' id' L)) (snd (resolve ty' id' L))).
Proof.
  intros Hr [Hw Hf]. split.
  - intros q l2. rewrite register_lookup.
    destruct (snd (resolve ty' id' L) !! q) as [l|] eqn:Eq; [|discriminate].
    cbn [fmap option_fmap option_map]. intros E. injection E as <-.
    assert (Hl : writers d k l = repeat (Push d k) (served ty ids l)).
    { unfold resolve in Eq.
      destruct (find ty' id' L) as [p|] eqn:Efind; cbn [fst snd] in Eq; [eauto|].
      destruct (lookup_app_Some L [mkLoad ty' id' []] q l) as [Ha _].
      destruct (Ha Eq) as [Hl|[Hq Hl]]; [eauto|].
      apply list_lookup_singleton_Some in Hl as [_ <-].
      rewrite served_none; [reflexivity|].
      intros y Hy. unfold matches. simpl.
      destruct (strict_eq ty' ty) eqn:Et; [|reflexivity].
      destruct (strict_eq id' y) eqn:Ey; [|reflexivity].
      exfalso. apply (Hf y Hy).
      rewrite (find_congr ty' id' ty y L); auto. }
    destruct (Nat.eqb q _); [|exact Hl].
    now rewrite writers_register, Hr, app_nil_r, served_reactions.
  - intros y Hy. rewrite find_register. apply find_resolve_mono. now apply Hf.
Qed.

Lemma other_each (ty : Value) (d : nat) (k : string) (ids : list Value)
    (ty' : Value) (d' : nat) (k' : string) (ids' : list Value) (L : list Load) :
  targets d k (Push d' k') = false ->
  pushes_registered ty d k ids L ->
  pushes_registered ty d k ids (each ty' d' k' ids' L).
Proof.
  intros Hr. revert L. induction ids' as [|id' ids' IH]; intros L Hp; [exact Hp|].
  simpl. destruct (resolve ty' id' L) as [p L'] eqn:E. apply IH.
  change p with (fst (p, L')). change L' with (snd (p, L')) at 2.
  rewrite <- E. now apply other_step.
Qed.

Lemma then_loads (p : nat) (r : Reaction) (st : State) :
  loads (then_ p r st) = register r p (loads st) /\
  store (then_ p r st) = store st /\
  (cache_ok st -> cache_ok (then_ p r st)).
Proof.
  repeat split. intros Hok ty id. simpl.
  change (alter _ p (loads st)) with (register r p (loads st)).
  rewrite find_register. apply Hok.
Qed.

Lemma load_each_each (ty : Value) (d : nat) (k : string) (ids : list Value)
    (st : State) :
  cache_ok st ->
  cache_ok (load_each ty d k ids st) /\
  store (load_each ty d k ids st) = store st /\
  loads (load_each ty d k ids st) = each ty d k ids (loads st).
Proof.
  revert st. induction ids as [|id ids IH]; intros st Hok; [auto|].
  simpl.
  destruct (loadFromCache_resolve ty id st Hok) as (Hp & HL & Hs & Hok').
  destruct (loadFromCache ty id st) as [p st1]. cbn [fst snd] in *.
  destruct (resolve ty id (loads st)) as [p' L']. cbn [fst snd] in *. subst p' L'.
  destruct (then_loads p (Push d k) st1) as (HL2 & Hs2 & Hok2).
  destruct (IH (then_ p (Push d k) st1) (Hok2 Hok')) as (Hok3 & Hs3 & HL3).
  split; [exact Hok3|]. split; [congruence|]. now rewrite HL3, HL2.
Qed.

Lemma set_schema (t : Instance) (key : string) (v : Value) :
  _schema (schemaProxyHandler.set t key v) = _schema t.
Proof.
  unfold schemaProxyHandler.set, Reflect.set.
  destruct (Object.has key (_schema t)); [reflexivity|].
  destruct (String.eqb key "id"); [reflexivity|].
  now destruct (String.eqb key "_schema" || String.eqb key "_values").
Qed.

Lemma set_other_field (t : Instance) (key k : string) (v : Value) :
  key <> k -> k <> "_id" ->
  Object.lookup k (_values (schemaProxyHandler.set t key v))
  = Object.lookup k (_values t).
Proof.
  intros Hk Hid. unfold schemaProxyHandler.set, Reflect.set.
  destruct (Object.has key (_schema t)); [now apply lookup_set_ne|].
  destruct (String.eqb key "id"); [apply lookup_set_ne; congruence|].
  now destruct (String.eqb key "_schema" || String.eqb key "_values").
Qed.

Lemma get_own_field (t : Instance) (k : string) (v : Value) :
  Object.lookup k (_values t) = Some v -> schemaProxyHandler.get t k = v.
Proof.
  intros Hv. unfold schemaProxyHandler.get, Object.has, Object.hasOwnProperty, Object.get.
  now rewrite Hv.
Qed.

Lemma schemas_alter (f : Instance -> Instance) (d : nat) (st : State) :
  (forall t, _schema (f t) = _schema t) ->
  schemas (with_store (alter f d (store st)) st) = schemas st.
Proof.
  intros Hf. unfold schemas. simpl. generalize (store st). clear st.
  intros s. revert d. induction s as [|t s IH]; intros [|d]; simpl; auto.
  - now rewrite Hf.
  - f_equal. apply IH.
Qed.

Lemma field_of_alter (f : Instance -> Instance) (d' d : nat) (k : string) (st : State) :
  (d' = d -> forall t, Object.lookup k (_values (f t)) = Object.lookup k (_values t)) ->
  field_of (with_store (alter f d' (store st)) st) d k = field_of st d k.
Proof.
  intros Hf. unfold field_of. simpl.
  destruct (Nat.eq_dec d' d) as [->|Hne].
  - rewrite list_lookup_alter_eq. destruct (store st !! d); simpl; auto.
  - now rewrite list_lookup_alter_ne.
Qed.

Lemma targets_false (d d' : nat) (k k' : string) :
  targets d k (Push d' k') = false -> d' = d -> k' <> k.
Proof.
  simpl. intros Ht -> ->. now rewrite Nat.eqb_refl, String.eqb_refl in Ht.
Qed.

Lemma issued_with_store (ty : Value) (d : nat) (k : string) (X : list Value)
    (s : list Instance) (st : State) :
  issued ty d k X st -> issued ty d k X (with_store s st).
Proof. intros H. exact H. Qed.

Section Issue.

Context {DB : Backend}.
Variables (ty : Value) (d : nat) (k : string).
Hypothesis k_not_id : k <> "_id".

(** A visit to another field or another document. *)
Lemma visit_other (X : list Value) (kd : KeyDef) (d' : nat) (st : State) :
  targets d k (Push d' (key kd)) = false ->
  issued ty d k X st ->
  issued ty d k X (fst (visit kd st d')) /\
  schemas (fst (visit kd st d')) = schemas st /\
  field_of (fst (visit kd st d')) d k = field_of st d k.
Proof.
  intros Ht (Hok & Hu & Hp). unfold visit.
  assert (Hsame : issued ty d k X st /\ schemas st = schemas st /\
                  field_of st d k = field_of st d k)
    by (split; [exact (conj Hok (conj Hu Hp)) | split; reflexivity]).
  destruct (doc_get st d' (key kd)) as [value|e]; [|exact Hsame].
  destruct (isArray kd && truthy value).
  - destruct value; try exact Hsame.
    destruct (load_each_each (type kd) d' (key kd) elems st Hok) as (Hok' & Hs & HL).
    cbn [fst]. split; [|split].
    + unfold doc_set. apply issued_with_store.
      split; [exact Hok'|]. rewrite HL. split.
      * now apply each_unique.
      * now apply other_each.
    + unfold doc_set. rewrite schemas_alter by (intros; apply set_schema).
      unfold schemas. now rewrite Hs.
    + unfold doc_set. rewrite field_of_alter.
      * unfold field_of. now rewrite Hs.
      * intros Hd t. apply set_other_field; auto. now apply (targets_false d d').
  - destruct (loadFromCache_resolve (type kd) value st Hok) as (Hq & HL & Hs & Hok').
    destruct (loadFromCache (type kd) value st) as [p st1]. cbn [fst snd] in *.
    destruct (then_loads p (Assign d' (key kd)) st1) as (HL2 & Hs2 & Hok2).
    split; [|split].
    + split; [auto|]. rewrite HL2, HL, Hq. split.
      * now apply unique_register, unique_resolve.
      * apply other_step; auto.
    + unfold schemas. now rewrite Hs2, Hs.
    + unfold field_of. now rewrite Hs2, Hs.
Qed.

(** The visit to the field [k] of [d]: the id list is replaced by an empty
    array that keeps it as [idList], and every id has its push. *)
Lemma visit_target (ids : list Value) (il : option Value) (t : Instance) (st : State) :
  keyable ty = true -> Forall (fun id => keyable id = true) ids ->
  issued ty d k [] st ->
  store st !! d = Some t ->
  Object.lookup k (_values t) = Some (VArr ids il) ->
  Object.has k (_schema t) = true ->
  snd (visit (mkKeyDef k ty true) st d) = Return tt /\
  issued ty d k ids (fst (visit (mkKeyDef k ty true) st d)) /\
  schemas (fst (visit (mkKeyDef k ty true) st d)) = schemas st /\
  field_of (fst (visit (mkKeyDef k ty true) st d)) d k
  = Some (VArr [] (Some (VArr ids il))).
Proof.
  intros Hty Hids (Hok & Hu & Hp) Ht Hv Hs. unfold visit, doc_get. simpl.
  rewrite Ht, (get_own_field t k _ Hv). simpl.
  destruct (load_each_each ty d k ids st Hok) as (Hok' & Hst & HL).
  split; [reflexivity|]. split; [|split].
  - unfold doc_set. apply issued_with_store.
    split; [exact Hok'|]. rewrite HL. split.
    + now apply each_unique.
    + now apply (each_registers ty d k [] ids).
  - unfold doc_set. rewrite schemas_alter by (intros; apply set_schema).
    unfold schemas. now rewrite Hst.
  - unfold doc_set, field_of. simpl. rewrite Hst, list_lookup_alter_eq, Ht. simpl.
    unfold schemaProxyHandler.set. rewrite Hs. simpl. apply lookup_set_eq.
Qed.

Lemma visit_documents_app (kd : KeyDef) (ds1 ds2 : list nat) (st : State) :
  visit_documents kd (ds1 ++ ds2) st
  = match visit_documents kd ds1 st with
    | (st1, Return _) => visit_documents kd ds2 st1
    | (st1, Throw e) => (st1, Throw e)
    end.
Proof.
  revert st. induction ds1 as [|d1 ds1 IH]; intros st; simpl; [reflexivity|].
  destruct (visit kd st d1) as [st1 [[]|e]]; [apply IH | reflexivity].
Qed.

Lemma visit_keyDefs_app (kds1 kds2 : list KeyDef) (ds : list nat) (st : State) :
  visit_keyDefs (kds1 ++ kds2) ds st
  = match visit_keyDefs kds1 ds st with
    | (st1, Return _) => visit_keyDefs kds2 ds st1
    | (st1, Throw e) => (st1, Throw e)
    end.
Proof.
  revert st. induction kds1 as [|kd kds1 IH]; intros st; simpl; [reflexivity|].
  destruct (visit_documents kd ds st) as [st1 [[]|e]]; [apply IH | reflexivity].
Qed.

Lemma visit_documents_other (X : list Value) (kd : KeyDef) (ds : list nat) (st : State) :
  (forall d', In d' ds -> targets d k (Push d' (key kd)) = false) ->
  issued ty d k X st ->
  issued ty d k X (fst (visit_documents kd ds st)) /\
  schemas (fst (visit_documents kd ds st)) = schemas st /\
  field_of (fst (visit_documents kd ds st)) d k = field_of st d k.
Proof.
  revert st. induction ds as [|d' ds IH]; intros st Hds Hi;
    [split; [exact Hi | split; reflexivity]|].
  simpl.
  destruct (visit_other X kd d' st (Hds d' (or_introl eq_refl)) Hi) as (Hi1 & Hs1 & Hf1).
  destruct (visit kd st d') as [st1 [[]|e]]; cbn [fst] in *;
    [|exact (conj Hi1 (conj Hs1 Hf1))].
  destruct (IH st1) as (Hi2 & Hs2 & Hf2); [intros; apply Hds; now right | exact Hi1 |].
  split; [exact Hi2|]. split; congruence.
Qed.

Lemma visit_keyDefs_other (X : list Value) (kds : list KeyDef) (ds : list nat) (st : State) :
  (forall kd, In kd kds -> key kd <> k) ->
  issued ty d k X st ->
  issued ty d k X (fst (visit_keyDefs kds ds st)) /\
  schemas (fst (visit_keyDefs kds ds st)) = schemas st /\
  field_of (fst (visit_keyDefs kds ds st)) d k = field_of st d k.
Proof.
  revert st. induction kds as [|kd kds IH]; intros st Hkds Hi;
    [split; [exact Hi | split; reflexivity]|].
  simpl.
  destruct (visit_documents_other X kd ds st) as (Hi1 & Hs1 & Hf1); [|exact Hi|].
  { intros d' _. simpl. apply andb_false_intro2. apply String.eqb_neq.
    apply Hkds. now left. }
  destruct (visit_documents kd ds st) as [st1 [[]|e]]; cbn [fst] in *;
    [|exact (conj Hi1 (conj Hs1 Hf1))].
  destruct (IH st1) as (Hi2 & Hs2 & Hf2); [intros; apply Hkds; now right | exact Hi1 |].
  split; [exact Hi2|]. split; congruence.
Qed.

Lemma field_of_Some (st : State) (v : Value) :
  field_of st d k = Some v ->
  exists t, store st !! d = Some t /\ Object.lookup k (_values t) = Some v.
Proof.
  unfold field_of. destruct (store st !! d) as [t|]; [eauto | discriminate].
Qed.

Lemma schemas_lookup (st : State) (t : Instance) :
  store st !! d = Some t -> schemas st !! d = Some (_schema t).
Proof. intros Ht. unfold schemas. now rewrite list_lookup_fmap, Ht. Qed.

(** The pass over the documents for the key [k]. *)
Lemma visit_documents_target (ids : list Value) (il : option Value) (s : Obj)
    (ds1 ds2 : list nat) (st : State) :
  keyable ty = true -> Forall (fun id => keyable id = true) ids ->
  ~ In d ds1 -> ~ In d ds2 ->
  issued ty d k [] st ->
  field_of st d k = Some (VArr ids il) ->
  schemas st !! d = Some s -> Object.has k s = true ->
  snd (visit_documents (mkKeyDef k ty true) (ds1 ++ d :: ds2) st) = Return tt ->
  issued ty d k ids (fst (visit_documents (mkKeyDef k ty true) (ds1 ++ d :: ds2) st)) /\
  schemas (fst (visit_documents (mkKeyDef k ty true) (ds1 ++ d :: ds2) st)) = schemas st /\
  field_of (fst (visit_documents (mkKeyDef k ty true) (ds1 ++ d :: ds2) st)) d k
  = Some (VArr [] (Some (VArr ids il))).
Proof.
  intros Hty Hids Hn1 Hn2 Hi Hf Hs Hhas. rewrite visit_documents_app.
  assert (Hother : forall ds, ~ In d ds ->
            forall d', In d' ds -> targets d k (Push d' k) = false).
  { intros ds Hn d' Hin. simpl. apply andb_false_intro1. apply Nat.eqb_neq.
    intros ->. contradiction. }
  destruct (visit_documents_other [] (mkKeyDef k ty true) ds1 st (Hother ds1 Hn1) Hi)
    as (Hi1 & Hs1 & Hf1).
  destruct (visit_documents (mkKeyDef k ty true) ds1 st) as [st1 [[]|e]];
    cbn [fst snd] in *; [|discriminate].
  rewrite Hf in Hf1. destruct (field_of_Some st1 _ Hf1) as (t1 & Ht1 & Hv1).
  assert (Hhas1 : Object.has k (_schema t1) = true).
  { pose proof (schemas_lookup st1 t1 Ht1) as E. rewrite Hs1, Hs in E.
    injection E as <-. exact Hhas. }
  destruct (visit_target ids il t1 st1 Hty Hids Hi1 Ht1 Hv1 Hhas1)
    as (Hr2 & Hi2 & Hs2 & Hf2).
  cbn [visit_documents].
  destruct (visit (mkKeyDef k ty true) st1 d) as [st2 r2]. cbn [fst snd] in *.
  subst r2.
  destruct (visit_documents_other ids (mkKeyDef k ty true) ds2 st2 (Hother ds2 Hn2) Hi2)
    as (Hi3 & Hs3 & Hf3).
  intros _. split; [exact Hi3|]. split; congruence.
Qed.

Lemma keyDefs_of_app (first : Instance) (ks1 ks2 : list string) (kds : list KeyDef) :
  keyDefs_of first (ks1 ++ ks2) = Return kds ->
  exists kds1 kds2,
    keyDefs_of first ks1 = Return kds1 /\ keyDefs_of first ks2 = Return kds2 /\
    kds = kds1 ++ kds2.
Proof.
  revert kds. induction ks1 as [|k1 ks1 IH]; intros kds; simpl.
  - intros E. exists [], kds. auto.
  - destruct (keyDef first k1) as [kd|e]; simpl; [|discriminate].
    destruct (keyDefs_of first (ks1 ++ ks2)) as [kds'|e]; simpl; [|discriminate].
    destruct (IH kds' eq_refl) as (kds1 & kds2 & -> & E2 & ->).
    intros E. injection E as <-. simpl.
    exists (match kd with Some x => x :: kds1 | None => kds1 end), kds2.
    split; [reflexivity|]. split; [exact E2|]. now destruct kd.
Qed.

Lemma keyDefs_of_keys (first : Instance) (ks : list string) (kds : list KeyDef) :
  keyDefs_of first ks = Return kds -> forall kd, In kd kds -> In (key kd) ks.
Proof.
  revert kds. induction ks as [|k1 ks IH]; intros kds; simpl.
  - intros E. injection E as <-. intros kd [].
  - destruct (keyDef first k1) as [kd1|e] eqn:E1; simpl; [|discriminate].
    destruct (keyDefs_of first ks) as [kds'|e]; simpl; [|discriminate].
    intros E. injection E as <-. intros kd Hin.
    assert (Hk1 : forall x, kd1 = Some x -> key x = k1).
    { intros x ->. unfold keyDef in E1.
      destruct (prop _ "type") as [type|]; simpl in E1; [|discriminate].
      destruct (_ || _); [|discriminate].
      destruct type; injection E1 as <-; reflexivity. }
    destruct kd1 as [x|].
    + destruct Hin as [<-|Hin]; [left; symmetry; now apply Hk1 | right; eauto].
    + right; eauto.
Qed.

(** The key definition of an array-of-reference field. *)
Lemma keyDef_array (first : Instance) (name : string) (rest : list Value)
    (tl : option Value) :
  prop (Object.get k (_schema first)) "type"
  = Return (VArr (VCtor (CModel Document name) :: rest) tl) ->
  keyDef first k = Return (Some (mkKeyDef k (VCtor (CModel Document name)) true)).
Proof. intros Ht. unfold keyDef. rewrite Ht. reflexivity. Qed.

(** The synchronous part of [populate], seen from the field [k] of [d]. *)
Lemma issue_target (documents : list nat) (docs : list Instance) (d0 : nat)
    (first t : Instance) (name : string) (rest : list Value) (tl il : option Value)
    (ids : list Value) :
  ty = VCtor (CModel Document name) ->
  hd_error documents = Some d0 -> docs !! d0 = Some first ->
  NoDup documents -> In d documents ->
  NoDup (Object.keys (_schema first)) ->
  In k (Object.keys (_schema first)) ->
  prop (Object.get k (_schema first)) "type" = Return (VArr (ty :: rest) tl) ->
  docs !! d = Some t ->
  Object.lookup k (_values t) = Some (VArr ids il) ->
  Object.has k (_schema t) = true ->
  Forall (fun id => keyable id = true) ids ->
  snd (issue documents (mkState docs [] [])) = Return tt ->
  issued ty d k ids (fst (issue documents (mkState docs [] []))) /\
  field_of (fst (issue documents (mkState docs [] []))) d k
  = Some (VArr [] (Some (VArr ids il))).
Proof.
  intros Hty Hd0 Hfirst Hnd Hd Hks Hk Htype Ht Hv Hhas Hids.
  assert (Hkey : keyable ty = true)
    by (rewrite Hty; unfold keyable; simpl; apply String.eqb_refl).
  unfold issue. destruct documents as [|d0' rest']; [destruct Hd|].
  injection Hd0 as ->. cbn [store]. rewrite Hfirst.
  unfold keyDefs. destruct (keyDefs_of first (Object.keys (_schema first))) as [kds|e] eqn:Ekds;
    [|discriminate].
  apply in_split in Hk as (ks1 & ks2 & Eks). rewrite Eks in Ekds, Hks.
  destruct (keyDefs_of_app first ks1 (k :: ks2) kds Ekds) as (kds1 & kds2' & E1 & E2 & ->).
  simpl in E2. rewrite Hty in Htype.
  rewrite (keyDef_array first name rest tl Htype) in E2. rewrite <- Hty in E2.
  simpl in E2.
  destruct (keyDefs_of first ks2) as [kds2|e] eqn:E3; simpl in E2; [|discriminate].
  injection E2 as <-.
  apply NoDup_app in Hks as (Hks1 & Hks12 & Hks2).
  apply NoDup_cons in Hks2 as [Hk2 _].
  assert (Hkds1 : forall kd, In kd kds1 -> key kd <> k).
  { intros kd Hin E. apply (Hks12 k).
    - apply list_elem_of_In. rewrite <- E. eapply keyDefs_of_keys; eauto.
    - apply list_elem_of_In. now left. }
  assert (Hkds2 : forall kd, In kd kds2 -> key kd <> k).
  { intros kd Hin E. apply Hk2. apply list_elem_of_In. rewrite <- E.
    eapply keyDefs_of_keys; eauto. }
  set (st0 := mkState docs [] []).
  assert (Hi0 : issued ty d k [] st0).
  { split; [|split; [|split]].
    - intros ty' id'. reflexivity.
    - intros p q lp lq Hp. discriminate.
    - intros p l Hp. discriminate.
    - intros id []. }
  rewrite visit_keyDefs_app.
  destruct (visit_keyDefs_other [] kds1 (d0 :: rest') st0 Hkds1 Hi0) as (Hi1 & Hs1 & Hf1).
  destruct (visit_keyDefs kds1 (d0 :: rest') st0) as [st1 [[]|e]];
    cbn [fst snd] in *; [|discriminate].
  cbn [visit_keyDefs].
  apply in_split in Hd as (ds1 & ds2 & Eds).
  assert (Hn : ~ In d ds1 /\ ~ In d ds2).
  { rewrite Eds in Hnd. apply NoDup_app in Hnd as (_ & H12 & H2).
    apply NoDup_cons in H2 as [H2 _]. split.
    - intros Hin. apply (H12 d); apply list_elem_of_In; [exact Hin | now left].
    - intros Hin. apply H2. now apply list_elem_of_In. }
  destruct Hn as [Hn1 Hn2]. rewrite Eds.
  assert (Hf0 : field_of st0 d k = Some (VArr ids il)).
  { unfold field_of. simpl. now rewrite Ht. }
  assert (Hs0 : schemas st0 !! d = Some (_schema t)).
  { apply schemas_lookup. exact Ht. }
  rewrite <- Hf1 in Hf0. rewrite <- Hs1 in Hs0.
  pose proof (visit_documents_target ids il (_schema t) ds1 ds2 st1 Hkey Hids
                Hn1 Hn2 Hi1 Hf0 Hs0 Hhas) as Htarget.
  destruct (visit_documents (mkKeyDef k ty true)
              (ds1 ++ d :: ds2) st1) as [st2 [[]|e]]; cbn [fst snd] in *;
    [|discriminate].
  destruct (Htarget eq_refl) as (Hi2 & Hs2 & Hf2).
  destruct (visit_keyDefs_other ids kds2 (ds1 ++ d :: ds2) st2 Hkds2 Hi2)
    as (Hi3 & Hs3 & Hf3).
  intros _. split; [exact Hi3 | congruence].
Qed.

End Issue.

Section Settle.

Context {DB : Backend}.
Variable loadById : Value -> Value -> Result Value.
Variables (d : nat) (k : string).
Hypothesis k_not_id : k <> "_id".

Lemma write_back_other (t : Instance) (k' : string) (v : Value) :
  k' <> k ->
  Object.lookup k (_values (write_back t k' v)) = Object.lookup k (_values t).
Proof.
  intros Hk. unfold write_back.
  destruct (Object.has k' (_values t)); [now apply lookup_set_ne|].
  destruct (String.eqb k' "id"); [apply lookup_set_ne; congruence|].
  destruct (Object.hasOwnProperty k' (own t)); [reflexivity|].
  now destruct (Object.hasOwnProperty k' (proto t)).
Qed.

Lemma react_other (data : Value) (r : Reaction) (st : State) :
  targets d k r = false ->
  field_of (fst (react data r st)) d k = field_of st d k /\
  loads (fst (react data r st)) = loads st.
Proof.
  intros Hr. destruct r as [d' k'|d' k']; simpl.
  - unfold doc_push. destruct (doc_get st d' k') as [v|e]; [|now split].
    destruct v; try (now split).
    cbn [fst]. split; [|reflexivity]. apply field_of_alter.
    intros Hd t. apply write_back_other. now apply (targets_false d d').
  - split; [|reflexivity]. unfold doc_set. apply field_of_alter.
    intros Hd t. apply set_other_field; auto. now apply (targets_false d d').
Qed.

Lemma react_push (data : Value) (st : State) (acc : list Value) (il : option Value) :
  field_of st d k = Some (VArr acc il) ->
  field_of (fst (react data (Push d k) st)) d k = Some (VArr (acc ++ [data]) il) /\
  loads (fst (react data (Push d k) st)) = loads st.
Proof.
  intros Hf. unfold field_of in Hf.
  destruct (store st !! d) as [t|] eqn:Ht; [|discriminate].
  simpl. unfold doc_push, doc_get. rewrite Ht, (get_own_field t k _ Hf).
  cbn [fst]. split; [|reflexivity].
  unfold field_of. simpl. rewrite list_lookup_alter_eq, Ht. simpl.
  unfold write_back, Object.has, Object.hasOwnProperty. rewrite Hf. simpl.
  apply lookup_set_eq.
Qed.

Lemma react_all_field (data : Value) (rs : list Reaction) (st : State)
    (acc : list Value) (il : option Value) :
  (forall r, In r rs -> targets d k r = true -> r = Push d k) ->
  field_of st d k = Some (VArr acc il) ->
  field_of (fst (react_all data rs st)) d k
  = Some (VArr (acc ++ map (fun _ => data) (List.filter (targets d k) rs)) il) /\
  loads (fst (react_all data rs st)) = loads st.
Proof.
  revert st acc. induction rs as [|r rs IH]; intros st acc Hrs Hf;
    cbn [react_all List.filter map].
  - now rewrite app_nil_r.
  - destruct (targets d k r) eqn:Hr.
    + assert (Er : r = Push d k) by (apply Hrs; [now left | exact Hr]). subst r.
      destruct (react_push data st acc il Hf) as [Hf1 HL1].
      destruct (react data (Push d k) st) as [st1 res]. cbn [fst] in *.
      destruct (IH st1 (acc ++ [data])) as [Hf2 HL2];
        [intros r' Hr' Ht'; apply Hrs; [now right | exact Ht'] | exact Hf1 |].
      destruct (react_all data rs st1) as [st2 errs]. cbn [fst] in *.
      split; [|congruence]. rewrite Hf2. simpl. now rewrite <- app_assoc.
    + destruct (react_other data r st Hr) as [Hf1 HL1].
      destruct (react data r st) as [st1 res]. cbn [fst] in *.
      destruct (IH st1 acc) as [Hf2 HL2];
        [intros r' Hr' Ht'; apply Hrs; [now right | exact Ht'] | congruence |].
      destruct (react_all data rs st1) as [st2 errs]. cbn [fst] in *.
      split; congruence.
Qed.

Lemma settle_field (p : nat) (st : State) (acc : list Value) (il : option Value) :
  (forall q l r, loads st !! q = Some l -> In r (writers d k l) -> r = Push d k) ->
  field_of st d k = Some (VArr acc il) ->
  field_of (fst (settle loadById p st)) d k
  = Some (VArr (acc ++ pushed_by loadById d k (loads st) p) il) /\
  loads (fst (settle loadById p st)) = loads st.
Proof.
  intros Hw Hf. unfold settle, pushed_by.
  destruct (loads st !! p) as [l|] eqn:El; [|now rewrite app_nil_r].
  destruct (loadById (load_type l) (load_id l)) as [data|e]; [|now rewrite app_nil_r].
  apply react_all_field; [|exact Hf].
  intros r Hin Hr. apply (Hw p l r El). unfold writers.
  apply List.filter_In. auto.
Qed.

Lemma settle_all_field (order settled : list nat) (st : State)
    (acc : list Value) (il : option Value) :
  NoDup order -> (forall p, In p order -> ~ In p settled) ->
  (forall q l r, loads st !! q = Some l -> In r (writers d k l) -> r = Push d k) ->
  field_of st d k = Some (VArr acc il) ->
  field_of (fst (settle_all loadById order settled st)) d k
  = Some (VArr (acc ++ flat_map (pushed_by loadById d k (loads st)) order) il) /\
  loads (fst (settle_all loadById order settled st)) = loads st.
Proof.
  revert settled st acc. induction order as [|p order IH];
    intros settled st acc Hnd Hfresh Hw Hf; simpl.
  - now rewrite app_nil_r.
  - apply NoDup_cons in Hnd as [Hp Hnd].
    assert (Hnot : existsb (Nat.eqb p) settled = false).
    { destruct (existsb (Nat.eqb p) settled) eqn:E; auto.
      apply existsb_exists in E as (x & Hx & Hxp). apply Nat.eqb_eq in Hxp. subst x.
      exfalso. apply (Hfresh p); auto. now left. }
    rewrite Hnot.
    destruct (settle_field p st acc il Hw Hf) as [Hf1 HL1].
    destruct (settle loadById p st) as [st1 errs]. cbn [fst] in *.
    destruct (IH (p :: settled) st1 (acc ++ pushed_by loadById d k (loads st) p)) as [Hf2 HL2]; auto.
    + intros q Hq [<-|Hin].
      * apply Hp. now apply list_elem_of_In.
      * apply (Hfresh q); auto. now right.
    + rewrite HL1. exact Hw.
    + destruct (settle_all loadById order (p :: settled) st1) as [st2 errs2].
      cbn [fst] in *. split; [|congruence].
      rewrite Hf2, HL1. now rewrite <- app_assoc.
Qed.

End Settle.

Lemma map_const_length {A B} (x : B) (l : list A) :
  map (fun _ => x) l = repeat x (length l).
Proof. induction l; simpl; congruence. Qed.

Lemma map_const_repeat {A B} (x : B) (y : A) (n : nat) :
  map (fun _ => x) (repeat y n) = repeat x n.
Proof. induction n; simpl; congruence. Qed.

Section PopulateProperties.

Context {DB : Backend}.
Variable loadById : Value -> Value -> Result Value.

Lemma pushed_by_pushes (ty : Value) (d : nat) (k : string) (ids : list Value)
    (L : list Load) (p : nat) :
  (forall q l, L !! q = Some l ->
     writers d k l = repeat (Push d k) (served ty ids l)) ->
  pushed_by loadById d k L p
  = match map (fun l => (load_type l, load_id l)) L !! p with
    | Some call => pushes ty ids call (loadById (fst call) (snd call))
    | None => []
    end.
Proof.
  intros Hw. unfold pushed_by. rewrite list_lookup_fmap.
  destruct (L !! p) as [l|] eqn:El; simpl; [|reflexivity].
  unfold pushes. simpl. rewrite (Hw p l El). unfold served.
  destruct (loadById (load_type l) (load_id l)) as [data|e].
  - destruct (strict_eq (load_type l) ty); [|reflexivity].
    now rewrite map_const_repeat, map_const_length.
  - now destruct (strict_eq (load_type l) ty).
Qed.

Lemma run_populates (documents order : list nat) (docs : list Instance)
    (d d0 : nat) (k name : string) (first this : Instance)
    (rest ids : list Value) (tl il : option Value) :
  k <> "_id" ->
  hd_error documents = Some d0 -> docs !! d0 = Some first ->
  NoDup documents -> In d documents ->
  NoDup (Object.keys (_schema first)) ->
  In k (Object.keys (_schema first)) ->
  prop (Object.get k (_schema first)) "type"
  = Return (VArr (VCtor (CModel Document name) :: rest) tl) ->
  docs !! d = Some this ->
  Object.lookup k (_values this) = Some (VArr ids il) ->
  Object.has k (_schema this) = true ->
  Forall (fun id => keyable id = true) ids ->
  NoDup order ->
  (forall e, outcome (run loadById documents order docs) <> Thrown e) ->
  exists this',
    documents_after (run loadById documents order docs) !! d = Some this' /\
    Object.lookup k (_values this')
    = Some (VArr (populated loadById (VCtor (CModel Document name)) ids
                    (calls (run loadById documents order docs)) order)
                 (Some (VArr ids il))).
Proof.
  intros Hk Hd0 Hfirst Hnd Hd Hks Hkin Htype Hthis Hv Hhas Hids Hord Hthrown.
  unfold run in *.
  pose proof (issue_target (VCtor (CModel Document name)) d k Hk documents docs d0
                first this name rest tl il ids eq_refl Hd0 Hfirst Hnd Hd Hks Hkin
                Htype Hthis Hv Hhas Hids) as Hissue.
  destruct (issue documents (mkState docs [] [])) as [st [[]|e]]; cbn [fst snd] in *.
  2:{ exfalso. apply (Hthrown e). reflexivity. }
  destruct (Hissue eq_refl) as [(Hok & Hu & Hw & Hfind) Hf].
  destruct (settle_all_field loadById d k Hk order [] st [] (Some (VArr ids il)) Hord)
    as [Hf' HL']; auto.
  { intros q l r Hl Hr. rewrite (Hw q l Hl) in Hr. now apply repeat_spec in Hr. }
  destruct (settle_all loadById order [] st) as [st' errs]. cbn [fst] in *.
  simpl in Hf'. destruct (field_of_Some d k st' _ Hf') as (this' & Hthis' & Hv').
  exists this'. simpl. split; [exact Hthis'|].
  rewrite Hv'. do 2 f_equal. unfold populated, calls_of. rewrite HL'.
  clear -Hw. induction order as [|p order IH]; simpl; [reflexivity|].
  now rewrite IH, (pushed_by_pushes _ d k ids (loads st) p Hw).
Qed.

(** What [populate] makes of an array-of-reference field: a new array that
    keeps the id list as [idList] and receives the resolved instances in
    the order in which their loads settle, the instances of the entries
    that share an id together.  The documents are pairwise distinct, the
    schema of the document holds the field, and the ids are values a [Map]
    compares. *)
Theorem populate_array_field_in_settling_order
    (docs : Docs) (order : list nat) (store : list Instance)
    (d d0 : nat) (k name : string) (first this : Instance)
    (rest ids : list Value) (tl il : option Value) :
  k <> "_id" ->
  hd_error (documents_of docs) = Some d0 -> store !! d0 = Some first ->
  NoDup (documents_of docs) -> In d (documents_of docs) ->
  NoDup (Object.keys (_schema first)) ->
  In k (Object.keys (_schema first)) ->
  prop (Object.get k (_schema first)) "type"
  = Return (VArr (VCtor (CModel Document name) :: rest) tl) ->
  store !! d = Some this ->
  Object.lookup k (_values this) = Some (VArr ids il) ->
  Object.has k (_schema this) = true ->
  Forall (fun id => keyable id = true) ids ->
  NoDup order ->
  (forall e, outcome (populate loadById docs order store) <> Thrown e) ->
  exists this',
    documents_after (populate loadById docs order store) !! d = Some this' /\
    Object.lookup k (_values this')
    = Some (VArr (populated loadById (VCtor (CModel Document name)) ids
                    (calls (populate loadById docs order store)) order)
                 (Some (VArr ids il))).
Proof.
  intros Hk Hd0 Hfirst Hnd Hd Hks Hkin Htype Hthis Hv Hhas Hids Hord Hthrown.
  destruct docs as [|d1|[|d1 ds]]; simpl in Hd0, Hd; try discriminate;
    try contradiction; simpl documents_of in *; cbn [populate] in *;
    eapply (run_populates _ _ _ d d0 k name first this rest ids tl il); eauto.
Qed.

End PopulateProperties.

(** ** [populate] on the examples *)

Ltac nodup :=
  repeat (constructor;
          [rewrite list_elem_of_In; simpl; intuition (discriminate || lia)|]);
  constructor.

(** Two authors, loaded in the order asked for: here the order of the id
    list is kept. *)
Example populate_two_authors :
  let r := populate (DB := mongo) library (One 0%nat) [0; 1]%nat
             [book [VStr "a"; VStr "b"] VNull] in
  (Object.lookup "authors" <$> (_values <$> documents_after r !! 0%nat))
  = Some (Some (VArr [author (VStr "a"); author (VStr "b")]
                  (Some (VArr [VStr "a"; VStr "b"] None)))) /\
  outcome r = Fulfilled.
Proof. split; reflexivity. Qed.

Lemma populate_array_field_in_settling_order_witness :
  let ids := [VStr "a"; VStr "b"; VStr "a"] in
  let this := book ids (VStr "b") in
  ("authors" <> "_id" /\
   hd_error (documents_of (One 0%nat)) = Some 0%nat /\
   [this] !! 0%nat = Some this /\
   NoDup (documents_of (One 0%nat)) /\
   In 0%nat (documents_of (One 0%nat)) /\
   NoDup (Object.keys (_schema this)) /\
   In "authors" (Object.keys (_schema this)) /\
   prop (Object.get "authors" (_schema this)) "type"
   = Return (VArr (VCtor (CModel Document "Author") :: []) None) /\
   Object.lookup "authors" (_values this) = Some (VArr ids None) /\
   Object.has "authors" (_schema this) = true /\
   Forall (fun id => keyable id = true) ids /\
   NoDup [0; 1]%nat /\
   (forall e, outcome (populate (DB := mongo) library (One 0%nat) [0; 1]%nat [this])
              <> Thrown e)) /\
  exists this',
    documents_after (populate (DB := mongo) library (One 0%nat) [0; 1]%nat [this])
      !! 0%nat = Some this' /\
    Object.lookup "authors" (_values this')
    = Some (VArr (populated library (VCtor (CModel Document "Author")) ids
                    (calls (populate (DB := mongo) library (One 0%nat) [0; 1]%nat [this]))
                    [0; 1]%nat)
                 (Some (VArr ids None))).
Proof.
  intros ids this.
  assert (H1 : "authors" <> "_id") by discriminate.
  assert (H2 : NoDup (documents_of (One 0%nat))) by apply NoDup_singleton.
  assert (H3 : NoDup (Object.keys (_schema this)))
    by (vm_compute; nodup).
  assert (H4 : In "authors" (Object.keys (_schema this))) by (vm_compute; tauto).
  assert (H5 : Forall (fun id => keyable id = true) ids) by (repeat constructor).
  assert (H6 : NoDup [0; 1]%nat) by nodup.
  assert (H7 : forall e,
             outcome (populate (DB := mongo) library (One 0%nat) [0; 1]%nat [this])
             <> Thrown e) by (intros e; vm_compute; discriminate).
  split.
  - repeat split; try assumption; try reflexivity. now left.
  - apply (populate_array_field_in_settling_order (DB := mongo) library
             (One 0%nat) [0; 1]%nat [this] 0%nat 0%nat "authors" "Author" this this
             [] ids None None);
      try assumption; try reflexivity. now left.
Defined.

(** C2, at an input where the code departs from it: the id list [a, b, a]
    of a [Book], the loads settling in the order they were asked for.
    [populate] is fulfilled and keeps the id list as [idList], but the
    array holds the authors a, a, b: every instance is pushed by a callback
    of its load, and the one load for a runs both its callbacks when it
    settles.  The order of the id list is lost. *)
Theorem populate_repeated_id_breaks_the_order :
  let ids := [VStr "a"; VStr "b"; VStr "a"] in
  let r := populate (DB := mongo) library (One 0%nat) [0; 1]%nat [book ids VNull] in
  outcome r = Fulfilled /\
  (Object.lookup "authors" <$> (_values <$> documents_after r !! 0%nat))
  = Some (Some (VArr [author (VStr "a"); author (VStr "a"); author (VStr "b")]
                  (Some (VArr ids None)))) /\
  [author (VStr "a"); author (VStr "a"); author (VStr "b")] <> map author ids.
Proof. split; [reflexivity|]. split; [reflexivity | discriminate]. Qed.

(** Two distinct ids, the second load settling first: the array follows
    the loads, not the id list. *)
Example populate_follows_the_settling_order :
  let ids := [VStr "a"; VStr "b"] in
  let r := populate (DB := mongo) library (One 0%nat) [1; 0]%nat [book ids VNull] in
  (Object.lookup "authors" <$> (_values <$> documents_after r !! 0%nat))
  = Some (Some (VArr [author (VStr "b"); author (VStr "a")]
                  (Some (VArr ids None)))).
Proof. reflexivity. Qed.

(** C3, at the input where the code departs from it: two documents whose
    [editor] is the same foreign id, each through an ObjectId object of its
    own as the driver hands them out.  The cache is a [Map] keyed by the id
    object, so the second lookup misses and [loadById] is called twice for
    the one id. *)
Theorem populate_loads_an_object_id_once_per_object :
  let id1 := VObjectId 1 "5f1d7f3e9c3b2a0012345678" in
  let id2 := VObjectId 2 "5f1d7f3e9c3b2a0012345678" in
  let r := populate (DB := mongo) library (Many [0; 1]%nat) [0; 1]%nat
             [book [] id1; book [] id2] in
  to_string id1 = to_string id2 /\
  isNativeId (Backend := mongo) id1 = true /\
  isNativeId (Backend := mongo) id2 = true /\
  outcome r = Fulfilled /\
  calls r = [(Author, id1); (Author, id2)].
Proof. repeat split; reflexivity. Qed.

(** With one id value in both documents, a string or one shared object,
    there is one call. *)
Example populate_loads_a_shared_id_once :
  calls (populate (DB := mongo) library (Many [0; 1; 2]%nat) [0]%nat
           [book [] (VStr "a1"); book [] (VStr "a1"); book [] (VStr "a1")])
  = [(Author, VStr "a1")] /\
  calls (populate (DB := mongo) library (Many [0; 1]%nat) [0]%nat
           [book [] (VObjectId 1 "5f1d7f3e9c3b2a0012345678");
            book [] (VObjectId 1 "5f1d7f3e9c3b2a0012345678")])
  = [(Author, VObjectId 1 "5f1d7f3e9c3b2a0012345678")].
Proof. split; reflexivity. Qed.

(** * Further properties *)

(** ** The property proxy, further *)

Lemma has_set_ne (k k' : string) (v : Value) (o : Obj) :
  k <> k' -> Object.has k' (Object.set k v o) = Object.has k' o.
Proof.
  intros Hne. unfold Object.has, Object.hasOwnProperty.
  now rewrite lookup_set_ne.
Qed.

Lemma has_set_eq (k : string) (v : Value) (o : Obj) :
  Object.has k (Object.set k v o) = true.
Proof.
  unfold Object.has, Object.hasOwnProperty. now rewrite lookup_set_eq.
Qed.

Lemma get_set_ne (k k' : string) (v : Value) (o : Obj) :
  k <> k' -> Object.get k' (Object.set k v o) = Object.get k' o.
Proof. intros Hne. apply get_lookup_eq. now apply lookup_set_ne. Qed.

Lemma proxy_get_set_eq (target : Instance) (propKey : string) (value : Value) :
  Object.has propKey (_schema target) = true ->
  schemaProxyHandler.get (schemaProxyHandler.set target propKey value) propKey = value.
Proof.
  intros Hs. unfold schemaProxyHandler.set. rewrite Hs.
  unfold schemaProxyHandler.get. cbn [_values with_values].
  now rewrite has_set_eq, get_set_eq.
Qed.

(** X1: a write to a schema field through the proxy is read back through
    the proxy; it leaves the schema alone, and every other name that the
    proxy answers with something stored (another field, an own property of
    the instance, a name the prototypes of the model do not define) reads
    as before, except [_values] itself and, for a write to [_id], its alias
    [id]. *)
Theorem proxy_set_then_get (target : Instance) (propKey : string) (value : Value) :
  Object.has propKey (_schema target) = true ->
  schemaProxyHandler.get (schemaProxyHandler.set target propKey value) propKey = value /\
  _schema (schemaProxyHandler.set target propKey value) = _schema target /\
  (forall k, k <> propKey -> k <> "_values" -> (propKey = "_id" -> k <> "id") ->
     reads_stored target k = true ->
     schemaProxyHandler.get (schemaProxyHandler.set target propKey value) k
     = schemaProxyHandler.get target k).
Proof.
  intros Hs. split; [now apply proxy_get_set_eq|].
  unfold schemaProxyHandler.set. rewrite Hs. split; [reflexivity|].
  intros k Hk Hv Hid _.
  { unfold schemaProxyHandler.get. cbn [_values with_values].
    rewrite has_set_ne by congruence.
    destruct (Object.has k (_values target)); [apply get_set_ne; congruence|].
    destruct (String.eqb k "id") eqn:Eid.
    + apply String.eqb_eq in Eid. apply get_set_ne. intros ->. now apply Hid.
    + unfold Reflect.get. cbn [_schema _values own proto inherited with_values].
      apply String.eqb_neq in Hv. now rewrite Hv. }
Qed.

Lemma proxy_set_then_get_witness :
  Object.has "owner" (_schema wallet) = true /\
  reads_stored wallet "pin" = true /\
  schemaProxyHandler.get (schemaProxyHandler.set wallet "owner" (VStr "ann")) "owner"
  = VStr "ann" /\
  schemaProxyHandler.get (schemaProxyHandler.set wallet "owner" (VStr "ann")) "pin"
  = schemaProxyHandler.get wallet "pin".
Proof.
  split; [reflexivity|]. split; [reflexivity|].
  destruct (proxy_set_then_get wallet "owner" (VStr "ann")) as (H1 & _ & H2);
    [reflexivity|].
  split; [exact H1|].
  apply H2; [discriminate | discriminate | discriminate | reflexivity].
Defined.

(** X2: on an instance that declares no field [id], the names [id] and
    [_id] are one property: what is written under either is read under
    both, and it is stored under [_id]. *)
Theorem proxy_id_is_an_alias (target : Instance) (value : Value) :
  Object.has "id" (_schema target) = false ->
  Object.has "id" (_values target) = false ->
  Object.has "_id" (_schema target) = true ->
  (let t := schemaProxyHandler.set target "id" value in
   schemaProxyHandler.get t "id" = value /\
   schemaProxyHandler.get t "_id" = value /\
   Object.lookup "_id" (_values t) = Some value /\
   Object.lookup "id" (_values t) = None) /\
  (let t := schemaProxyHandler.set target "_id" value in
   schemaProxyHandler.get t "id" = value /\
   schemaProxyHandler.get t "_id" = value /\
   schemaProxyHandler.set target "id" value = t).
Proof.
  intros Hs Hv Hs'. unfold schemaProxyHandler.set. rewrite Hs, Hs'.
  cbn [String.eqb Ascii.eqb Bool.eqb].
  assert (Hn : Object.has "id" (Object.set "_id" value (_values target)) = false)
    by (rewrite has_set_ne; [exact Hv | discriminate]).
  assert (Hl : Object.lookup "id" (_values target) = None).
  { unfold Object.has, Object.hasOwnProperty in Hv.
    destruct (Object.lookup "id" (_values target)); [discriminate | reflexivity]. }
  unfold schemaProxyHandler.get. cbn [_values with_values].
  rewrite Hn, has_set_eq, get_set_eq. cbn [String.eqb Ascii.eqb Bool.eqb].
  repeat split; try reflexivity.
  - apply lookup_set_eq.
  - rewrite lookup_set_ne; [exact Hl | discriminate].
Qed.

Lemma proxy_id_is_an_alias_witness :
  let t := schemaProxyHandler.set wallet "id" (VStr "w1") in
  schemaProxyHandler.get t "id" = VStr "w1" /\
  schemaProxyHandler.get t "_id" = VStr "w1".
Proof.
  destruct (proxy_id_is_an_alias wallet (VStr "w1")) as [(H1 & H2 & _) _];
    try reflexivity.
  exact (conj H1 H2).
Defined.

(** X3: the names every object inherits from [Object.prototype] pass the
    proxy's [in] tests though no schema declares them: read through the
    proxy, such a name answers the member of [Object.prototype], whatever
    the model or its prototype define under it, and a write to it lands in
    the values map. *)
Theorem proxy_inherited_names (target : Instance) (k : string) (value : Value) :
  Object.inherits k = true ->
  (Object.lookup k (_values target) = None ->
   schemaProxyHandler.get target k = VFun ("Object.prototype." +:+ k)) /\
  _values (schemaProxyHandler.set target k value)
  = Object.set k value (_values target) /\
  schemaProxyHandler.get (schemaProxyHandler.set target k value) k = value.
Proof.
  intros Hi.
  assert (Hs : Object.has k (_schema target) = true)
    by (unfold Object.has; rewrite Hi; apply orb_true_r).
  split; [|split].
  - intros Hn. unfold schemaProxyHandler.get, Object.has, Object.get.
    rewrite Hi, orb_true_r, Hn. reflexivity.
  - unfold schemaProxyHandler.set. now rewrite Hs.
  - now apply proxy_get_set_eq.
Qed.

Lemma proxy_inherited_names_witness :
  Object.inherits "toString" = true /\
  schemaProxyHandler.get wallet "toString" = VFun "Object.prototype.toString" /\
  schemaProxyHandler.get (schemaProxyHandler.set wallet "toString" (VNum 1)) "toString"
  = VNum 1.
Proof.
  split; [reflexivity|].
  destruct (proxy_inherited_names wallet "toString" (VNum 1)) as (H1 & _ & H3);
    [reflexivity|].
  split; [apply H1; reflexivity | exact H3].
Defined.

(** X4: deleting a field through the proxy uncovers the declaration the
    constructor left on the instance: the name still passes [in], reads as
    that declaration, and a later write to it replaces the declaration
    without reaching the values map. *)
Theorem proxy_delete_uncovers_the_declaration
    (target : Instance) (k : string) (decl value : Value) :
  Object.lookup k (own target) = Some decl ->
  Object.inherits k = false ->
  k <> "id" -> k <> "_schema" -> k <> "_values" ->
  let t := fst (schemaProxyHandler.deleteProperty target k) in
  schemaProxyHandler.get t k = decl /\
  schemaProxyHandler.has t k = true /\
  _values (schemaProxyHandler.set t k value) = _values t /\
  Object.lookup k (_values (schemaProxyHandler.set t k value)) = None /\
  schemaProxyHandler.get (schemaProxyHandler.set t k value) k = value.
Proof.
  intros Ho Hi Hid Hs Hv. cbn zeta.
  apply String.eqb_neq in Hid, Hs, Hv.
  assert (Hhas : forall o, Object.has k (Object.delete k o) = false).
  { intros o. unfold Object.has, Object.hasOwnProperty.
    now rewrite lookup_delete_eq, Hi. }
  unfold schemaProxyHandler.deleteProperty. cbn [fst].
  set (t := with_values _ _).
  assert (Htv : _values t = Object.delete k (_values target)) by reflexivity.
  assert (Hts : _schema t = Object.delete k (_schema target)) by reflexivity.
  assert (Hto : own t = own target) by reflexivity.
  assert (Hset : schemaProxyHandler.set t k value
                 = with_own (Object.set k value (own t)) t).
  { unfold schemaProxyHandler.set, Reflect.set. now rewrite Hts, Hhas, Hid, Hs, Hv. }
  assert (Hget : forall t', _values t' = _values t ->
            schemaProxyHandler.get t' k
            = match Object.lookup k (own t') with
              | Some v => v
              | None =>
                  match Object.lookup k (proto t') with
                  | Some v => v
                  | None => Object.get k (inherited t')
                  end
              end).
  { intros t' E. unfold schemaProxyHandler.get, Reflect.get.
    now rewrite E, Htv, Hhas, Hid, Hs, Hv. }
  split; [|split; [|split; [|split]]].
  - rewrite Hget by reflexivity. now rewrite Hto, Ho.
  - unfold schemaProxyHandler.has, Reflect.has, Object.hasOwnProperty.
    rewrite Hto, Ho. cbn [orb]. now rewrite !orb_true_r.
  - now rewrite Hset.
  - rewrite Hset. cbn [_values with_own]. rewrite Htv. apply lookup_delete_eq.
  - rewrite Hset, Hget by reflexivity. cbn [own with_own]. now rewrite lookup_set_eq.
Qed.

Lemma proxy_delete_uncovers_the_declaration_witness :
  let t := fst (schemaProxyHandler.deleteProperty wallet "owner") in
  Object.lookup "owner" (own wallet) = Some (VCtor CString) /\
  schemaProxyHandler.get wallet "owner" = VUndefined /\
  schemaProxyHandler.get t "owner" = VCtor CString.
Proof.
  split; [reflexivity|]. split; [reflexivity|].
  apply (proxy_delete_uncovers_the_declaration wallet "owner" (VCtor CString) VNull);
    (reflexivity || discriminate).
Defined.

(** ** [normalizeType] and [schema] *)

(** X24: [normalizeType] answers declarations that it leaves alone:
    normalizing twice is normalizing once, and what it answers has a
    truthy [type]. *)
Theorem normalizeType_idempotent (property typeDeclaration : Value) :
  normalizeType property = Return typeDeclaration ->
  normalizeType typeDeclaration = Return typeDeclaration /\
  exists type, prop typeDeclaration "type" = Return type /\ truthy type = true.
Proof.
  unfold normalizeType.
  destruct (prop property "type") as [t|e] eqn:Ep; cbn [bind]; [|discriminate].
  destruct (truthy t) eqn:Et.
  - intros E. injection E as <-. rewrite Ep. cbn [bind]. rewrite Et. eauto.
  - destruct (isSupportedType property) eqn:Es; [|discriminate].
    intros E. injection E as <-.
    assert (Htr : truthy property = true) by (destruct property; try discriminate; reflexivity).
    cbn. rewrite Htr. eauto.
Qed.

Lemma schema_normalize_spec (extension : Obj) :
  forall extension',
    schema_normalize extension = (extension', Return tt) ->
    Object.keys extension' = Object.keys extension /\
    Forall2 (fun kv kv' => fst kv' = fst kv /\ normalizeType (snd kv) = Return (snd kv'))
            extension extension'.
Proof.
  induction extension as [|[k v] rest IH]; intros extension' E; cbn in E.
  - injection E as <-. split; [reflexivity | constructor].
  - destruct (normalizeType v) as [decl|e] eqn:En; [|discriminate].
    destruct (schema_normalize rest) as [rest' r]. injection E as <- ->.
    destruct (IH rest' eq_refl) as [Hk Hall]. split.
    + unfold Object.keys in *. cbn [map fst]. now rewrite Hk.
    + constructor; [split; [reflexivity | exact En] | exact Hall].
Qed.

Lemma _assign_lookup (source : Obj) :
  forall (object : Obj) (k : string),
    NoDup (Object.keys source) ->
    Object.lookup k (_assign object source)
    = match Object.lookup k source with
      | Some v => Some v
      | None => Object.lookup k object
      end.
Proof.
  induction source as [|[k0 v0] source IH]; intros object k Hnd; [reflexivity|].
  cbn [Object.keys map fst] in Hnd. apply NoDup_cons in Hnd as [Hk0 Hnd].
  rewrite list_elem_of_In in Hk0.
  unfold _assign. cbn [fold_left fst snd]. fold (_assign (Object.set k0 v0 object) source).
  rewrite IH by exact Hnd. cbn [Object.lookup].
  destruct (String.eqb k k0) eqn:E.
  - apply String.eqb_eq in E. subst k0.
    apply lookup_None_keys in Hk0. rewrite Hk0. apply lookup_set_eq.
  - destruct (Object.lookup k source); [reflexivity|].
    apply lookup_set_ne. intros ->. now rewrite String.eqb_refl in E.
Qed.

Lemma Forall2_lookup_normalized (extension extension' : Obj) (k : string) :
  Forall2 (fun kv kv' => fst kv' = fst kv /\ normalizeType (snd kv) = Return (snd kv'))
          extension extension' ->
  match Object.lookup k extension with
  | Some v => exists decl, normalizeType v = Return decl /\
                           Object.lookup k extension' = Some decl
  | None => Object.lookup k extension' = None
  end.
Proof.
  induction 1 as [|[k0 v0] [k0' v0'] rest rest' [Hk Hn] Hall IH]; [reflexivity|].
  cbn [fst snd] in Hk, Hn. subst k0'. cbn [Object.lookup].
  destruct (String.eqb k k0); [eauto | exact IH].
Qed.

(** X25: [schema] merges the normalized declarations of the extension into
    the schema: every field of the extension is declared afterwards, with
    its normalized declaration, in the schema and in the extension object
    itself; the declarations of other fields and the values stay; and when
    a declaration is refused, [schema] throws and the schema is as it
    was. *)
Theorem schema_merges_the_extension (this : Instance) (extension : Obj) :
  NoDup (Object.keys extension) ->
  match schema this extension with
  | (this', extension', Return _) =>
      _values this' = _values this /\
      forall k,
        match Object.lookup k extension with
        | Some property =>
            exists typeDeclaration,
              normalizeType property = Return typeDeclaration /\
              Object.lookup k (_schema this') = Some typeDeclaration /\
              Object.lookup k extension' = Some typeDeclaration
        | None => Object.lookup k (_schema this') = Object.lookup k (_schema this)
        end
  | (this', _, Throw _) =>
      this' = this /\
      exists k property e, In (k, property) extension /\
                           normalizeType property = Throw e
  end.
Proof.
  intros Hnd. unfold schema.
  destruct (schema_normalize extension) as [extension' [[]|e]] eqn:E.
  - destruct (schema_normalize_spec extension extension' E) as [Hk Hall].
    split; [reflexivity|]. intros k. cbn [_schema with_schema].
    rewrite _assign_lookup by (rewrite Hk; exact Hnd).
    pose proof (Forall2_lookup_normalized extension extension' k Hall) as H.
    destruct (Object.lookup k extension) as [v|].
    + destruct H as (decl & Hn & Hl). exists decl. now rewrite Hl.
    + now rewrite H.
  - split; [reflexivity|]. clear Hnd. revert extension' E.
    induction extension as [|[k v] rest IH]; intros extension' E; cbn in E;
      [discriminate|].
    destruct (normalizeType v) as [decl|e'] eqn:En.
    + destruct (schema_normalize rest) as [rest' r]. injection E as _ ->.
      destruct (IH rest' eq_refl) as (k' & p' & e'' & Hin & Hn).
      exists k', p', e''. split; [now right | exact Hn].
    + exists k, v, e'. split; [now left | exact En].
Qed.

Lemma normalizeType_idempotent_witness :
  normalizeType (VCtor CString) = Return (VObj [("type", VCtor CString)]) /\
  normalizeType (VObj [("type", VCtor CString)])
  = Return (VObj [("type", VCtor CString)]).
Proof.
  split; [reflexivity|].
  apply (normalizeType_idempotent (VCtor CString) (VObj [("type", VCtor CString)])).
  reflexivity.
Defined.

Lemma schema_merges_the_extension_witness :
  let extension := [("owner", VObj [("type", VCtor CString); ("private", VBool true)]);
                    ("age", VCtor CNumber)] in
  NoDup (Object.keys extension) /\
  match schema wallet extension with
  | (this', extension', Return _) =>
      _values this' = _values wallet /\
      forall k,
        match Object.lookup k extension with
        | Some property =>
            exists typeDeclaration,
              normalizeType property = Return typeDeclaration /\
              Object.lookup k (_schema this') = Some typeDeclaration /\
              Object.lookup k extension' = Some typeDeclaration
        | None => Object.lookup k (_schema this') = Object.lookup k (_schema wallet)
        end
  | (this', _, Throw _) =>
      this' = wallet /\
      exists k property e, In (k, property) extension /\
                           normalizeType property = Throw e
  end.
Proof.
  intros extension.
  assert (Hnd : NoDup (Object.keys extension)) by (cbn; nodup).
  split; [exact Hnd|].
  exact (schema_merges_the_extension wallet extension Hnd).
Defined.

(** The extension above on a [Wallet]: [owner] is declared anew, [age]
    comes last, and the extension object holds the normalized
    declarations. *)
Example schema_wallet :
  match schema wallet [("owner", VObj [("type", VCtor CString); ("private", VBool true)]);
                       ("age", VCtor CNumber)] with
  | (this', extension', r) =>
      Object.keys (_schema this') = ["_id"; "contents"; "owner"; "pin"; "age"] /\
      Object.lookup "age" extension' = Some (VObj [("type", VCtor CNumber)]) /\
      r = Return tt
  end.
Proof. repeat split; reflexivity. Qed.

(** ** Building an instance, further *)

Section InstantiateProperties.

Context {RT : Runtime} {DB : Backend}.














End InstantiateProperties.





Section InstantiateReturns.

Context {RT : Runtime} {DB : Backend}.





End InstantiateReturns.


(** ** The loop of [fill] *)

Section FillLoopProperties.

Context {RT : Runtime} {DB : Backend}.

Variable toNativeId : Value -> Result Value.
Variable _fromData_of : Value -> Value -> Result Value.
Variable fill_of : Instance -> Value -> Result Instance.

Abbreviation fill_key' := (fill_key toNativeId _fromData_of fill_of).
Abbreviation fill_object' := (fill_object toNativeId _fromData_of fill_of).
Abbreviation fill_plain' := (fill_plain toNativeId _fromData_of fill_of).

Lemma has_own_key (k : string) (o : Obj) :
  In k (Object.keys o) -> Object.has k o = true.
Proof.
  intros Hin. apply keys_lookup in Hin as [v Hv].
  unfold Object.has, Object.hasOwnProperty. now rewrite Hv.
Qed.

(** The branch of lines 282 to 286 is never taken: [_.keys] lists own
    keys. *)
Lemma fill_value_own (instance : Instance) (newValues : Obj) (key : string) :
  In key (Object.keys newValues) ->
  fill_value instance newValues key = Return (Object.get key newValues).
Proof. intros Hin. unfold fill_value. now rewrite has_own_key. Qed.

Lemma fill_plain_unfold (this : Instance) (newValues : Obj) :
  isNativeId (VObj newValues) = false ->
  fill_plain' this newValues = fill_object' this newValues.
Proof. intros Hn. unfold fill_plain, fill. now rewrite Hn. Qed.

(** One key leaves the schema and the rest of the instance alone, and in the
    values map it writes under its own name only, or under [_id] for the
    alias [id]. *)
Lemma fill_key_frame (instance instance' : Instance) (key : string) (value : Value) :
  fill_key' instance key value = Return instance' ->
  _schema instance' = _schema instance /\
  proto instance' = proto instance /\
  inherited instance' = inherited instance /\
  documentClass instance' = documentClass instance /\
  (forall k, k <> key -> (key = "id" -> k <> "_id") ->
     Object.lookup k (_values instance') = Object.lookup k (_values instance)).
Proof.
  unfold fill_key.
  assert (Hstore : forall v,
            let i := with_values (Object.set key v (_values instance)) instance in
            _schema i = _schema instance /\ proto i = proto instance /\
            inherited i = inherited instance /\
            documentClass i = documentClass instance /\
            (forall k, k <> key -> (key = "id" -> k <> "_id") ->
               Object.lookup k (_values i) = Object.lookup k (_values instance))).
  { intros v. cbn. repeat split. intros k Hk _. apply lookup_set_ne. congruence. }
  destruct (Object.has key (_schema instance)) eqn:Hs.
  - destruct (prop _ "type") as [type|e]; [|discriminate]. cbn [bind].
    destruct (prototype_instanceof_BaseDocument _) as [[|]|e]; [| |discriminate];
      cbn [bind].
    + destruct value;
        try (intros E; injection E as <-; apply Hstore);
        (destruct (Object.get key (_values instance));
         try (destruct (fill_of _ _); [|discriminate]; cbn [bind]);
         try (destruct (_ && _);
              [destruct (_fromData_of _ _); [|discriminate]; cbn [bind]|]);
         intros E; injection E as <-; apply Hstore).
    + destruct (_ || _).
      * destruct (toNativeId value); [|discriminate]. cbn [bind].
        intros E; injection E as <-; apply Hstore.
      * intros E; injection E as <-; apply Hstore.
  - destruct (schemaProxyHandler.has instance key); intros E; injection E as <-.
    + unfold schemaProxyHandler.set. rewrite Hs.
      destruct (String.eqb key "id") eqn:Eid.
      * apply String.eqb_eq in Eid. subst key. cbn. repeat split.
        intros k _ Hk. apply lookup_set_ne. intros <-. now apply Hk.
      * unfold Reflect.set. destruct (_ || _); cbn; repeat split.
    + repeat split.
Qed.

Lemma fill_object_frame (newValues : Obj) (ks : list string) :
  forall instance instance' : Instance,
    forEach (fun instance key =>
               let* value := fill_value instance newValues key in
               fill_key' instance key value) ks instance = Return instance' ->
    _schema instance' = _schema instance /\
    proto instance' = proto instance /\
    inherited instance' = inherited instance /\
    documentClass instance' = documentClass instance /\
    (forall k, ~ In k ks -> (In "id" ks -> k <> "_id") ->
       Object.lookup k (_values instance') = Object.lookup k (_values instance)).
Proof.
  induction ks as [|key ks IH]; intros instance instance' E.
  - injection E as <-. repeat split.
  - cbn [forEach] in E.
    destruct (fill_value instance newValues key) as [value|e]; [|discriminate].
    cbn [bind] in E.
    destruct (fill_key' instance key value) as [i1|e] eqn:E1; [|discriminate].
    cbn [bind] in E.
    destruct (fill_key_frame _ _ _ _ E1) as (H1 & H2 & H3 & H4 & H5).
    destruct (IH _ _ E) as (G1 & G2 & G3 & G4 & G5).
    split; [congruence|]. split; [congruence|]. split; [congruence|].
    split; [congruence|].
    intros k Hk Hid. rewrite G5, H5.
    + reflexivity.
    + intros ->. apply Hk. now left.
    + intros ->. apply Hid. now left.
    + intros Hin. apply Hk. now right.
    + intros Hin. apply Hid. now right.
Qed.

(** X8: [fill] passes over the keys of the data that are neither in the
    schema nor properties of the instance: with such keys only, none of
    them one of the names of [Object.prototype] that [Object.inherits]
    leaves out, the instance is left as it was. *)
Theorem fill_ignores_unknown_keys (this : Instance) (newValues : Obj) :
  isNativeId (VObj newValues) = false ->
  (forall k, In k (Object.keys newValues) -> schemaProxyHandler.has this k = false) ->
  (forall k, In k (Object.keys newValues) -> Object.legacy k = false) ->
  fill_plain' this newValues = Return this.
Proof.
  intros Hn Hk _. rewrite fill_plain_unfold by exact Hn. unfold fill_object.
  assert (Hsub : forall k, In k (Object.keys newValues) ->
                           In k (Object.keys newValues)) by auto.
  revert Hsub Hk. generalize (Object.keys newValues) at 1 3 4.
  intros ks. induction ks as [|k ks IH]; intros Hsub Hk; [reflexivity|].
  cbn [forEach]. rewrite fill_value_own by (apply Hsub; now left). cbn [bind].
  pose proof (Hk k (or_introl eq_refl)) as Hh.
  unfold schemaProxyHandler.has in Hh. apply orb_false_iff in Hh as [Hs Hr].
  unfold fill_key. rewrite Hs. unfold schemaProxyHandler.has. rewrite Hs, Hr.
  cbn [orb bind]. apply IH; intros k' Hin; [apply Hsub | apply Hk]; now right.
Qed.

Lemma fill_key_plain (instance : Instance) (k : string) (v : Value) :
  plain_field instance k -> k <> "_id" -> k <> "id" ->
  fill_key' instance k v
  = Return (with_values (Object.set k v (_values instance)) instance).
Proof.
  intros (decl & type & Hl & Ht & Hp) H1 H2. unfold fill_key.
  assert (Hh : Object.has k (_schema instance) = true).
  { unfold Object.has, Object.hasOwnProperty. now rewrite Hl. }
  assert (Hg : Object.get k (_schema instance) = decl).
  { unfold Object.get. now rewrite Hl. }
  rewrite Hh, Hg, Ht. cbn [bind]. rewrite Hp. cbn [bind].
  apply String.eqb_neq in H1, H2. now rewrite H1, H2.
Qed.

Lemma fill_loop_stores (newValues : Obj) (k : string) (v : Value) (ks : list string) :
  forall this this' : Instance,
    forEach (fun instance key =>
               let* value := fill_value instance newValues key in
               fill_key' instance key value) ks this = Return this' ->
    (forall k', In k' ks -> In k' (Object.keys newValues)) ->
    NoDup ks -> In k ks ->
    Object.lookup k newValues = Some v ->
    plain_field this k -> k <> "_id" -> k <> "id" ->
    Object.lookup k (_values this') = Some v.
Proof.
  induction ks as [|k0 ks IH]; intros this this' E Hsub Hnd Hin Hv Hp H1 H2;
    [destruct Hin|].
  cbn [forEach] in E. rewrite fill_value_own in E by (apply Hsub; now left).
  cbn [bind] in E.
  destruct (fill_key' this k0 (Object.get k0 newValues)) as [i1|e] eqn:E1;
    [|discriminate].
  cbn [bind] in E. apply NoDup_cons in Hnd as [Hk0 Hnd].
  rewrite list_elem_of_In in Hk0.
  destruct (fill_key_frame _ _ _ _ E1) as (F1 & _).
  destruct Hin as [->|Hin].
  - rewrite fill_key_plain in E1 by assumption. injection E1 as <-.
    destruct (fill_object_frame _ _ _ _ E) as (_ & _ & _ & _ & G5).
    rewrite G5; [|exact Hk0|congruence].
    cbn [_values with_values]. rewrite lookup_set_eq.
    unfold Object.get. now rewrite Hv.
  - apply (IH i1 this' E); auto.
    + intros k' Hk'. apply Hsub. now right.
    + destruct Hp as (decl & type & P1 & P2). exists decl, type.
      split; [congruence | exact P2].
Qed.

(** X9: a [fill] that returns has stored, for every key of the data that is
    a field of the schema with a type that is no model class, the value the
    data gives it, as it is; and it has left the schema as it was.  The
    keys of the data are handled by what [fill] stores: outside the schema
    they name no property of the prototypes, whose setter would run. *)
Theorem fill_stores_the_plain_fields
    (this this' : Instance) (newValues : Obj) (k : string) (v : Value) :
  isNativeId (VObj newValues) = false ->
  NoDup (Object.keys newValues) ->
  ~ In "_schema" (Object.keys newValues) -> ~ In "_values" (Object.keys newValues) ->
  (forall key, In key (Object.keys newValues) -> plain_key this key) ->
  fill_plain' this newValues = Return this' ->
  Object.lookup k newValues = Some v ->
  plain_field this k -> k <> "_id" -> k <> "id" ->
  Object.lookup k (_values this') = Some v /\
  schemaProxyHandler.get this' k = v /\
  _schema this' = _schema this.
Proof.
  intros Hn Hnd _ _ _ E Hv Hp H1 H2. rewrite fill_plain_unfold in E by exact Hn.
  unfold fill_object in E.
  assert (Hl : Object.lookup k (_values this') = Some v).
  { apply (fill_loop_stores newValues k v _ this this' E); auto.
    apply keys_lookup. eauto. }
  split; [exact Hl|]. split.
  - unfold schemaProxyHandler.get, Object.has, Object.hasOwnProperty, Object.get.
    now rewrite Hl.
  - now destruct (fill_object_frame _ _ _ _ E).
Qed.

Lemma forEach_fails {A} (Inv : A -> Prop) (f : A -> string -> Result A)
    (ks : list string) (k : string) :
  (forall a k' a', Inv a -> f a k' = Return a' -> Inv a') ->
  (forall a, Inv a -> exists e, f a k = Throw e) ->
  In k ks ->
  forall a, Inv a -> exists e, forEach f ks a = Throw e.
Proof.
  intros Hstep Hfail. induction ks as [|k0 ks IH]; intros Hin a Ha; [destruct Hin|].
  cbn [forEach]. destruct (f a k0) as [a'|e] eqn:E; [|cbn; eauto].
  cbn [bind]. destruct Hin as [->|Hin].
  - destruct (Hfail a Ha) as [e He]. congruence.
  - apply IH; eauto.
Qed.

(** X10: data with a key that every object inherits from
    [Object.prototype], such as [constructor] or [toString], makes [fill]
    throw when the schema declares no field of that name: the key passes
    the test [key in instance._schema] and the type read for it is
    undefined. *)
Theorem fill_throws_on_inherited_names
    (this : Instance) (newValues : Obj) (k : string) :
  isNativeId (VObj newValues) = false ->
  ~ In "_schema" (Object.keys newValues) -> ~ In "_values" (Object.keys newValues) ->
  In k (Object.keys newValues) ->
  Object.inherits k = true ->
  Object.lookup k (_schema this) = None ->
  (exists e, fill_plain' this newValues = Throw e) /\
  forall v, fill_key' this k v
            = Throw (TypeError "Cannot read property 'prototype' of undefined").
Proof.
  intros Hn _ _ Hin Hi Hs.
  assert (Hfail : forall a v, _schema a = _schema this ->
            fill_key' a k v
            = Throw (TypeError "Cannot read property 'prototype' of undefined")).
  { intros a v Ha. unfold fill_key, Object.has, Object.hasOwnProperty, Object.get.
    rewrite Ha, Hs, Hi. reflexivity. }
  split; [|intros v; now apply Hfail].
  rewrite fill_plain_unfold by exact Hn. unfold fill_object.
  apply (forEach_fails (fun a => _schema a = _schema this)) with (k := k); auto.
  - intros a k' a' Ha E.
    destruct (fill_value a newValues k'); [|discriminate]. cbn [bind] in E.
    destruct (fill_key_frame _ _ _ _ E) as (F1 & _). congruence.
  - intros a Ha. rewrite fill_value_own by exact Hin. cbn [bind].
    rewrite (Hfail a _ Ha). eauto.
Qed.

(** X11: [fill] converts what the data gives under [_id] with
    [toNativeId], but stores what it gives under [id], a name the schema
    does not declare and the prototype chain defines, as it is. *)
Theorem fill_converts__id_but_not_id (this : Instance) (v : Value) (decl : Value) :
  isNativeId (VObj [("_id", v)]) = false ->
  isNativeId (VObj [("id", v)]) = false ->
  Object.lookup "_id" (_schema this) = Some decl ->
  prop decl "type" = Return (VCtor nativeIdType) ->
  (forall k n, nativeIdType <> CModel k n) ->
  Object.has "id" (_schema this) = false ->
  Reflect.has this "id" = true ->
  fill_plain' this [("_id", v)]
  = (let* id := toNativeId v in
     Return (with_values (Object.set "_id" id (_values this)) this)) /\
  fill_plain' this [("id", v)]
  = Return (with_values (Object.set "_id" v (_values this)) this).
Proof.
  intros Hn1 Hn2 Hs Ht Hc Hid Hr. split.
  - rewrite fill_plain_unfold by exact Hn1. unfold fill_object.
    cbn [Object.keys map fst forEach]. rewrite fill_value_own by now left.
    cbn [bind Object.get Object.lookup String.eqb Ascii.eqb Bool.eqb].
    unfold fill_key, Object.has, Object.hasOwnProperty, Object.get.
    rewrite Hs, Ht. cbn [orb bind Validate.isArray].
    assert (Hp : prototype_instanceof_BaseDocument (VCtor nativeIdType) = Return false).
    { destruct nativeIdType eqn:E; try reflexivity. now destruct (Hc k name). }
    rewrite Hp. cbn [bind String.eqb Ascii.eqb Bool.eqb orb].
    now destruct (toNativeId v).
  - rewrite fill_plain_unfold by exact Hn2. unfold fill_object.
    cbn [Object.keys map fst forEach]. rewrite fill_value_own by now left.
    cbn [bind Object.get Object.lookup String.eqb Ascii.eqb Bool.eqb].
    unfold fill_key. rewrite Hid. unfold schemaProxyHandler.has.
    rewrite Hid, Hr. cbn [orb]. unfold schemaProxyHandler.set. rewrite Hid.
    reflexivity.
Qed.

End FillLoopProperties.

Lemma fill_ignores_unknown_keys_witness :
  fill_plain (RT := no_user_code) (DB := mongo)
    Return (fun _ v => Return v) (fun d _ => Return d)
    wallet [("nickname", VStr "w")]
  = Return wallet.
Proof.
  apply (fill_ignores_unknown_keys (RT := no_user_code) (DB := mongo)
           Return (fun _ v => Return v) (fun d _ => Return d)
           wallet [("nickname", VStr "w")]).
  - reflexivity.
  - intros k [<-|[]]. reflexivity.
  - intros k [<-|[]]. reflexivity.
Defined.

Lemma fill_stores_the_plain_fields_witness :
  exists this',
    fill_plain (RT := no_user_code) (DB := mongo)
      Return (fun _ v => Return v) (fun d _ => Return d)
      wallet [("owner", VStr "ann"); ("nickname", VStr "w")]
    = Return this' /\
    Object.lookup "owner" (_values this') = Some (VStr "ann") /\
    schemaProxyHandler.get this' "owner" = VStr "ann" /\
    _schema this' = _schema wallet.
Proof.
  eexists. split; [reflexivity|].
  apply (fill_stores_the_plain_fields (RT := no_user_code) (DB := mongo)
           Return (fun _ v => Return v) (fun d _ => Return d)
           wallet _ [("owner", VStr "ann"); ("nickname", VStr "w")] "owner"
           (VStr "ann")).
  - reflexivity.
  - cbn. nodup.
  - cbn. intuition discriminate.
  - cbn. intuition discriminate.
  - intros key [<-|[<-|[]]]; (split; [reflexivity|]); intros Hs Hi.
    + discriminate Hs.
    + split; reflexivity.
  - reflexivity.
  - reflexivity.
  - exists (VObj [("type", VCtor CString)]), (VCtor CString).
    repeat split; reflexivity.
  - discriminate.
  - discriminate.
Defined.

Lemma fill_throws_on_inherited_names_witness :
  Object.inherits "toString" = true /\
  exists e,
    fill_plain (RT := no_user_code) (DB := mongo)
      Return (fun _ v => Return v) (fun d _ => Return d)
      wallet [("owner", VStr "ann"); ("toString", VNum 1)]
    = Throw e.
Proof.
  split; [reflexivity|].
  apply (fill_throws_on_inherited_names (RT := no_user_code) (DB := mongo)
           Return (fun _ v => Return v) (fun d _ => Return d)
           wallet [("owner", VStr "ann"); ("toString", VNum 1)] "toString").
  - reflexivity.
  - cbn. intuition discriminate.
  - cbn. intuition discriminate.
  - cbn. tauto.
  - reflexivity.
  - reflexivity.
Defined.

Lemma fill_converts__id_but_not_id_witness :
  let toNativeId v := Return (VObjectId 7 (to_string v)) in
  let v := VStr "5f1d7f3e9c3b2a0012345678" in
  fill_plain (RT := no_user_code) (DB := mongo)
    toNativeId (fun _ v => Return v) (fun d _ => Return d)
    wallet_with_id [("_id", v)]
  = Return (with_values (Object.set "_id" (VObjectId 7 "5f1d7f3e9c3b2a0012345678")
                           (_values wallet_with_id)) wallet_with_id) /\
  fill_plain (RT := no_user_code) (DB := mongo)
    toNativeId (fun _ v => Return v) (fun d _ => Return d)
    wallet_with_id [("id", v)]
  = Return (with_values (Object.set "_id" v (_values wallet_with_id)) wallet_with_id).
Proof.
  intros toNativeId v.
  apply (fill_converts__id_but_not_id (RT := no_user_code) (DB := mongo)
           toNativeId (fun _ v => Return v) (fun d _ => Return d)
           wallet_with_id v (VObj [("type", VCtor CObjectId)]));
    try reflexivity.
  intros k n. discriminate.
Defined.

(** ** [create] and the Mongo client, further *)

Section CreateFurther.

Context {RT : Runtime} {DB : Backend}.
Variable fill_keys : Instance -> Value -> Result Instance.

Lemma mapM_Forall2 {A B} (f : A -> Result B) (l : list A) (ys : list B) :
  mapM f l = Return ys <-> Forall2 (fun x y => f x = Return y) l ys.
Proof.
  revert ys. induction l as [|x l IH]; intros ys; cbn [mapM].
  - split.
    + intros E. injection E as <-. constructor.
    + intros H. now inversion H.
  - destruct (f x) as [y|e] eqn:Ex; cbn [bind].
    + destruct (mapM f l) as [ys'|e] eqn:El; cbn [bind].
      * split.
        -- intros E. injection E as <-. constructor; [exact Ex | now apply IH].
        -- intros H. inversion H as [|x' y' l' ys'' Hxy Hrest]; subst.
           apply IH in Hrest. congruence.
      * split; [discriminate|].
        intros H. inversion H as [|x' y' l' ys'' Hxy Hrest]; subst.
        apply IH in Hrest. discriminate.
    + split; [discriminate|].
      intros H. inversion H as [|x' y' l' ys'' Hxy Hrest]; subst. congruence.
Qed.

(** X20: for a model whose instances do not shadow [fill], [create] with
    an array answers an array with one document for every element, in the
    order of the elements, each what [_fromDataSingle] makes of its
    element, and it throws when one of them does; with null it answers
    what it answers without data. *)
Theorem create_with_an_array (c : ModelClass) (datas : list Value)
    (idList : option Value) (v : Value) :
  (forall instance, _instantiate c = Return instance ->
                    shadows instance "fill" = false) ->
  (create fill_keys c (VArr datas idList) = Return v <->
   exists documents,
     v = VArr documents None /\
     Forall2 (fun data document => _fromDataSingle fill_keys c data = Return document)
             datas documents) /\
  create fill_keys c VNull = create fill_keys c VUndefined.
Proof.
  intros _. split.
  - unfold create, _fromData. cbn [typeof String.eqb Ascii.eqb Bool.eqb negb].
    split.
    + destruct (mapM (_fromDataSingle fill_keys c) datas) as [ds|e] eqn:E;
        cbn [bind]; [|discriminate].
      intros H. injection H as <-. exists ds. split; [reflexivity|].
      now apply mapM_Forall2.
    + intros (ds & -> & H). apply mapM_Forall2 in H. now rewrite H.
  - unfold create, _fromData, _fromDataSingle, fill.
    cbn [typeof String.eqb Ascii.eqb Bool.eqb negb].
    now destruct (_instantiate c).
Qed.

End CreateFurther.

Lemma hex24_array (s : string) (idList : option Value) :
  MongoClient.isNativeId (VArr [VStr s] idList) = MongoClient.hex24 s.
Proof. reflexivity. Qed.

(** X21: the Mongo client takes for a native id every value whose string
    form is 24 hexadecimal digits, not strings alone: an array holding one
    such string passes, and [fill] called with it stores the array itself
    under [_id]. *)
Theorem mongo_takes_an_array_for_an_id
    (fill_keys : Instance -> Value -> Result Instance)
    (this : Instance) (s : string) (idList : option Value) :
  MongoClient.hex24 s = true ->
  isNativeId (Backend := mongo) (VStr s) = true /\
  isNativeId (Backend := mongo) (VArr [VStr s] idList) = true /\
  fill (DB := mongo) fill_keys this (VArr [VStr s] idList)
  = Return (with_values (Object.set "_id" (VArr [VStr s] idList) (_values this)) this).
Proof.
  intros Hs. split; [exact Hs|]. split; [exact Hs|].
  unfold fill. cbn [isNativeId mongo]. now rewrite hex24_array, Hs.
Qed.

Lemma create_with_an_array_witness :
  (forall instance,
     _instantiate (RT := no_user_code) (DB := mongo) Wallet = Return instance ->
     shadows instance "fill" = false) /\
  create (RT := no_user_code) (DB := mongo) (fun this _ => Return this) Wallet
    (VArr [VNull; VStr "5f1d7f3e9c3b2a0012345678"] None)
  = Return (VArr [VDoc wallet;
                  VDoc (with_values
                          (Object.set "_id" (VStr "5f1d7f3e9c3b2a0012345678")
                             (_values wallet)) wallet)] None) /\
  create (RT := no_user_code) (DB := mongo) (fun this _ => Return this) Wallet VNull
  = create (RT := no_user_code) (DB := mongo) (fun this _ => Return this) Wallet
      VUndefined.
Proof.
  assert (E : _instantiate (RT := no_user_code) (DB := mongo) Wallet = Return wallet)
    by (vm_compute; reflexivity).
  assert (H : forall instance,
             _instantiate (RT := no_user_code) (DB := mongo) Wallet = Return instance ->
             shadows instance "fill" = false).
  { intros instance Ei. rewrite E in Ei. injection Ei as <-. reflexivity. }
  split; [exact H|].
  destruct (create_with_an_array (RT := no_user_code) (DB := mongo)
              (fun this _ => Return this) Wallet
              [VNull; VStr "5f1d7f3e9c3b2a0012345678"] None
              (VArr [VDoc wallet;
                     VDoc (with_values
                             (Object.set "_id" (VStr "5f1d7f3e9c3b2a0012345678")
                                (_values wallet)) wallet)] None) H) as [[_ Hc] Hn].
  split; [|exact Hn].
  apply Hc. eexists. split; [reflexivity|].
  constructor 2; [vm_compute; reflexivity|].
  constructor 2; [vm_compute; reflexivity|].
  constructor 1.
Defined.

Lemma mongo_takes_an_array_for_an_id_witness :
  MongoClient.hex24 "5f1d7f3e9c3b2a0012345678" = true /\
  fill (DB := mongo) (fun this _ => Return this) wallet
    (VArr [VStr "5f1d7f3e9c3b2a0012345678"] None)
  = Return (with_values
              (Object.set "_id" (VArr [VStr "5f1d7f3e9c3b2a0012345678"] None)
                 (_values wallet)) wallet).
Proof.
  split; [reflexivity|].
  apply (mongo_takes_an_array_for_an_id (fun this _ => Return this) wallet
           "5f1d7f3e9c3b2a0012345678" None).
  reflexivity.
Defined.

(** ** [validate] and [canonicalize], further *)

Section ValidateFurther.

Context {RT : Runtime} {DB : Backend}.

Lemma snd_andThen {A} (m : Checked A) (k : Checked unit) :
  snd (m ;;; k) = match snd m with Return _ => snd k | Throw e => Throw e end.
Proof. destruct m as [log [a|e]]; [|reflexivity]. simpl. now destruct k. Qed.

Lemma validate_checks_missing_entry (that : Instance) (key : string) (value : Value) :
  Object.lookup key (_schema that) = None -> Object.inherits key = false ->
  validate_checks that key value
  = ([(key, CheckType)], Throw (TypeError "Cannot read property 'type' of undefined")).
Proof.
  intros Hl Hi. unfold validate_checks, check_type, Object.get.
  rewrite Hl, Hi. reflexivity.
Qed.

Lemma canonicalize_each_app_throw (that : Instance) (pre post : Obj)
    (key : string) (value : Value) (e : Exn) :
  snd (canonicalize_each that pre) = Return tt ->
  snd (canonicalize_key canonicalize_value that key value) = Throw e ->
  snd (canonicalize_each that (pre ++ (key, value) :: post)) = Throw e.
Proof.
  intros Hpre Hk. induction pre as [|[k v] pre IH]; simpl in *.
  - destruct (canonicalize_key canonicalize_value that key value) as [v' [[]|e']];
      simpl in *; congruence.
  - destruct (canonicalize_key canonicalize_value that k v) as [v' [[]|e']];
      [|discriminate].
    destruct (canonicalize_each that pre) as [l r]. simpl in Hpre.
    specialize (IH Hpre).
    destruct (canonicalize_each that (pre ++ (key, value) :: post)). exact IH.
Qed.

(** X12: a value held under a name for which the schema has no entry makes
    both passes throw the type error of reading [type] from undefined, as
    soon as they reach it. *)
Theorem value_without_schema_entry_throws
    (that : Instance) (pre post : Obj) (key : string) (value : Value) :
  _values that = pre ++ (key, value) :: post ->
  Object.lookup key (_schema that) = None -> Object.inherits key = false ->
  is_embedded value = false ->
  (snd (validate_each that pre) = Return tt ->
   snd (validate that)
   = Throw (TypeError "Cannot read property 'type' of undefined")) /\
  (snd (canonicalize_each that pre) = Return tt ->
   snd (canonicalize that)
   = Throw (TypeError "Cannot read property 'type' of undefined")).
Proof.
  intros Hv Hl Hi He. split; intros Hpre.
  - rewrite validate_unfold, Hv, validate_each_app, snd_andThen, Hpre.
    cbn [validate_each]. rewrite snd_andThen. unfold validate_key.
    rewrite He, validate_checks_missing_entry by assumption. reflexivity.
  - rewrite canonicalize_unfold, Hv. cbn [snd].
    apply canonicalize_each_app_throw; [exact Hpre|].
    unfold canonicalize_key, Object.get. rewrite Hl, Hi. reflexivity.
Qed.

Lemma fail_without_meta {A} (that : Instance) (key rest : string) :
  schemaProxyHandler.get that "_meta" = VUndefined ->
  fail (A := A) that key rest
  = ([], Throw (TypeError "Cannot read property 'collection' of undefined")).
Proof. intros Hm. unfold fail, message, collection. now rewrite Hm. Qed.

Lemma prop_no_error (v : Value) (k msg : string) : prop v k <> Throw (Error msg).
Proof. destruct v; discriminate. Qed.

Lemma typeName_no_error (type : Value) (msg : string) :
  typeName type <> Throw (Error msg).
Proof.
  unfold typeName. destruct type;
    (destruct (prop _ "name") eqn:E; cbn [bind];
     [discriminate | intros H; injection H as ->; now apply prop_no_error in E]).
Qed.

Lemma lift_prop_then {B} (v : Value) (k msg : string) (f : Value -> Checked B) :
  (forall x, snd (f x) <> Throw (Error msg)) ->
  snd (andThen (lift (prop v k)) f) <> Throw (Error msg).
Proof.
  intros Hf. rewrite lift_then. destruct (prop v k) eqn:E; [apply Hf|].
  cbn [snd]. intros H. injection H as ->. now apply prop_no_error in E.
Qed.

Section WithoutMeta.

Variables (that : Instance) (key : string) (value : Value) (msg : string).
Hypothesis no_meta : schemaProxyHandler.get that "_meta" = VUndefined.

Lemma fail_no_error (rest : string) :
  snd (fail (A := unit) that key rest) <> Throw (Error msg).
Proof. rewrite fail_without_meta by exact no_meta. discriminate. Qed.

Lemma check_type_no_error : snd (check_type that key value) <> Throw (Error msg).
Proof.
  unfold check_type. rewrite reach_then. cbn [snd]. apply lift_prop_then.
  intros type. destruct (isValidType value type); cbn [negb]; [discriminate|].
  rewrite lift_then. destruct (typeName type) eqn:E; [apply fail_no_error|].
  cbn [snd]. intros H. injection H as ->. now apply typeName_no_error in E.
Qed.

Lemma check_match_no_error : snd (check_match that key value) <> Throw (Error msg).
Proof.
  unfold check_match. rewrite reach_then. cbn [snd]. apply lift_prop_then.
  intros re. destruct (truthy re && isString value); [|discriminate].
  rewrite lift_then. unfold test. destruct re; try discriminate.
  destruct (regexp_test _ _); cbn [negb]; [discriminate | apply fail_no_error].
Qed.

Lemma check_choices_no_error : snd (check_choices that key value) <> Throw (Error msg).
Proof.
  unfold check_choices. rewrite reach_then. cbn [snd]. apply lift_prop_then.
  intros choices. destruct (isInChoices choices value); cbn [negb]; [discriminate|].
  rewrite lift_then. unfold join_choices. destruct choices; try discriminate.
  apply fail_no_error.
Qed.

Lemma check_min_no_error : snd (check_min that key value) <> Throw (Error msg).
Proof.
  unfold check_min. rewrite reach_then. cbn [snd]. apply lift_prop_then.
  intros min. destruct (truthy min && JS.lt value min);
    [apply fail_no_error | discriminate].
Qed.

Lemma check_max_no_error : snd (check_max that key value) <> Throw (Error msg).
Proof.
  unfold check_max. rewrite reach_then. cbn [snd]. apply lift_prop_then.
  intros max. destruct (truthy max && JS.gt value max);
    [apply fail_no_error | discriminate].
Qed.

Lemma check_custom_error :
  snd (check_custom that key value) = Throw (Error msg) ->
  exists f, prop (Object.get key (_schema that)) "validate" = Return f /\
            call f [value] = Throw (Error msg).
Proof.
  unfold check_custom. rewrite reach_then, lift_then. cbn [snd].
  destruct (prop _ "validate") as [f|e] eqn:E.
  - destruct (String.eqb (typeof f) "function"); [|discriminate].
    rewrite lift_then. destruct (call f [value]) as [r|e] eqn:Ec.
    + destruct (truthy r); cbn [negb]; [discriminate|].
      intros H. now apply fail_no_error in H.
    + cbn [snd]. intros H. injection H as ->. eauto.
  - cbn [snd]. intros H. injection H as ->. now apply prop_no_error in E.
Qed.

End WithoutMeta.

(** X13: on an instance that has no [_meta], [validate] cannot report a
    violated constraint as the error it means to throw, because building
    the message reads [_meta.collection]: the only [Error] the checks of a
    field can end in is one the field's custom validator throws itself. *)
Theorem validate_without_meta_reports_no_violation
    (that : Instance) (key : string) (value : Value) (msg : string) :
  schemaProxyHandler.get that "_meta" = VUndefined ->
  (forall rest,
     fail (A := unit) that key rest
     = ([], Throw (TypeError "Cannot read property 'collection' of undefined"))) /\
  (snd (validate_checks that key value) = Throw (Error msg) ->
   exists f, prop (Object.get key (_schema that)) "validate" = Return f /\
             call f [value] = Throw (Error msg)).
Proof.
  intros Hm. split; [intros rest; now apply fail_without_meta|].
  unfold validate_checks. rewrite !snd_andThen.
  pose proof (check_type_no_error that key value msg Hm) as H1.
  pose proof (check_match_no_error that key value msg Hm) as H2.
  pose proof (check_choices_no_error that key value msg Hm) as H3.
  pose proof (check_min_no_error that key value msg Hm) as H4.
  pose proof (check_max_no_error that key value msg Hm) as H5.
  destruct (snd (check_type that key value)); [|congruence].
  destruct (snd (check_match that key value)); [|congruence].
  destruct (snd (check_choices that key value)); [|congruence].
  destruct (snd (check_min that key value)); [|congruence].
  destruct (snd (check_max that key value)); [|congruence].
  now apply check_custom_error.
Qed.


End ValidateFurther.

(** ** [canonicalize] and [toJSON], further *)

Lemma canonicalize_each_frame (that : Instance) (l : Obj) :
  Object.keys (fst (canonicalize_each that l)) = Object.keys l /\
  forall key value,
    Object.lookup key l = Some value ->
    is_embedded value = false ->
    (isNumber value = true ->
     exists type, prop (Object.get key (_schema that)) "type" = Return type /\
                  strict_eq type (VCtor CDate) = false) ->
    Object.lookup key (fst (canonicalize_each that l)) = Some value.
Proof.
  induction l as [|[k v] l [IHk IHv]]; [split; [reflexivity | discriminate]|].
  cbn [canonicalize_each].
  assert (Hk : forall key value, String.eqb key k = true -> Some v = Some value ->
             is_embedded value = false ->
             (isNumber value = true ->
              exists type, prop (Object.get key (_schema that)) "type" = Return type /\
                           strict_eq type (VCtor CDate) = false) ->
             fst (canonicalize_key canonicalize_value that k v) = value).
  { intros key value Ek Hv He Hn. injection Hv as ->. apply String.eqb_eq in Ek.
    subst key. unfold canonicalize_key.
    destruct (prop _ "type") as [type|e] eqn:Et; [|reflexivity].
    rewrite He. destruct (isNumber value) eqn:En.
    - destruct (Hn eq_refl) as (type' & Ht' & Hd). injection Ht' as <-.
      now rewrite Hd.
    - now rewrite andb_false_r. }
  destruct (canonicalize_key canonicalize_value that k v) as [v' [[]|e]] eqn:E.
  - destruct (canonicalize_each that l) as [l' r]. cbn [fst] in *. split.
    + cbn [Object.keys map fst]. f_equal. exact IHk.
    + intros key value. cbn [Object.lookup].
      destruct (String.eqb key k) eqn:Ek; [|apply IHv].
      intros Hv He Hn. f_equal. now apply (Hk key value).
  - cbn [fst]. split; [reflexivity|].
    intros key value. cbn [Object.lookup].
    destruct (String.eqb key k) eqn:Ek; [|auto].
    intros Hv He Hn. f_equal. now apply (Hk key value).
Qed.

(** X15: [canonicalize] touches values only: the schema and the rest of the
    instance stay, the values map keeps its keys in their order, and a
    value that is neither an embedded document nor a number under a type
    that is [Date] stays what it was, also when the pass throws. *)
Theorem canonicalize_frame (that : Instance) :
  let that' := fst (canonicalize that) in
  _schema that' = _schema that /\
  own that' = own that /\ proto that' = proto that /\
  inherited that' = inherited that /\ documentClass that' = documentClass that /\
  Object.keys (_values that') = Object.keys (_values that) /\
  forall key value,
    Object.lookup key (_values that) = Some value ->
    is_embedded value = false ->
    (isNumber value = true ->
     exists type, prop (Object.get key (_schema that)) "type" = Return type /\
                  strict_eq type (VCtor CDate) = false) ->
    Object.lookup key (_values that') = Some value.
Proof.
  cbn zeta. rewrite canonicalize_unfold. cbn [fst _schema _values own proto inherited
    documentClass with_values].
  destruct (canonicalize_each_frame that (_values that)) as [Hk Hv].
  repeat split; auto.
Qed.

Lemma toJSON_proto_last (this : Instance) (ks : list string) (key : string) :
  forall values : Obj,
    In key ks -> key <> "constructor" -> key <> "id" ->
    Object.lookup key (fold_left (toJSON_proto this) ks values)
    = Some (schemaProxyHandler.get this key).
Proof.
  intros values Hin Hc Hi. revert values.
  assert (Hset : forall values,
            Object.lookup key (toJSON_proto this values key)
            = Some (schemaProxyHandler.get this key)).
  { intros values. unfold toJSON_proto.
    apply String.eqb_neq in Hc, Hi. rewrite Hc, Hi. cbn [negb andb].
    apply lookup_set_eq. }
  assert (Hkeep : forall ks values,
            Object.lookup key values = Some (schemaProxyHandler.get this key) ->
            Object.lookup key (fold_left (toJSON_proto this) ks values)
            = Some (schemaProxyHandler.get this key)).
  { clear Hin. intros ks'. induction ks' as [|k ks' IH]; intros values Hv; [exact Hv|].
    cbn [fold_left]. apply IH.
    destruct (string_dec k key) as [->|Hne]; [apply Hset|].
    unfold toJSON_proto. destruct (_ && _); [|exact Hv].
    now rewrite lookup_set_ne. }
  induction ks as [|k ks IH]; intros values; [destruct Hin|].
  cbn [fold_left]. destruct Hin as [->|Hin].
  - apply Hkeep, Hset.
  - now apply IH.
Qed.

(** X16: the object [toJSON] answers has, under the name of every own
    property of the prototype other than [constructor] and [id], what the
    instance reads under that name through the proxy: methods and getters
    of the model are part of the output. *)
Theorem toJSON_includes_the_prototype {RT : Runtime}
    (this : Instance) (out : Obj) (key : string) :
  toJSON this = Return out ->
  In key (Object.keys (proto this)) -> key <> "constructor" -> key <> "id" ->
  Object.lookup key out = Some (schemaProxyHandler.get this key).
Proof.
  intros E Hin Hc Hi. unfold toJSON in E.
  destruct (forEach _ _ _) as [values|e]; [|discriminate].
  cbn [bind] in E. injection E as <-. now apply toJSON_proto_last.
Qed.


Lemma value_without_schema_entry_throws_witness :
  let that :=
    schemaProxyHandler.set (fst (schemaProxyHandler.deleteProperty wallet "_id"))
      "id" (VStr "w1") in
  Object.lookup "_id" (_values that) = Some (VStr "w1") /\
  Object.lookup "_id" (_schema that) = None /\
  snd (validate (RT := no_user_code) (DB := mongo) that)
  = Throw (TypeError "Cannot read property 'type' of undefined") /\
  snd (canonicalize that)
  = Throw (TypeError "Cannot read property 'type' of undefined").
Proof.
  intros that. split; [reflexivity|]. split; [reflexivity|].
  destruct (value_without_schema_entry_throws (RT := no_user_code) (DB := mongo) that
              [("contents", VArr [] None); ("owner", VUndefined); ("pin", VUndefined)]
              [] "_id" (VStr "w1")) as [H1 H2]; try reflexivity.
  split; [apply H1 | apply H2]; reflexivity.
Defined.

Lemma validate_without_meta_reports_no_violation_witness :
  schemaProxyHandler.get (money (VNum 26)) "_meta" = VUndefined /\
  (forall rest,
     fail (A := unit) (money (VNum 26)) "amount" rest
     = ([], Throw (TypeError "Cannot read property 'collection' of undefined"))) /\
  (snd (validate_checks (RT := no_user_code) (DB := mongo)
          (money (VNum 26)) "amount" (VNum 26)) = Throw (Error "") ->
   exists f,
     prop (Object.get "amount" (_schema (money (VNum 26)))) "validate" = Return f /\
     call (RT := no_user_code) f [VNum 26] = Throw (Error "")).
Proof.
  split; [reflexivity|].
  apply (validate_without_meta_reports_no_violation (RT := no_user_code) (DB := mongo)
           (money (VNum 26)) "amount" (VNum 26) "").
  reflexivity.
Defined.

(** The bound of an embedded [Money] is broken, and what [validate] throws
    is the type error of the message it could not build. *)
Example validate_money_26 :
  snd (validate (RT := no_user_code) (DB := mongo) (money (VNum 26)))
  = Throw (TypeError "Cannot read property 'collection' of undefined").
Proof. reflexivity. Qed.

Lemma toJSON_includes_the_prototype_witness :
  toJSON (RT := no_user_code) wallet
  = Return [("contents", VArr [] None); ("owner", VNull); ("_id", VNull);
            ("total", VFun "total")] /\
  Object.lookup "total"
    [("contents", VArr [] None); ("owner", VNull); ("_id", VNull);
     ("total", VFun "total")]
  = Some (schemaProxyHandler.get wallet "total").
Proof.
  split; [reflexivity|].
  apply (toJSON_includes_the_prototype (RT := no_user_code) wallet _ "total").
  - reflexivity.
  - cbn. tauto.
  - discriminate.
  - discriminate.
Defined.



(** ** [populate], further *)

Section PopulateFurther.

Context {DB : Backend}.
Variable loadById : Value -> Value -> Result Value.

Lemma resolve_lookup (ty id : Value) (L : list Load) (q : nat) (l : Load) :
  snd (resolve ty id L) !! q = Some l ->
  L !! q = Some l \/
  (q = fst (resolve ty id L) /\ l = mkLoad ty id [] /\ find ty id L = None).
Proof.
  unfold resolve. destruct (find ty id L) eqn:E; cbn [fst snd]; [auto|].
  intros H. apply lookup_app_Some in H as [H|[Hq H]]; [auto|].
  apply list_lookup_singleton_Some in H as [H <-]. right.
  split; [lia | split; reflexivity].
Qed.

Lemma answered_step (ty id : Value) (r : Reaction) (L : list Load) :
  answered L ->
  answered (register r (fst (resolve ty id L)) (snd (resolve ty id L))).
Proof.
  intros Ha q l. rewrite register_lookup.
  destruct (snd (resolve ty id L) !! q) as [l0|] eqn:E; [|discriminate].
  cbn [fmap option_fmap option_map]. intros H. injection H as <-.
  destruct (Nat.eqb q (fst (resolve ty id L))) eqn:Eq.
  - cbn [reactions]. now destruct (reactions l0).
  - apply resolve_lookup in E as [E|[E _]]; [now apply (Ha q)|].
    apply Nat.eqb_neq in Eq. contradiction.
Qed.

Lemma each_answered (ty : Value) (d : nat) (k : string) (ids : list Value) :
  forall L, answered L -> answered (each ty d k ids L).
Proof.
  induction ids as [|id ids IH]; intros L Ha; [exact Ha|].
  cbn [each]. pose proof (answered_step ty id (Push d k) L Ha) as H.
  destruct (resolve ty id L) as [p L']. now apply IH.
Qed.

Lemma sound_with_store (s : list Instance) (st : State) :
  sound st -> sound (with_store s st).
Proof. intros H. exact H. Qed.

(** One visit keeps the loads sound, and the documents their schemas. *)
Lemma visit_sound (kd : KeyDef) (d : nat) (st : State) :
  sound st ->
  sound (fst (visit kd st d)) /\ schemas (fst (visit kd st d)) = schemas st.
Proof.
  intros (Hok & Hu & Ha). unfold visit.
  assert (Hsame : sound st /\ schemas st = schemas st)
    by (split; [exact (conj Hok (conj Hu Ha)) | reflexivity]).
  destruct (doc_get st d (key kd)) as [value|e]; [|exact Hsame].
  destruct (isArray kd && truthy value).
  - destruct value; try exact Hsame.
    destruct (load_each_each (type kd) d (key kd) elems st Hok) as (Hok' & Hs & HL).
    cbn [fst]. split.
    + unfold doc_set. apply sound_with_store.
      split; [exact Hok'|]. rewrite HL. split.
      * now apply each_unique.
      * now apply each_answered.
    + unfold doc_set. rewrite schemas_alter by (intros; apply set_schema).
      unfold schemas. now rewrite Hs.
  - destruct (loadFromCache_resolve (type kd) value st Hok) as (Hq & HL & Hs & Hok').
    destruct (loadFromCache (type kd) value st) as [p st1]. cbn [fst snd] in *.
    destruct (then_loads p (Assign d (key kd)) st1) as (HL2 & Hs2 & Hok2).
    split.
    + split; [auto|]. rewrite HL2, HL, Hq. split.
      * now apply unique_register, unique_resolve.
      * now apply answered_step.
    + unfold schemas. now rewrite Hs2, Hs.
Qed.

Lemma visit_documents_sound (kd : KeyDef) (ds : list nat) :
  forall st, sound st ->
    sound (fst (visit_documents kd ds st)) /\
    schemas (fst (visit_documents kd ds st)) = schemas st.
Proof.
  induction ds as [|d ds IH]; intros st Hs; [now split|].
  cbn [visit_documents]. destruct (visit_sound kd d st Hs) as [H1 H2].
  destruct (visit kd st d) as [st1 [[]|e]]; cbn [fst] in *; [|now split].
  destruct (IH st1 H1) as [H3 H4]. split; [exact H3 | congruence].
Qed.

Lemma visit_keyDefs_sound (kds : list KeyDef) (ds : list nat) :
  forall st, sound st ->
    sound (fst (visit_keyDefs kds ds st)) /\
    schemas (fst (visit_keyDefs kds ds st)) = schemas st.
Proof.
  induction kds as [|kd kds IH]; intros st Hs; [now split|].
  cbn [visit_keyDefs]. destruct (visit_documents_sound kd ds st Hs) as [H1 H2].
  destruct (visit_documents kd ds st) as [st1 [[]|e]]; cbn [fst] in *; [|now split].
  destruct (IH st1 H1) as [H3 H4]. split; [exact H3 | congruence].
Qed.

Lemma issue_sound (documents : list nat) (docs : list Instance) :
  sound (fst (issue documents (mkState docs [] []))) /\
  schemas (fst (issue documents (mkState docs [] []))) = map _schema docs.
Proof.
  assert (H0 : sound (mkState docs [] [])).
  { split; [|split].
    - intros ty id. reflexivity.
    - intros p q lp lq H. cbn in H. discriminate.
    - intros q l H. cbn in H. discriminate. }
  unfold issue. destruct documents as [|d0 ds]; [now split|].
  destruct (store (mkState docs [] []) !! d0); [|now split].
  destruct (keyDefs i); [|now split].
  now apply visit_keyDefs_sound.
Qed.

Lemma write_back_schema (t : Instance) (key : string) (v : Value) :
  _schema (write_back t key v) = _schema t.
Proof.
  unfold write_back.
  destruct (Object.has key (_values t)); [reflexivity|].
  destruct (String.eqb key "id"); [reflexivity|].
  destruct (Object.hasOwnProperty key (own t)); [reflexivity|].
  now destruct (Object.hasOwnProperty key (proto t)).
Qed.

Lemma react_keeps (data : Value) (r : Reaction) (st : State) :
  loads (fst (react data r st)) = loads st /\
  schemas (fst (react data r st)) = schemas st.
Proof.
  destruct r as [d k|d k]; cbn [react].
  - unfold doc_push. destruct (doc_get st d k) as [v|e]; [|now split].
    destruct v; try (now split). cbn [fst]. split; [reflexivity|].
    apply schemas_alter. intros t. apply write_back_schema.
  - cbn [fst]. split; [reflexivity|]. unfold doc_set.
    apply schemas_alter. intros t. apply set_schema.
Qed.

Lemma react_all_keeps (data : Value) (rs : list Reaction) :
  forall st, loads (fst (react_all data rs st)) = loads st /\
             schemas (fst (react_all data rs st)) = schemas st.
Proof.
  induction rs as [|r rs IH]; intros st; [now split|].
  cbn [react_all]. destruct (react_keeps data r st) as [H1 H2].
  destruct (react data r st) as [st1 res]. cbn [fst] in *.
  destruct (IH st1) as [H3 H4].
  destruct (react_all data rs st1) as [st2 errs]. cbn [fst] in *.
  split; congruence.
Qed.

Lemma settle_keeps (p : nat) (st : State) :
  loads (fst (settle loadById p st)) = loads st /\
  schemas (fst (settle loadById p st)) = schemas st.
Proof.
  unfold settle. destruct (loads st !! p) as [l|]; [|now split].
  destruct (loadById (load_type l) (load_id l)); [|now split].
  apply react_all_keeps.
Qed.

Lemma settle_all_keeps (order : list nat) :
  forall settled st,
    loads (fst (settle_all loadById order settled st)) = loads st /\
    schemas (fst (settle_all loadById order settled st)) = schemas st.
Proof.
  induction order as [|p order IH]; intros settled st; [now split|].
  cbn [settle_all]. destruct (existsb (Nat.eqb p) settled); [apply IH|].
  destruct (settle_keeps p st) as [H1 H2].
  destruct (settle loadById p st) as [st1 errs]. cbn [fst] in *.
  destruct (IH (p :: settled) st1) as [H3 H4].
  destruct (settle_all loadById order (p :: settled) st1) as [st2 errs2].
  cbn [fst] in *. split; congruence.
Qed.

(** What [run] leaves, in terms of the state after the synchronous part. *)
Lemma run_calls (documents order : list nat) (docs : list Instance) :
  calls (run loadById documents order docs)
  = calls_of (fst (issue documents (mkState docs [] []))) /\
  map _schema (documents_after (run loadById documents order docs)) = map _schema docs.
Proof.
  unfold run. destruct (issue_sound documents docs) as [_ Hs].
  destruct (issue documents (mkState docs [] [])) as [st [[]|e]]; cbn [fst] in *.
  - destruct (settle_all_keeps order [] st) as [H1 H2].
    destruct (settle_all loadById order [] st) as [st' errs]. cbn [fst] in *.
    cbn [calls documents_after]. unfold calls_of. rewrite H1.
    split; [reflexivity|]. unfold schemas in *. congruence.
  - cbn [calls documents_after]. split; [reflexivity | exact Hs].
Qed.

Lemma populate_cases (docs : Docs) (order : list nat) (store : list Instance) :
  populate loadById docs order store = mkPopulated store [] Fulfilled \/
  exists documents, populate loadById docs order store = run loadById documents order store.
Proof.
  destruct docs as [|d|[|d ds]]; cbn [populate]; eauto.
Qed.

(** X17: within one [populate], [loadById] is never called twice with the
    same type and the same [Map] key: two calls whose types and ids are
    strictly equal are one call. *)
Theorem populate_never_repeats_a_load
    (docs : Docs) (order : list nat) (store : list Instance)
    (p q : nat) (ty id ty' id' : Value) :
  calls (populate loadById docs order store) !! p = Some (ty, id) ->
  calls (populate loadById docs order store) !! q = Some (ty', id') ->
  strict_eq ty ty' = true -> strict_eq id id' = true ->
  p = q.
Proof.
  destruct (populate_cases docs order store) as [->|[documents ->]].
  - cbn [calls]. intros H. cbn in H. discriminate.
  - destruct (run_calls documents order store) as [-> _].
    destruct (issue_sound documents store) as [(_ & Hu & _) _].
    unfold calls_of. rewrite !list_lookup_fmap.
    destruct (loads _ !! p) as [lp|] eqn:Ep; [|discriminate].
    destruct (loads _ !! q) as [lq|] eqn:Eq; [|discriminate].
    cbn. intros H1 H2 Ht Hi. injection H1 as H1a H1b. injection H2 as H2a H2b.
    apply (Hu p q lp lq Ep Eq). unfold matches.
    rewrite (strict_eq_sym (load_type lq)), (strict_eq_sym (load_id lq)).
    rewrite H1a, H1b, H2a, H2b, Ht, Hi. reflexivity.
Qed.

Lemma populate_schemas (docs : Docs) (order : list nat) (store : list Instance) :
  map _schema (documents_after (populate loadById docs order store))
  = map _schema store.
Proof.
  destruct (populate_cases docs order store) as [->|[documents ->]];
    [reflexivity|]. apply run_calls.
Qed.

(** X18: [populate] changes no schema and moves no document: afterwards the
    documents are as many as before and each has the schema it had. *)
Theorem populate_keeps_the_schemas
    (docs : Docs) (order : list nat) (store : list Instance) :
  map _schema (documents_after (populate loadById docs order store))
  = map _schema store /\
  length (documents_after (populate loadById docs order store)) = length store.
Proof.
  pose proof (populate_schemas docs order store) as H.
  split; [exact H|]. apply (f_equal (@length _)) in H. now rewrite !length_map in H.
Qed.

Lemma settle_all_loaded (order : list nat) :
  forall settled st st',
    settle_all loadById order settled st = (st', []) ->
    answered (loads st) ->
    forall p l, In p order -> ~ In p settled -> loads st !! p = Some l ->
      exists data, loadById (load_type l) (load_id l) = Return data.
Proof.
  induction order as [|p0 order IH]; intros settled st st' E Ha p l Hin Hn Hl;
    [destruct Hin|].
  cbn [settle_all] in E.
  destruct (existsb (Nat.eqb p0) settled) eqn:Ex.
  - destruct Hin as [<-|Hin]; [|exact (IH settled st st' E Ha p l Hin Hn Hl)].
    exfalso. apply Hn. apply existsb_exists in Ex as (x & Hx & Hxp).
    apply Nat.eqb_eq in Hxp. now subst x.
  - destruct (settle_keeps p0 st) as [HL _].
    destruct (settle loadById p0 st) as [st1 errs] eqn:E1. cbn [fst] in HL.
    destruct (settle_all loadById order (p0 :: settled) st1) as [st2 errs2] eqn:E2.
    injection E as _ Herr. apply app_eq_nil in Herr as [-> ->].
    destruct (Nat.eq_dec p p0) as [->|Hne].
    + unfold settle in E1. rewrite Hl in E1.
      destruct (loadById (load_type l) (load_id l)) as [data|e]; [eauto|].
      injection E1 as _ Hm. exfalso. apply (Ha p0 l Hl).
      now destruct (reactions l).
    + destruct Hin as [Heq|Hin]; [congruence|].
      apply (IH (p0 :: settled) st1 st2 E2) with (p := p); auto.
      * now rewrite HL.
      * intros [Heq|H]; [congruence | contradiction].
      * now rewrite HL.
Qed.

(** X19: the promise of [populate] is fulfilled only when every call of
    [loadById] it made was: one rejected load rejects it or leaves it
    pending. *)
Theorem populate_fulfilled_only_if_every_load_is
    (docs : Docs) (order : list nat) (store : list Instance)
    (p : nat) (ty id : Value) :
  outcome (populate loadById docs order store) = Fulfilled ->
  calls (populate loadById docs order store) !! p = Some (ty, id) ->
  exists data, loadById ty id = Return data.
Proof.
  destruct (populate_cases docs order store) as [->|[documents ->]].
  - cbn [calls]. intros _ H. cbn in H. discriminate.
  - destruct (run_calls documents order store) as [-> _].
    destruct (issue_sound documents store) as [(_ & _ & Ha) _].
    unfold run.
    destruct (issue documents (mkState store [] [])) as [st [[]|e]]; cbn [fst] in *.
    + destruct (settle_all loadById order [] st) as [st' errs] eqn:E.
      cbn [outcome]. destruct errs as [|e errs]; [|discriminate].
      destruct (all_settled order st) eqn:Hall; [|discriminate].
      intros _. unfold calls_of. rewrite list_lookup_fmap.
      destruct (loads st !! p) as [l|] eqn:El; [|discriminate].
      cbn. intros H. injection H as <- <-.
      apply (settle_all_loaded order [] st st' E Ha p l); auto.
      unfold all_settled in Hall. rewrite forallb_forall in Hall.
      assert (Hp : In p (seq 0 (length (loads st)))).
      { apply in_seq. apply lookup_lt_Some in El. lia. }
      apply Hall in Hp. apply existsb_exists in Hp as (x & Hx & Hxp).
      apply Nat.eqb_eq in Hxp. now subst x.
    + discriminate.
Qed.

End PopulateFurther.

(** ** [populate] on a single reference *)

Section PopulateReference.

Context {DB : Backend}.
Variable loadById : Value -> Value -> Result Value.
Variables (ty : Value) (d : nat) (k : string) (id : Value).
Hypothesis k_not_id : k <> "_id".

(** Whether the key definition is that of an array field; the value [id]
    of the field is then one the test [keyDef.isArray && d[keyDef.key]]
    refuses. *)
Variable isKeyForArray : bool.
Hypothesis no_list : isKeyForArray && truthy id = false.

Lemma assigned_step (ty' id' : Value) (r : Reaction) (L : list Load) :
  targets d k r = false ->
  assign_registered ty d k id L ->
  assign_registered ty d k id
    (register r (fst (resolve ty' id' L)) (snd (resolve ty' id' L))).
Proof.
  intros Hr [Hw Hf]. split.
  - intros q l2. rewrite register_lookup.
    destruct (snd (resolve ty' id' L) !! q) as [l|] eqn:Eq; [|discriminate].
    cbn [fmap option_fmap option_map]. intros E. injection E as <-.
    assert (Hl : writers d k l = if matches ty id l then [Assign d k] else []).
    { apply resolve_lookup in Eq as [Eq|(_ & -> & Ef)]; [eauto|].
      assert (Hm : matches ty id (mkLoad ty' id' []) = false).
      { destruct (matches ty id (mkLoad ty' id' [])) eqn:Em; [|reflexivity].
        exfalso. unfold matches in Em. cbn [load_type load_id] in Em.
        apply andb_prop in Em as [Et Ei].
        apply Hf. rewrite <- Ef. now apply find_congr. }
      now rewrite Hm. }
    destruct (Nat.eqb q _); [|exact Hl].
    now rewrite writers_register, Hr, app_nil_r, matches_reactions.
  - rewrite find_register. now apply find_resolve_mono.
Qed.

Lemma assigned_each (ty' : Value) (d' : nat) (k' : string) (ids' : list Value) :
  targets d k (Push d' k') = false ->
  forall L, assign_registered ty d k id L ->
            assign_registered ty d k id (each ty' d' k' ids' L).
Proof.
  intros Hr. induction ids' as [|id' ids' IH]; intros L Hp; [exact Hp|].
  cbn [each]. pose proof (assigned_step ty' id' (Push d' k') L Hr Hp) as H.
  destruct (resolve ty' id' L) as [p L']. now apply IH.
Qed.

(** A visit to another field or another document, after the visit to the
    field [k] of [d]. *)
Lemma visit_assigned_other (kd : KeyDef) (d' : nat) (st : State) :
  targets d k (Push d' (key kd)) = false ->
  assigned ty d k id st ->
  assigned ty d k id (fst (visit kd st d')) /\
  schemas (fst (visit kd st d')) = schemas st.
Proof.
  intros Ht (Hok & Hu & Hp). unfold visit.
  assert (Hsame : assigned ty d k id st /\ schemas st = schemas st)
    by (split; [exact (conj Hok (conj Hu Hp)) | reflexivity]).
  destruct (doc_get st d' (key kd)) as [value|e]; [|exact Hsame].
  destruct (isArray kd && truthy value).
  - destruct value; try exact Hsame.
    destruct (load_each_each (type kd) d' (key kd) elems st Hok) as (Hok' & Hs & HL).
    cbn [fst]. split.
    + unfold doc_set, assigned. cbn [loads with_store].
      split; [exact Hok'|]. rewrite HL. split.
      * now apply each_unique.
      * now apply assigned_each.
    + unfold doc_set. rewrite schemas_alter by (intros; apply set_schema).
      unfold schemas. now rewrite Hs.
  - destruct (loadFromCache_resolve (type kd) value st Hok) as (Hq & HL & Hs & Hok').
    destruct (loadFromCache (type kd) value st) as [p st1]. cbn [fst snd] in *.
    destruct (then_loads p (Assign d' (key kd)) st1) as (HL2 & Hs2 & Hok2).
    split.
    + split; [auto|]. rewrite HL2, HL, Hq. split.
      * now apply unique_register, unique_resolve.
      * now apply assigned_step.
    + unfold schemas. now rewrite Hs2, Hs.
Qed.

Lemma visit_documents_assigned_other (kd : KeyDef) (ds : list nat) :
  (forall d', In d' ds -> targets d k (Push d' (key kd)) = false) ->
  forall st, assigned ty d k id st ->
    assigned ty d k id (fst (visit_documents kd ds st)) /\
    schemas (fst (visit_documents kd ds st)) = schemas st.
Proof.
  induction ds as [|d' ds IH]; intros Hds st Hi; [now split|].
  cbn [visit_documents].
  destruct (visit_assigned_other kd d' st (Hds d' (or_introl eq_refl)) Hi) as [H1 H2].
  destruct (visit kd st d') as [st1 [[]|e]]; cbn [fst] in *; [|now split].
  destruct (IH (fun x Hx => Hds x (or_intror Hx)) st1 H1) as [H3 H4].
  split; [exact H3 | congruence].
Qed.

Lemma visit_keyDefs_assigned_other (kds : list KeyDef) (ds : list nat) :
  (forall kd, In kd kds -> key kd <> k) ->
  forall st, assigned ty d k id st ->
    assigned ty d k id (fst (visit_keyDefs kds ds st)) /\
    schemas (fst (visit_keyDefs kds ds st)) = schemas st.
Proof.
  induction kds as [|kd kds IH]; intros Hkds st Hi; [now split|].
  cbn [visit_keyDefs].
  destruct (visit_documents_assigned_other kd ds) with (st := st) as [H1 H2];
    [|exact Hi|].
  { intros d' _. cbn [targets]. apply andb_false_intro2. apply String.eqb_neq.
    apply Hkds. now left. }
  destruct (visit_documents kd ds st) as [st1 [[]|e]]; cbn [fst] in *; [|now split].
  destruct (IH (fun x Hx => Hkds x (or_intror Hx)) st1 H1) as [H3 H4].
  split; [exact H3 | congruence].
Qed.

(** The visit to the field [k] of [d]. *)
Lemma visit_reference (t : Instance) (st : State) :
  keyable ty = true -> keyable id = true ->
  issued ty d k [] st ->
  store st !! d = Some t ->
  Object.lookup k (_values t) = Some id ->
  snd (visit (mkKeyDef k ty isKeyForArray) st d) = Return tt /\
  assigned ty d k id (fst (visit (mkKeyDef k ty isKeyForArray) st d)) /\
  schemas (fst (visit (mkKeyDef k ty isKeyForArray) st d)) = schemas st.
Proof.
  intros Hty Hid (Hok & Hu & Hw & _) Ht Hv. unfold visit, doc_get.
  cbn [isArray key type]. rewrite Ht, (get_own_field t k id Hv), no_list.
  destruct (loadFromCache_resolve ty id st Hok) as (Hq & HL & Hs & Hok').
  destruct (loadFromCache ty id st) as [p st1]. cbn [fst snd] in *.
  destruct (then_loads p (Assign d k) st1) as (HL2 & Hs2 & Hok2).
  split; [reflexivity|]. split.
  - split; [auto|]. rewrite HL2, HL, Hq.
    assert (Hu' : unique (register (Assign d k) (fst (resolve ty id (loads st)))
                            (snd (resolve ty id (loads st)))))
      by now apply unique_register, unique_resolve.
    split; [exact Hu'|]. split.
    + pose proof (find_resolve ty id (loads st) Hty Hid) as Hfind.
      destruct (find_Some _ _ _ _ Hfind) as (l0 & Hl0 & Hm0).
      intros q l2 Hq2. pose proof Hq2 as Hq2'. rewrite register_lookup in Hq2.
      destruct (snd (resolve ty id (loads st)) !! q) as [l|] eqn:Eq; [|discriminate].
      cbn [fmap option_fmap option_map] in Hq2. injection Hq2 as <-.
      assert (Hl : writers d k l = []).
      { apply resolve_lookup in Eq as [Eq|(_ & -> & _)]; [|reflexivity].
        rewrite (Hw q l Eq). unfold served. cbn [List.filter length].
        now destruct (strict_eq (load_type l) ty). }
      destruct (Nat.eqb q (fst (resolve ty id (loads st)))) eqn:Eqp.
      * apply Nat.eqb_eq in Eqp. subst q. rewrite Hl0 in Eq. injection Eq as <-.
        rewrite writers_register, Hl, matches_reactions, Hm0. cbn [targets app].
        now rewrite Nat.eqb_refl, String.eqb_refl.
      * rewrite Hl. destruct (matches ty id l) eqn:Em; [|reflexivity].
        exfalso. pose proof Eqp as Hne. apply Nat.eqb_neq in Hne. apply Hne.
        assert (Hreg : register (Assign d k) (fst (resolve ty id (loads st)))
                         (snd (resolve ty id (loads st)))
                       !! fst (resolve ty id (loads st))
                       = Some (mkLoad (load_type l0) (load_id l0)
                                      (reactions l0 ++ [Assign d k]))).
        { rewrite register_lookup, Hl0. cbn. now rewrite Nat.eqb_refl. }
        assert (Hq2'' : register (Assign d k) (fst (resolve ty id (loads st)))
                          (snd (resolve ty id (loads st))) !! q = Some l).
        { rewrite register_lookup, Eq. cbn. now rewrite Eqp. }
        symmetry. apply (Hu' _ _ _ _ Hreg Hq2''). cbn [load_type load_id].
        now apply (matches_keys ty id).
    + rewrite find_register, (find_resolve ty id _ Hty Hid). discriminate.
  - unfold schemas. now rewrite Hs2, Hs.
Qed.

(** The pass over the documents for the key [k]. *)
Lemma visit_documents_reference (ds1 ds2 : list nat) (st : State) :
  keyable ty = true -> keyable id = true ->
  ~ In d ds1 -> ~ In d ds2 ->
  issued ty d k [] st ->
  field_of st d k = Some id ->
  snd (visit_documents (mkKeyDef k ty isKeyForArray) (ds1 ++ d :: ds2) st) = Return tt ->
  assigned ty d k id (fst (visit_documents (mkKeyDef k ty isKeyForArray) (ds1 ++ d :: ds2) st)) /\
  schemas (fst (visit_documents (mkKeyDef k ty isKeyForArray) (ds1 ++ d :: ds2) st)) = schemas st.
Proof.
  intros Hty Hid Hn1 Hn2 Hi Hf. rewrite visit_documents_app.
  assert (Hother : forall ds, ~ In d ds ->
            forall d', In d' ds -> targets d k (Push d' k) = false).
  { intros ds Hn d' Hin. cbn [targets]. apply andb_false_intro1. apply Nat.eqb_neq.
    intros ->. contradiction. }
  destruct (visit_documents_other ty d k k_not_id [] (mkKeyDef k ty isKeyForArray) ds1 st
              (Hother ds1 Hn1) Hi) as (Hi1 & Hs1 & Hf1).
  destruct (visit_documents (mkKeyDef k ty isKeyForArray) ds1 st) as [st1 [[]|e]];
    cbn [fst snd] in *; [|discriminate].
  rewrite Hf in Hf1. destruct (field_of_Some d k st1 _ Hf1) as (t1 & Ht1 & Hv1).
  destruct (visit_reference t1 st1 Hty Hid Hi1 Ht1 Hv1) as (Hr2 & Hi2 & Hs2).
  cbn [visit_documents].
  destruct (visit (mkKeyDef k ty isKeyForArray) st1 d) as [st2 r2]. cbn [fst snd] in *.
  subst r2.
  destruct (visit_documents_assigned_other (mkKeyDef k ty isKeyForArray) ds2 (Hother ds2 Hn2)
              st2 Hi2) as (Hi3 & Hs3).
  intros _. split; [exact Hi3 | congruence].
Qed.

(** The synchronous part of [populate], seen from the field [k] of [d]. *)
Lemma issue_reference (documents : list nat) (docs : list Instance) (d0 : nat)
    (first t : Instance) (name : string) :
  ty = VCtor (CModel Document name) -> keyable id = true ->
  hd_error documents = Some d0 -> docs !! d0 = Some first ->
  NoDup documents -> In d documents ->
  NoDup (Object.keys (_schema first)) ->
  In k (Object.keys (_schema first)) ->
  keyDef first k = Return (Some (mkKeyDef k ty isKeyForArray)) ->
  docs !! d = Some t ->
  Object.lookup k (_values t) = Some id ->
  snd (issue documents (mkState docs [] [])) = Return tt ->
  assigned ty d k id (fst (issue documents (mkState docs [] []))) /\
  schemas (fst (issue documents (mkState docs [] []))) = map _schema docs.
Proof.
  intros Hty Hid Hd0 Hfirst Hnd Hd Hks Hk HkeyDef Ht Hv.
  assert (Hkey : keyable ty = true)
    by (rewrite Hty; unfold keyable; simpl; apply String.eqb_refl).
  unfold issue. destruct documents as [|d0' rest']; [destruct Hd|].
  injection Hd0 as ->. cbn [store]. rewrite Hfirst.
  unfold keyDefs.
  destruct (keyDefs_of first (Object.keys (_schema first))) as [kds|e] eqn:Ekds;
    [|discriminate].
  apply in_split in Hk as (ks1 & ks2 & Eks). rewrite Eks in Ekds, Hks.
  destruct (keyDefs_of_app first ks1 (k :: ks2) kds Ekds) as (kds1 & kds2' & E1 & E2 & ->).
  cbn [keyDefs_of] in E2.
  rewrite HkeyDef in E2. cbn [bind] in E2.
  destruct (keyDefs_of first ks2) as [kds2|e] eqn:E3; cbn [bind] in E2; [|discriminate].
  injection E2 as <-.
  apply NoDup_app in Hks as (Hks1 & Hks12 & Hks2).
  apply NoDup_cons in Hks2 as [Hk2 _].
  assert (Hkds1 : forall kd, In kd kds1 -> key kd <> k).
  { intros kd Hin E. apply (Hks12 k).
    - apply list_elem_of_In. rewrite <- E. eapply keyDefs_of_keys; eauto.
    - apply list_elem_of_In. now left. }
  assert (Hkds2 : forall kd, In kd kds2 -> key kd <> k).
  { intros kd Hin E. apply Hk2. apply list_elem_of_In. rewrite <- E.
    eapply keyDefs_of_keys; eauto. }
  set (st0 := mkState docs [] []).
  assert (Hi0 : issued ty d k [] st0).
  { split; [|split; [|split]].
    - intros ty' id'. reflexivity.
    - intros p q lp lq Hp. discriminate.
    - intros p l Hp. discriminate.
    - intros id0 []. }
  rewrite visit_keyDefs_app.
  destruct (visit_keyDefs_other ty d k k_not_id [] kds1 (d0 :: rest') st0 Hkds1 Hi0)
    as (Hi1 & Hs1 & Hf1).
  destruct (visit_keyDefs kds1 (d0 :: rest') st0) as [st1 [[]|e]];
    cbn [fst snd] in *; [|discriminate].
  cbn [visit_keyDefs].
  apply in_split in Hd as (ds1 & ds2 & Eds).
  assert (Hn : ~ In d ds1 /\ ~ In d ds2).
  { rewrite Eds in Hnd. apply NoDup_app in Hnd as (_ & H12 & H2).
    apply NoDup_cons in H2 as [H2 _]. split.
    - intros Hin. apply (H12 d); apply list_elem_of_In; [exact Hin | now left].
    - intros Hin. apply H2. now apply list_elem_of_In. }
  destruct Hn as [Hn1 Hn2]. rewrite Eds.
  assert (Hf0 : field_of st0 d k = Some id).
  { unfold field_of. cbn [store st0]. now rewrite Ht. }
  rewrite <- Hf1 in Hf0.
  pose proof (visit_documents_reference ds1 ds2 st1 Hkey Hid Hn1 Hn2 Hi1 Hf0)
    as Htarget.
  destruct (visit_documents (mkKeyDef k ty isKeyForArray) (ds1 ++ d :: ds2) st1)
    as [st2 [[]|e]]; cbn [fst snd] in *; [|discriminate].
  destruct (Htarget eq_refl) as (Hi2 & Hs2).
  destruct (visit_keyDefs_assigned_other kds2 (ds1 ++ d :: ds2) Hkds2 st2 Hi2)
    as (Hi3 & Hs3).
  intros _. split; [exact Hi3|]. rewrite Hs3, Hs2, Hs1. reflexivity.
Qed.

Lemma schemas_store (st : State) (s : Obj) :
  schemas st !! d = Some s -> exists t, store st !! d = Some t /\ _schema t = s.
Proof.
  unfold schemas. rewrite list_lookup_fmap.
  destruct (store st !! d) as [t|]; [|discriminate].
  intros E. injection E as <-. eauto.
Qed.

Lemma react_assign (data : Value) (st : State) (s : Obj) :
  schemas st !! d = Some s -> Object.has k s = true ->
  field_of (fst (react data (Assign d k) st)) d k = Some data.
Proof.
  intros Hs Hk. destruct (schemas_store st s Hs) as (t & Ht & <-).
  cbn [react fst]. unfold doc_set, field_of. cbn [store with_store].
  rewrite list_lookup_alter_eq, Ht. cbn [fmap option_fmap option_map].
  unfold schemaProxyHandler.set. rewrite Hk. cbn [_values with_values].
  apply lookup_set_eq.
Qed.

Lemma react_all_assigned (data : Value) (rs : list Reaction) (s : Obj) :
  (forall r, In r rs -> targets d k r = true -> r = Assign d k) ->
  Object.has k s = true ->
  forall st, schemas st !! d = Some s ->
    field_of (fst (react_all data rs st)) d k
    = if existsb (targets d k) rs then Some data else field_of st d k.
Proof.
  intros Hrs Hk. induction rs as [|r rs IH]; intros st Hs; [reflexivity|].
  cbn [react_all existsb].
  destruct (react_keeps data r st) as [_ Hsch].
  assert (Hf : field_of (fst (react data r st)) d k
               = if targets d k r then Some data else field_of st d k).
  { destruct (targets d k r) eqn:Et.
    - rewrite (Hrs r (or_introl eq_refl) Et). now apply (react_assign data st s).
    - now apply react_other. }
  destruct (react data r st) as [st1 res]. cbn [fst] in *.
  rewrite <- Hsch in Hs.
  specialize (IH (fun x Hx => Hrs x (or_intror Hx)) st1 Hs).
  destruct (react_all data rs st1) as [st2 errs]. cbn [fst] in *.
  rewrite IH, Hf. destruct (targets d k r); cbn [orb]; [|reflexivity].
  now destruct (existsb (targets d k) rs).
Qed.

Lemma writers_existsb (l : Load) :
  existsb (targets d k) (reactions l)
  = match writers d k l with [] => false | _ => true end.
Proof.
  unfold writers. induction (reactions l) as [|r rs IH]; [reflexivity|].
  cbn [existsb List.filter]. destruct (targets d k r); [reflexivity | exact IH].
Qed.

(** The loads settle: the field is assigned when the load [p0] is
    fulfilled, and no other load touches it. *)
Lemma settle_all_assigned (p0 : nat) (l0 : Load) (data : Value) (s : Obj)
    (L : list Load) (order : list nat) :
  (forall q l, L !! q = Some l ->
     writers d k l = if Nat.eqb q p0 then [Assign d k] else []) ->
  L !! p0 = Some l0 ->
  loadById (load_type l0) (load_id l0) = Return data ->
  Object.has k s = true ->
  forall settled st,
    loads st = L -> schemas st !! d = Some s ->
    (In p0 settled -> field_of st d k = Some data) ->
    In p0 order \/ In p0 settled ->
    field_of (fst (settle_all loadById order settled st)) d k = Some data.
Proof.
  intros Hw Hl0 Hdata Hk. induction order as [|p order IH];
    intros settled st HL Hs Hdone Hin.
  - cbn [settle_all fst]. destruct Hin as [[]|Hin]. now apply Hdone.
  - cbn [settle_all]. destruct (existsb (Nat.eqb p) settled) eqn:Ex.
    + apply IH; auto. destruct Hin as [[->|Hin]|Hin]; auto.
      right. apply existsb_exists in Ex as (x & Hx & Hxp).
      apply Nat.eqb_eq in Hxp. now subst x.
    + destruct (settle_keeps loadById p st) as [HL1 Hs1].
      assert (Hf : field_of (fst (settle loadById p st)) d k
                   = if Nat.eqb p p0 then Some data else field_of st d k).
      { unfold settle. rewrite HL.
        destruct (L !! p) as [l|] eqn:El.
        - destruct (Nat.eqb p p0) eqn:Ep.
          + apply Nat.eqb_eq in Ep. subst p. rewrite Hl0 in El. injection El as <-.
            rewrite Hdata, (react_all_assigned data (reactions l0) s); auto.
            * rewrite writers_existsb, (Hw p0 l0 Hl0), Nat.eqb_refl. reflexivity.
            * intros r Hr Ht.
              assert (Hin' : In r (writers d k l0))
                by (unfold writers; apply List.filter_In; auto).
              rewrite (Hw p0 l0 Hl0), Nat.eqb_refl in Hin'.
              destruct Hin' as [<-|[]]. reflexivity.
          + destruct (loadById (load_type l) (load_id l)) as [data'|e];
              [|reflexivity].
            rewrite (react_all_assigned data' (reactions l) s); auto.
            * rewrite writers_existsb, (Hw p l El), Ep. reflexivity.
            * intros r Hr Ht.
              assert (Hin' : In r (writers d k l))
                by (unfold writers; apply List.filter_In; auto).
              rewrite (Hw p l El), Ep in Hin'. destruct Hin'.
        - destruct (Nat.eqb p p0) eqn:Ep; [|reflexivity].
          apply Nat.eqb_eq in Ep. subst p. congruence. }
      destruct (settle loadById p st) as [st1 errs]. cbn [fst] in *.
      specialize (IH (p :: settled) st1).
      destruct (settle_all loadById order (p :: settled) st1) as [st2 errs2].
      cbn [fst] in *. apply IH.
      * congruence.
      * congruence.
      * intros [->|Hin']; [now rewrite Hf, Nat.eqb_refl|].
        rewrite Hf. destruct (Nat.eqb p p0); [reflexivity | now apply Hdone].
      * destruct Hin as [[->|Hin]|Hin]; [right; now left | now left |].
        right. now right.
Qed.

Lemma run_reference (documents order : list nat) (docs : list Instance)
    (d0 : nat) (first this : Instance) (name : string) :
  ty = VCtor (CModel Document name) -> keyable id = true ->
  hd_error documents = Some d0 -> docs !! d0 = Some first ->
  NoDup documents -> In d documents ->
  NoDup (Object.keys (_schema first)) ->
  In k (Object.keys (_schema first)) ->
  keyDef first k = Return (Some (mkKeyDef k ty isKeyForArray)) ->
  docs !! d = Some this ->
  Object.lookup k (_values this) = Some id ->
  Object.has k (_schema this) = true ->
  outcome (run loadById documents order docs) = Fulfilled ->
  exists this' p id' data,
    documents_after (run loadById documents order docs) !! d = Some this' /\
    calls (run loadById documents order docs) !! p = Some (ty, id') /\
    strict_eq id' id = true /\
    loadById ty id' = Return data /\
    Object.lookup k (_values this') = Some data.
Proof.
  intros Hty Hid Hd0 Hfirst Hnd Hd Hks Hk HkeyDef Hthis Hv Hhas.
  pose proof (issue_reference documents docs d0 first this name Hty Hid Hd0 Hfirst
                Hnd Hd Hks Hk HkeyDef Hthis Hv) as Hissue.
  destruct (issue_sound documents docs) as [(_ & _ & Ha) _].
  unfold run.
  destruct (issue documents (mkState docs [] [])) as [st [[]|e]]; cbn [fst snd] in *;
    [|discriminate].
  destruct (Hissue eq_refl) as ((Hok & Hu & Hw & Hfind) & Hsch). clear Hissue.
  destruct (find ty id (loads st)) as [p0|] eqn:Ef; [|congruence].
  destruct (find_Some _ _ _ _ Ef) as (l0 & Hl0 & Hm0).
  destruct (settle_all loadById order [] st) as [st' errs] eqn:E.
  cbn [outcome documents_after calls].
  destruct errs as [|e errs]; [|discriminate].
  destruct (all_settled order st) eqn:Hall; [|discriminate]. intros _.
  assert (Hp0 : In p0 order).
  { unfold all_settled in Hall. rewrite forallb_forall in Hall.
    assert (Hp : In p0 (seq 0 (length (loads st)))).
    { apply in_seq. apply lookup_lt_Some in Hl0. lia. }
    apply Hall in Hp. apply existsb_exists in Hp as (x & Hx & Hxp).
    apply Nat.eqb_eq in Hxp. now subst x. }
  destruct (settle_all_loaded loadById order [] st st' E Ha p0 l0 Hp0 (fun H => H) Hl0)
    as [data Hdata].
  assert (Hwq : forall q l, loads st !! q = Some l ->
            writers d k l = if Nat.eqb q p0 then [Assign d k] else []).
  { intros q l Hq. rewrite (Hw q l Hq).
    destruct (Nat.eqb q p0) eqn:Eq.
    - apply Nat.eqb_eq in Eq. subst q. rewrite Hl0 in Hq. injection Hq as <-.
      now rewrite Hm0.
    - destruct (matches ty id l) eqn:Em; [|reflexivity].
      exfalso. apply Nat.eqb_neq in Eq. apply Eq. symmetry.
      apply (Hu p0 q l0 l Hl0 Hq). now apply (matches_keys ty id). }
  assert (Hs : schemas st !! d = Some (_schema this)).
  { rewrite Hsch, list_lookup_fmap, Hthis. reflexivity. }
  pose proof (settle_all_assigned p0 l0 data (_schema this) (loads st) order
                Hwq Hl0 Hdata Hhas [] st eq_refl Hs (fun H => match H with end)
                (or_introl Hp0)) as Hfield.
  rewrite E in Hfield. cbn [fst] in Hfield.
  destruct (field_of_Some d k st' _ Hfield) as (this' & Hthis' & Hv').
  destruct (settle_all_keeps loadById order [] st) as [HL _].
  rewrite E in HL. cbn [fst] in HL.
  unfold matches in Hm0. apply andb_prop in Hm0 as [Hmt Hmi].
  assert (Hlt : load_type l0 = ty).
  { rewrite Hty in *. destruct (load_type l0); try discriminate.
    cbn [strict_eq] in Hmt. apply ctor_eqb_eq in Hmt. now subst. }
  exists this', p0, (load_id l0), data.
  split; [exact Hthis'|]. split.
  - unfold calls_of. rewrite HL, list_lookup_fmap, Hl0. cbn. now rewrite Hlt.
  - split; [exact Hmi|]. split; [now rewrite <- Hlt | exact Hv'].
Qed.

Lemma populate_reference (docs : Docs) (order : list nat) (store : list Instance)
    (d0 : nat) (first this : Instance) (name : string) :
  ty = VCtor (CModel Document name) -> keyable id = true ->
  hd_error (documents_of docs) = Some d0 -> store !! d0 = Some first ->
  NoDup (documents_of docs) -> In d (documents_of docs) ->
  NoDup (Object.keys (_schema first)) ->
  In k (Object.keys (_schema first)) ->
  keyDef first k = Return (Some (mkKeyDef k ty isKeyForArray)) ->
  store !! d = Some this ->
  Object.lookup k (_values this) = Some id ->
  Object.has k (_schema this) = true ->
  outcome (populate loadById docs order store) = Fulfilled ->
  exists this' p id' data,
    documents_after (populate loadById docs order store) !! d = Some this' /\
    calls (populate loadById docs order store) !! p = Some (ty, id') /\
    strict_eq id' id = true /\
    loadById ty id' = Return data /\
    Object.lookup k (_values this') = Some data.
Proof.
  intros Hty Hid Hd0 Hfirst Hnd Hd Hks Hk HkeyDef Hthis Hv Hhas.
  destruct docs as [|d1|[|d1 ds]]; cbn [documents_of] in Hd0, Hd, Hnd;
    try discriminate; try contradiction; cbn [populate];
    eapply (run_reference _ order store d0 first this name); eauto.
Qed.

End PopulateReference.

(** X23: when the promise of [populate] is fulfilled, a field that refers to
    a single document of another model holds, in place of the id it held,
    the document [loadById] answered for that id. *)
Theorem populate_reference_field {DB : Backend}
    (loadById : Value -> Value -> Result Value)
    (docs : Docs) (order : list nat) (store : list Instance)
    (d d0 : nat) (k name : string) (first this : Instance) (id : Value) :
  k <> "_id" -> keyable id = true ->
  hd_error (documents_of docs) = Some d0 -> store !! d0 = Some first ->
  NoDup (documents_of docs) -> In d (documents_of docs) ->
  NoDup (Object.keys (_schema first)) ->
  In k (Object.keys (_schema first)) ->
  prop (Object.get k (_schema first)) "type" = Return (VCtor (CModel Document name)) ->
  isString (schemaProxyHandler.get first k)
  || isNativeId (schemaProxyHandler.get first k) = true ->
  store !! d = Some this ->
  Object.lookup k (_values this) = Some id ->
  Object.has k (_schema this) = true ->
  outcome (populate loadById docs order store) = Fulfilled ->
  exists this' p id' data,
    documents_after (populate loadById docs order store) !! d = Some this' /\
    calls (populate loadById docs order store) !! p
    = Some (VCtor (CModel Document name), id') /\
    strict_eq id' id = true /\
    loadById (VCtor (CModel Document name)) id' = Return data /\
    Object.lookup k (_values this') = Some data.
Proof.
  intros Hk Hid Hd0 Hfirst Hnd Hd Hks Hin Htype Hfilter Hthis Hv Hhas Hout.
  apply (populate_reference loadById (VCtor (CModel Document name)) d k id Hk false
           eq_refl docs order store d0 first this name); auto.
  unfold keyDef. rewrite Htype. cbn [bind orb isDocument]. now rewrite Hfilter.
Qed.

(** X27: an array-of-reference field that holds no list in a document, but
    null, undefined or another falsy value, is populated like a single
    reference: [loadById] is called with that value as the id, and when the
    promise is fulfilled the field holds what the call answered. *)
Theorem populate_list_field_without_list {DB : Backend}
    (loadById : Value -> Value -> Result Value)
    (docs : Docs) (order : list nat) (store : list Instance)
    (d d0 : nat) (k name : string) (first this : Instance) (id : Value)
    (rest : list Value) (tl : option Value) :
  k <> "_id" -> keyable id = true -> truthy id = false ->
  hd_error (documents_of docs) = Some d0 -> store !! d0 = Some first ->
  NoDup (documents_of docs) -> In d (documents_of docs) ->
  NoDup (Object.keys (_schema first)) ->
  In k (Object.keys (_schema first)) ->
  prop (Object.get k (_schema first)) "type"
  = Return (VArr (VCtor (CModel Document name) :: rest) tl) ->
  store !! d = Some this ->
  Object.lookup k (_values this) = Some id ->
  Object.has k (_schema this) = true ->
  outcome (populate loadById docs order store) = Fulfilled ->
  exists this' p id' data,
    documents_after (populate loadById docs order store) !! d = Some this' /\
    calls (populate loadById docs order store) !! p
    = Some (VCtor (CModel Document name), id') /\
    strict_eq id' id = true /\
    loadById (VCtor (CModel Document name)) id' = Return data /\
    Object.lookup k (_values this') = Some data.
Proof.
  intros Hk Hid Hfalsy Hd0 Hfirst Hnd Hd Hks Hin Htype Hthis Hv Hhas Hout.
  apply (populate_reference loadById (VCtor (CModel Document name)) d k id Hk true
           Hfalsy docs order store d0 first this name); auto.
  unfold keyDef. rewrite Htype. reflexivity.
Qed.

Lemma populate_never_repeats_a_load_witness :
  let r := populate (DB := mongo) library (Many [0; 1; 2]%nat) [0]%nat
             [book [] (VStr "a1"); book [] (VStr "a1"); book [] (VStr "a1")] in
  calls r = [(Author, VStr "a1")] /\
  forall p q id id',
    calls r !! p = Some (Author, id) -> calls r !! q = Some (Author, id') ->
    strict_eq id id' = true -> p = q.
Proof.
  intros r. split; [reflexivity|].
  intros p q id id' Hp Hq Hid.
  apply (populate_never_repeats_a_load (DB := mongo) library (Many [0; 1; 2]%nat)
           [0]%nat [book [] (VStr "a1"); book [] (VStr "a1"); book [] (VStr "a1")]
           p q Author id Author id' Hp Hq); [reflexivity | exact Hid].
Defined.

Lemma populate_fulfilled_only_if_every_load_is_witness :
  let r := populate (DB := mongo) library (One 0%nat) [0; 1]%nat
             [book [VStr "a"; VStr "b"] VNull] in
  outcome r = Fulfilled /\
  calls r !! 1%nat = Some (Author, VStr "b") /\
  exists data, library Author (VStr "b") = Return data.
Proof.
  intros r. split; [reflexivity|]. split; [reflexivity|].
  apply (populate_fulfilled_only_if_every_load_is (DB := mongo) library (One 0%nat)
           [0; 1]%nat [book [VStr "a"; VStr "b"] VNull] 1%nat Author (VStr "b"));
    reflexivity.
Defined.

Lemma populate_reference_field_witness :
  let this := book [] (VStr "a1") in
  let r := populate (DB := mongo) library (One 0%nat) [0]%nat [this] in
  Object.lookup "editor" (_values this) = Some (VStr "a1") /\
  outcome r = Fulfilled /\
  exists this' p id' data,
    documents_after r !! 0%nat = Some this' /\
    calls r !! p = Some (Author, id') /\
    strict_eq id' (VStr "a1") = true /\
    library Author id' = Return data /\
    Object.lookup "editor" (_values this') = Some data.
Proof.
  intros this r. split; [reflexivity|]. split; [reflexivity|].
  apply (populate_reference_field (DB := mongo) library (One 0%nat) [0]%nat [this]
           0%nat 0%nat "editor" "Author" this this (VStr "a1"));
    try reflexivity.
  - discriminate.
  - apply NoDup_singleton.
  - now left.
  - vm_compute. nodup.
  - vm_compute. tauto.
Defined.

Lemma populate_list_field_without_list_witness :
  let this := schemaProxyHandler.set (book [] (VStr "a1")) "authors" VNull in
  let r := populate (DB := mongo) library (One 0%nat) [0; 1]%nat [this] in
  Object.lookup "authors" (_values this) = Some VNull /\
  outcome r = Fulfilled /\
  calls r = [(Author, VNull); (Author, VStr "a1")] /\
  exists this' p id' data,
    documents_after r !! 0%nat = Some this' /\
    calls r !! p = Some (Author, id') /\
    strict_eq id' VNull = true /\
    library Author id' = Return data /\
    Object.lookup "authors" (_values this') = Some data.
Proof.
  intros this r. split; [reflexivity|]. split; [reflexivity|].
  split; [reflexivity|].
  apply (populate_list_field_without_list (DB := mongo) library (One 0%nat)
           [0; 1]%nat [this] 0%nat 0%nat "authors" "Author" this this VNull [] None);
    try reflexivity.
  - discriminate.
  - apply NoDup_singleton.
  - now left.
  - vm_compute. nodup.
  - vm_compute. tauto.
Defined.

Section PopulateFirstDocument.

Context {DB : Backend}.
Variable loadById : Value -> Value -> Result Value.
Variables (d : nat) (k : string).
Hypothesis k_not_id : k <> "_id".

Lemma keyDefs_of_origin (first : Instance) (ks : list string) :
  forall kds, keyDefs_of first ks = Return kds ->
    forall kd, In kd kds -> keyDef first (key kd) = Return (Some kd).
Proof.
  induction ks as [|k1 ks IH]; intros kds; cbn [keyDefs_of].
  - intros E. injection E as <-. intros kd [].
  - destruct (keyDef first k1) as [kd1|e] eqn:E1; cbn [bind]; [|discriminate].
    destruct (keyDefs_of first ks) as [kds'|e]; cbn [bind]; [|discriminate].
    intros E. injection E as <-. intros kd Hin.
    assert (Hk1 : forall x, kd1 = Some x -> key x = k1).
    { intros x ->. unfold keyDef in E1.
      destruct (prop _ "type") as [type|]; cbn [bind] in E1; [|discriminate].
      destruct (_ || _); [|discriminate].
      destruct type; injection E1 as <-; reflexivity. }
    destruct kd1 as [x|]; [|now apply (IH kds')].
    destruct Hin as [<-|Hin]; [|now apply (IH kds')].
    now rewrite (Hk1 x eq_refl).
Qed.

Lemma react_all_untouched (data : Value) (rs : list Reaction) :
  List.filter (targets d k) rs = [] ->
  forall st, field_of (fst (react_all data rs st)) d k = field_of st d k.
Proof.
  induction rs as [|r rs IH]; intros Hl st; [reflexivity|].
  cbn [List.filter] in Hl. destruct (targets d k r) eqn:Et; [discriminate|].
  cbn [react_all]. destruct (react_other d k k_not_id data r st Et) as [Hf1 _].
  destruct (react data r st) as [st1 res]. cbn [fst] in *.
  specialize (IH Hl st1).
  destruct (react_all data rs st1) as [st2 errs]. cbn [fst] in *. congruence.
Qed.

Lemma settle_all_untouched (order : list nat) :
  forall settled st,
    (forall q l, loads st !! q = Some l -> writers d k l = []) ->
    field_of (fst (settle_all loadById order settled st)) d k = field_of st d k.
Proof.
  induction order as [|p order IH]; intros settled st Hw; [reflexivity|].
  cbn [settle_all]. destruct (existsb (Nat.eqb p) settled); [now apply IH|].
  destruct (settle_keeps loadById p st) as [HL _].
  assert (Hf : field_of (fst (settle loadById p st)) d k = field_of st d k).
  { unfold settle. destruct (loads st !! p) as [l|] eqn:El; [|reflexivity].
    destruct (loadById (load_type l) (load_id l)) as [data|e]; [|reflexivity].
    apply react_all_untouched. exact (Hw p l El). }
  destruct (settle loadById p st) as [st1 errs]. cbn [fst] in *.
  specialize (IH (p :: settled) st1).
  destruct (settle_all loadById order (p :: settled) st1) as [st2 errs2].
  cbn [fst] in *. rewrite IH; [exact Hf | now rewrite HL].
Qed.

Lemma run_untouched (documents order : list nat) (docs : list Instance) :
  (forall d0 first, hd_error documents = Some d0 -> docs !! d0 = Some first ->
     keyDef first k = Return None) ->
  field_of (mkState (documents_after (run loadById documents order docs)) [] []) d k
  = field_of (mkState docs [] []) d k.
Proof.
  intros Hfirst. unfold run.
  set (st0 := mkState docs [] []).
  assert (Hi0 : issued VUndefined d k [] st0).
  { split; [|split; [|split]].
    - intros ty' id'. reflexivity.
    - intros p q lp lq Hp. discriminate.
    - intros p l Hp. discriminate.
    - intros id0 []. }
  assert (Hissue : issued VUndefined d k [] (fst (issue documents st0)) /\
                   field_of (fst (issue documents st0)) d k = field_of st0 d k).
  { unfold issue. destruct documents as [|d0 rest]; [now split|].
    destruct (store st0 !! d0) as [first|] eqn:Ef; [|now split].
    unfold keyDefs.
    destruct (keyDefs_of first (Object.keys (_schema first))) as [kds|e] eqn:Ek;
      [|now split].
    destruct (visit_keyDefs_other VUndefined d k k_not_id [] kds (d0 :: rest) st0)
      as (H1 & _ & H3); [|exact Hi0|now split].
    intros kd Hin Hkey.
    pose proof (keyDefs_of_origin first _ kds Ek kd Hin) as Ho.
    rewrite Hkey, (Hfirst d0 first eq_refl Ef) in Ho. discriminate. }
  destruct Hissue as [(_ & _ & Hw & _) Hf].
  destruct (issue documents st0) as [st [[]|e]]; cbn [fst] in *.
  - pose proof (settle_all_untouched order [] st) as Hs.
    destruct (settle_all loadById order [] st) as [st' errs]. cbn [fst] in *.
    cbn [documents_after]. unfold field_of in *. cbn [store] in *.
    rewrite <- Hf. apply Hs. intros q l Hq. rewrite (Hw q l Hq).
    unfold served. cbn [List.filter length]. now destruct (strict_eq _ _).
  - cbn [documents_after]. unfold field_of in *. cbn [store] in *. exact Hf.
Qed.

End PopulateFirstDocument.

(** X28: [populate] decides from the first document alone which fields it
    populates: a field that refers to another model but holds no string
    and no native id in the first document is left as it is in every
    document, whatever id the other documents hold in it. *)
Theorem populate_follows_the_first_document {DB : Backend}
    (loadById : Value -> Value -> Result Value)
    (docs : Docs) (order : list nat) (store : list Instance)
    (d d0 : nat) (k name : string) (first this : Instance) :
  k <> "_id" ->
  hd_error (documents_of docs) = Some d0 -> store !! d0 = Some first ->
  prop (Object.get k (_schema first)) "type" = Return (VCtor (CModel Document name)) ->
  isString (schemaProxyHandler.get first k)
  || isNativeId (schemaProxyHandler.get first k) = false ->
  store !! d = Some this ->
  exists this',
    documents_after (populate loadById docs order store) !! d = Some this' /\
    Object.lookup k (_values this') = Object.lookup k (_values this).
Proof.
  intros Hk Hd0 Hfirst Htype Hfilter Hthis.
  assert (H : field_of (mkState (documents_after (populate loadById docs order store))
                          [] []) d k
              = field_of (mkState store [] []) d k).
  { destruct docs as [|d1|[|d1 ds]]; cbn [documents_of] in Hd0; try discriminate;
      cbn [populate]; apply run_untouched; auto;
      intros d0' first' E0 Ef; cbn [hd_error] in E0, Hd0;
      assert (d0' = d0) by congruence; subst d0';
      assert (first' = first) by congruence; subst first';
      unfold keyDef; rewrite Htype; cbn [bind orb isDocument];
      now rewrite Hfilter. }
  assert (Hlen : length (documents_after (populate loadById docs order store))
                 = length store).
  { pose proof (populate_schemas loadById docs order store) as Hs.
    apply (f_equal (@length _)) in Hs. now rewrite !length_map in Hs. }
  unfold field_of in H. cbn [Populate.store] in H. rewrite Hthis in H.
  destruct (documents_after (populate loadById docs order store) !! d) as [this'|] eqn:E.
  - exists this'. split; [reflexivity | exact H].
  - exfalso. apply lookup_ge_None in E. apply lookup_lt_Some in Hthis. lia.
Qed.

Lemma populate_follows_the_first_document_witness :
  let store := [book [] VNull; book [] (VStr "a1")] in
  let r := populate (DB := mongo) library (Many [0; 1]%nat) [] store in
  schemaProxyHandler.get (book [] VNull) "editor" = VNull /\
  calls r = [] /\
  exists this',
    documents_after r !! 1%nat = Some this' /\
    Object.lookup "editor" (_values this') = Some (VStr "a1").
Proof.
  intros store r. split; [reflexivity|]. split; [reflexivity|].
  apply (populate_follows_the_first_document (DB := mongo) library (Many [0; 1]%nat)
           [] store 1%nat 0%nat "editor" "Author" (book [] VNull)
           (book [] (VStr "a1")));
    (reflexivity || discriminate).
Defined.
